(** * task_3.py: insertion sort, merge sort and the timing harness

    A shallow embedding of [src/task_3.py].  Python lists are mutable
    objects, so the sorting functions are embedded in a state monad over
    an object store; the data-set generators, the timer and the benchmark
    driver are embedded in a state monad over a world (pseudo-random
    generator, clock, standard output). *)

From stdpp Require Import base list sorting strings gmap pretty.
From Equations Require Import Equations.

Local Open Scope Z_scope.

(** ** Exceptions and the state-and-error monad *)

(** The Python exceptions the program can raise.  [NoSuchObject] and
    [OutOfFuel] are artefacts of the embedding: a reference that is not
    in the store, and a loop that was cut by its unrolling bound. *)
Inductive exn : Type :=
  | IndexError
  | ValueError
  | ZeroDivisionError
  | KeyError
  | TypeError
  | NoSuchObject
  | OutOfFuel
  | TurtleGraphicsError.

Inductive result (A : Type) : Type :=
  | Ok (a : A)
  | Raise (e : exn).
Arguments Ok {A} a.
Arguments Raise {A} e.

(** A computation returns a value or raises, and leaves a state behind in
    both cases. *)
Definition M (S A : Type) : Type := S → result A * S.

Definition ret {S A} (a : A) : M S A := λ s, (Ok a, s).

Definition raise {S A} (e : exn) : M S A := λ s, (Raise e, s).

Definition bind {S A B} (m : M S A) (k : A → M S B) : M S B :=
  λ s, match m s with
       | (Ok a, s') => k a s'
       | (Raise e, s') => (Raise e, s')
       end.

Notation "'let!' x ':=' m 'in' k" := (bind m (λ x, k))
  (at level 10, x name, m at level 100, k at level 200,
   format "'[v' 'let!'  x  ':='  m  'in' '/' k ']'").
Notation "'let!' ( x , y ) ':=' m 'in' k" := (bind m (λ '(x, y), k))
  (at level 10, x name, y name, m at level 100, k at level 200,
   format "'[v' 'let!'  ( x ,  y )  ':='  m  'in' '/' k ']'").
Notation "m ';;' k" := (bind m (λ _, k))
  (at level 100, k at level 200, right associativity).

(** [for x in xs: body(x)] *)
Fixpoint for_each {S B} (xs : list B) (body : B → M S unit) : M S unit :=
  match xs with
  | [] => ret ()
  | x :: xs' => body x ;; for_each xs' body
  end.

(** [range(lo, hi)] *)
Definition py_range (lo hi : Z) : list Z := seqZ lo (hi - lo).

(** ** The object store and the list primitives *)

Section Store.
Context {A : Type}.

(** A reference is an address; the store maps addresses to list
    objects.  Allocation takes the next free address. *)
Definition loc : Type := nat.
Local Abbreviation heap := (list (list A)).

Definition alloc (l : list A) : M heap loc :=
  λ h, (Ok (length h), h ++ [l]).

Definition deref (p : loc) : M heap (list A) :=
  λ h, match h !! p with
       | Some l => (Ok l, h)
       | None => (Raise NoSuchObject, h)
       end.

Definition assign (p : loc) (l : list A) : M heap unit :=
  λ h, match h !! p with
       | Some _ => (Ok (), <[p := l]> h)
       | None => (Raise NoSuchObject, h)
       end.

(** [len(p)] *)
Definition len (p : loc) : M heap Z :=
  let! l := deref p in ret (Z.of_nat (length l)).

(** Python's index rule: [-len <= i < 0] counts from the end, anything
    outside [-len, len) raises IndexError. *)
Definition index_of (n : nat) (i : Z) : option nat :=
  if decide (0 ≤ i < Z.of_nat n) then Some (Z.to_nat i)
  else if decide (- Z.of_nat n ≤ i < 0) then Some (Z.to_nat (Z.of_nat n + i))
  else None.

(** [p[i]] *)
Definition getitem (p : loc) (i : Z) : M heap A :=
  let! l := deref p in
  match index_of (length l) i with
  | Some k =>
      match l !! k with
      | Some x => ret x
      | None => raise IndexError
      end
  | None => raise IndexError
  end.

(** [p[i] = v] *)
Definition setitem (p : loc) (i : Z) (v : A) : M heap unit :=
  let! l := deref p in
  match index_of (length l) i with
  | Some k => assign p (<[k := v]> l)
  | None => raise IndexError
  end.

(** [p.copy()] *)
Definition list_copy (p : loc) : M heap loc :=
  let! l := deref p in alloc l.

(** A slice bound is clamped to [0, len]; a negative bound counts from
    the end. *)
Definition slice_bound (n : nat) (i : Z) : nat :=
  if decide (i < 0) then Z.to_nat (Z.max 0 (Z.of_nat n + i))
  else Z.to_nat (Z.min i (Z.of_nat n)).

(** [p[:i]] *)
Definition slice_to (p : loc) (i : Z) : M heap loc :=
  let! l := deref p in alloc (take (slice_bound (length l) i) l).

(** [p[i:]] *)
Definition slice_from (p : loc) (i : Z) : M heap loc :=
  let! l := deref p in alloc (drop (slice_bound (length l) i) l).

(** [p.append(v)] *)
Definition append (p : loc) (v : A) : M heap unit :=
  let! l := deref p in assign p (l ++ [v]).

(** [p.extend(q)] *)
Definition extend (p q : loc) : M heap unit :=
  let! l := deref p in
  let! m := deref q in
  assign p (l ++ m).

(** ** The sorting algorithms *)

(** The comparisons [x > y] and [x <= y] of the source act on the
    elements' sort key; for a list of integers the key is the integer
    itself. *)
Context (sort_key : A → Z).

(** The loop [while j >= 0 and a[j] > key: a[j + 1] = a[j]; j -= 1] of
    [insertion_sort]; it returns the final [j]. *)
Equations? shift_while (a : loc) (key : A) (j : Z) : M heap Z
  by wf (Z.to_nat (j + 1)) lt :=
  shift_while a key j with decide (0 ≤ j) => {
    | right _ := ret j;
    | left _ :=
        let! x := getitem a j in
        if decide (sort_key x > sort_key key) then
          let! y := getitem a j in
          setitem a (j + 1) y ;;
          shift_while a key (j - 1)
        else ret j }.
Proof. lia. Qed.

Definition insertion_sort (arr : loc) : M heap loc :=
  let! a := list_copy arr in
  let! n := len a in
  for_each (py_range 1 n) (λ i,
    let! key := getitem a i in
    let j := i - 1 in
    let! j := shift_while a key j in
    setitem a (j + 1) key) ;;
  ret a.

(** The loop [while i < len(left) and j < len(right)] of [_merge]; it
    returns the final [(i, j)].  Each iteration advances [i] or [j], so
    [fuel] bounds the number of iterations. *)
Fixpoint merge_while (fuel : nat) (left right out : loc) (i j : Z)
    : M heap (Z * Z) :=
  let! nl := len left in
  if decide (i < nl) then
    let! nr := len right in
    if decide (j < nr) then
      match fuel with
      | O => raise OutOfFuel
      | S fuel' =>
          let! x := getitem left i in
          let! y := getitem right j in
          if decide (sort_key x ≤ sort_key y) then
            let! x := getitem left i in
            append out x ;;
            merge_while fuel' left right out (i + 1) j
          else
            let! y := getitem right j in
            append out y ;;
            merge_while fuel' left right out i (j + 1)
      end
    else ret (i, j)
  else ret (i, j).

(** The two lengths read first only bound the loop: it runs at most
    [len(left) + len(right)] times. *)
Definition _merge (left right : loc) : M heap loc :=
  let! out := alloc [] in
  let! nl := len left in
  let! nr := len right in
  let! (i, j) := merge_while (Z.to_nat (nl + nr)) left right out 0 0 in
  let! nl := len left in
  (if decide (i < nl) then
     let! rest := slice_from left i in extend out rest
   else ret ()) ;;
  let! nr := len right in
  (if decide (j < nr) then
     let! rest := slice_from right j in extend out rest
   else ret ()) ;;
  ret out.

(** [merge_sort]; [fuel] bounds the depth of the recursion. *)
Fixpoint merge_sort_rec (fuel : nat) (arr : loc) : M heap loc :=
  let! n := len arr in
  if decide (n ≤ 1) then list_copy arr
  else
    match fuel with
    | O => raise OutOfFuel
    | S fuel' =>
        let mid := n `div` 2 in
        let! lo := slice_to arr mid in
        let! left := merge_sort_rec fuel' lo in
        let! hi := slice_from arr mid in
        let! right := merge_sort_rec fuel' hi in
        _merge left right
    end.

Definition merge_sort (arr : loc) : M heap loc :=
  let! n := len arr in
  merge_sort_rec (Z.to_nat n) arr.

(** The built-in [sorted] is not part of the repository: [listsort]
    stands for the algorithm behind it, and [sorted] builds a new list
    object from the items it is given, as the language reference says. *)
Definition sorted (listsort : list A → list A) (arr : loc) : M heap loc :=
  let! l := deref arr in alloc (listsort l).

Definition timsort_sorted (listsort : list A → list A) (arr : loc)
    : M heap loc :=
  sorted listsort arr.

(** Calling [prog] on a list object holding [d], in a store of its
    own, and reading the list it returns. *)
Definition in_store (prog : loc → M heap loc) (d : list A)
    : result (list A) :=
  match prog 0%nat [d] with
  | (Ok r, h') =>
      match h' !! r with
      | Some out => Ok out
      | None => Raise NoSuchObject
      end
  | (Raise e, _) => Raise e
  end.

End Store.

(** The store of list objects with elements in [A]. *)
Abbreviation heap A := (list (list A)) (only parsing).

(** ** The host runtime

    What the program takes from the Python runtime and its standard
    library, and what the model leaves abstract: binary floating point,
    the Mersenne Twister behind [random], the built-in [sorted], [int]
    and [str.strip]. *)
Class Runtime : Type := {
  pyfloat : Type;
  (** [x - y] *)
  fsub : pyfloat → pyfloat → pyfloat;
  (** [sum(xs)] *)
  fsum : list pyfloat → pyfloat;
  (** [x / d] for an integer [d] other than zero *)
  fdiv_int : pyfloat → Z → pyfloat;
  (** [x / y] for a float [y] other than zero *)
  fdiv : pyfloat → pyfloat → pyfloat;
  (** [x * 1000.0] *)
  to_ms : pyfloat → pyfloat;
  (** [float('nan')] *)
  nan : pyfloat;
  (** [bool(x)], false at zero only *)
  truthy : pyfloat → bool;
  (** [f"{x:.2f}"] *)
  fmt2 : pyfloat → string;
  (** [int(n * r)], for [n] within the range of the floats and a product
      that is a finite number; the program calls it with the ratio
      [0.01] only *)
  int_mul : Z → pyfloat → Z;
  (** the literal [0.01] *)
  one_percent : pyfloat;
  (** the state of the pseudo-random generator *)
  twister : Type;
  (** the state after [random.seed(s)] *)
  seed_state : Z → twister;
  (** [Random._randbelow(n)] for [n > 0] *)
  randbelow : Z → twister → Z * twister;
  (** the algorithm behind [sorted] on lists of integers *)
  listsort : list Z → list Z;
  (** [int(s)]; [None] stands for ValueError *)
  py_int : string → option Z;
  (** [s.strip()] *)
  str_strip : string → string;
}.

(** The sorting functions of the [algos] table. *)
Inductive algo : Type :=
  | Insertion
  | Merge
  | Timsort.

#[global] Instance algo_eq_dec : EqDecision algo.
Proof. solve_decision. Defined.

(** What [print] writes, field by field: the values substituted in each
    f-string, before padding. *)
Inductive line : Type :=
  | BenchTitle (repeat number : Z)
  | TableHead
  | TableRule
  | TableRow (n : Z) (name ins mer tim : string)
  | ScalingTitle
  | ScalingAlgo (algo_name : string)
  | ScalingRow (n : Z) (ms : string) (ratio : option string).

Section World.
Context `{RT : Runtime}.

(** The state of a run: the generator, the clock (its future readings
    and how many were taken), the lines printed, and a record of every
    call of a sorting function with the list it was given. *)
Record world : Type := World {
  rng : twister;
  clock : nat → pyfloat;
  ticks : nat;
  stdout : list line;
  calls : list (algo * list Z);
}.

Definition set_rng (g : twister) (w : world) : world :=
  World g (clock w) (ticks w) (stdout w) (calls w).

Definition tick (w : world) : world :=
  World (rng w) (clock w) (S (ticks w)) (stdout w) (calls w).

Definition write_line (l : line) (w : world) : world :=
  World (rng w) (clock w) (ticks w) (stdout w ++ [l]) (calls w).

Definition log_call (a : algo) (d : list Z) (w : world) : world :=
  World (rng w) (clock w) (ticks w) (stdout w) (calls w ++ [(a, d)]).

(** [print(...)] *)
Definition print (l : line) : M world unit := λ w, (Ok (), write_line l w).

(** [acc = init; for x in xs: acc = body(x, acc)] *)
Fixpoint for_fold {S B C} (xs : list B) (acc : C) (body : B → C → M S C)
    : M S C :=
  match xs with
  | [] => ret acc
  | x :: xs' => let! acc' := body x acc in for_fold xs' acc' body
  end.

(** [[f(x) for x in xs]] *)
Fixpoint list_comp {S B C} (xs : list B) (f : B → M S C) : M S (list C) :=
  match xs with
  | [] => ret []
  | x :: xs' =>
      let! y := f x in
      let! ys := list_comp xs' f in
      ret (y :: ys)
  end.

(** [range(start, stop, -1)] *)
Definition py_range_down (start stop : Z) : list Z :=
  (λ k, start - k) <$> seqZ 0 (start - stop).

(** [l[i]] and [l[i] = v] on a list that only the caller holds. *)
Definition item {S} (l : list Z) (i : Z) : M S Z :=
  match index_of (length l) i with
  | Some k =>
      match l !! k with
      | Some x => ret x
      | None => raise IndexError
      end
  | None => raise IndexError
  end.

Definition set_item {S} (l : list Z) (i : Z) (v : Z) : M S (list Z) :=
  match index_of (length l) i with
  | Some k => ret (<[k := v]> l)
  | None => raise IndexError
  end.

(** *** The [random] module *)

Definition random_seed (s : Z) : M world unit :=
  λ w, (Ok (), set_rng (seed_state s) w).

Definition draw (n : Z) : M world Z :=
  λ w, let '(x, g) := randbelow n (rng w) in (Ok x, set_rng g w).

(** [random.randrange(n)] *)
Definition randrange (n : Z) : M world Z :=
  if decide (0 < n) then draw n else raise ValueError.

(** [random.randrange(start, stop)] *)
Definition randrange2 (start stop : Z) : M world Z :=
  let width := stop - start in
  if decide (0 < width) then let! x := draw width in ret (start + x)
  else raise ValueError.

(** [random.randint(a, b)] *)
Definition randint (a b : Z) : M world Z := randrange2 a (b + 1).

(** *** The data-set generators *)

Definition make_random (n : Z) : M world (list Z) :=
  list_comp (py_range 0 n) (λ _, randint 0 (10 ^ 9)).

Definition make_sorted (n : Z) : M world (list Z) :=
  ret (py_range 0 n).

Definition make_reverse (n : Z) : M world (list Z) :=
  ret (py_range_down n 0).

Definition make_nearly_sorted (n : Z) (swaps_ratio : pyfloat)
    : M world (list Z) :=
  let a := py_range 0 n in
  let swaps := Z.max 1 (int_mul n swaps_ratio) in
  for_fold (py_range 0 swaps) a (λ _ a,
    let! i := randrange n in
    let! j := randrange n in
    let! aj := item a j in
    let! ai := item a i in
    let! a := set_item a i aj in
    set_item a j ai).

Definition make_many_duplicates (n : Z) (uniques : Z) : M world (list Z) :=
  list_comp (py_range 0 n) (λ _, randrange uniques).

Definition DATASETS : list (string * (Z → M world (list Z))) :=
  [ ("random", make_random);
    ("sorted", make_sorted);
    ("reverse", make_reverse);
    ("nearly_sorted", λ n, make_nearly_sorted n one_percent);
    ("many_duplicates", λ n, make_many_duplicates n 100) ].

(** *** The [timeit] module

    [timeit.Timer(stmt).repeat(repeat, number)], after the standard
    library: each batch reads the clock, runs the statement [number]
    times and reads the clock again.  The count [number] is taken
    within [-2^63, 2^63), the range of a C [ssize_t]: outside of it the
    library raises OverflowError before it reads the clock, which is
    not modelled, and the properties of a run of the timer are stated
    within this range. *)

Definition perf_counter : M world pyfloat :=
  λ w, (Ok (clock w (ticks w)), tick w).

Definition timeit (stmt : M world unit) (number : Z) : M world pyfloat :=
  let! t0 := perf_counter in
  for_each (py_range 0 number) (λ _, stmt) ;;
  let! t1 := perf_counter in
  ret (fsub t1 t0).

Definition timer_repeat (stmt : M world unit) (repeat number : Z)
    : M world (list pyfloat) :=
  list_comp (py_range 0 repeat) (λ _, timeit stmt number).

(** [x / d] with an integer divisor, within the range of the floats: the
    divisors of the program are the length of a list and a count that
    [timeit] has taken. *)
Definition py_div (x : pyfloat) (d : Z) : M world pyfloat :=
  if decide (d = 0) then raise ZeroDivisionError else ret (fdiv_int x d).

(** *** The benchmark *)

Definition algo_fun (a : algo) : loc → M (heap Z) loc :=
  match a with
  | Insertion => insertion_sort id
  | Merge => merge_sort id
  | Timsort => timsort_sorted listsort
  end.

(** A call [algo(d)] from the harness: the sorting function runs on a
    list object holding [d], and the call is put on record. *)
Definition call_algo (a : algo) (d : list Z) : M world (list Z) :=
  λ w, match in_store (algo_fun a) d with
       | Ok out => (Ok out, log_call a d w)
       | Raise e => (Raise e, log_call a d w)
       end.

(** The thunk [lambda d=data: algo(d.copy())] of [run_bench]. *)
Definition call_algo_on_copy (a : algo) (d : list Z) : M world (list Z) :=
  λ w, match in_store (λ p, let! c := list_copy p in algo_fun a c) d with
       | Ok out => (Ok out, log_call a d w)
       | Raise e => (Raise e, log_call a d w)
       end.

Definition bench_one (func : list Z → M world (list Z)) (data : list Z)
    (repeat number : Z) : M world pyfloat :=
  let! runs := timer_repeat (func data ;; ret ()) repeat number in
  let! mean := py_div (fsum runs) (Z.of_nat (length runs)) in
  py_div mean number.

Definition algos : list (string * algo) :=
  [ ("Insertion", Insertion);
    ("Merge", Merge);
    ("Timsort(sorted)", Timsort) ].

(** The marker of a cell that was not measured. *)
Definition not_measured : string := "—".

(** The loop [for algo_name, algo in algos] of [run_bench], from the
    initial dictionary [times_ms] to the final one. *)
Definition time_algos (n : Z) (data : list Z)
    (repeat number include_insertion_upper_n : Z)
    : M world (gmap string (option pyfloat)) :=
  let times_ms : gmap string (option pyfloat) :=
    <["Insertion" := None]> (<["Merge" := None]>
      (<["Timsort(sorted)" := None]> ∅)) in
  for_fold algos times_ms (λ '(algo_name, algo) times_ms,
    if decide (algo_name = "Insertion" ∧ n > include_insertion_upper_n)
    then ret times_ms
    else
      let! t := bench_one (call_algo_on_copy algo) data repeat number in
      ret (<[algo_name := Some (to_ms t)]> times_ms)).

(** [f"{times_ms[k]:.2f}"]: a missing key raises KeyError and [None]
    does not take the format. *)
Definition cell (times_ms : gmap string (option pyfloat)) (k : string)
    : M world string :=
  match times_ms !! k with
  | Some (Some t) => ret (fmt2 t)
  | Some None => raise TypeError
  | None => raise KeyError
  end.

(** [f"{times_ms[k]:.2f}" if times_ms[k] is not None else "—"] *)
Definition cell_or_marker (times_ms : gmap string (option pyfloat))
    (k : string) : M world string :=
  match times_ms !! k with
  | Some (Some t) => ret (fmt2 t)
  | Some None => ret not_measured
  | None => raise KeyError
  end.

(** The body of the loop [for name, gen in DATASETS] of [run_bench]: one
    row of the table. *)
Definition bench_row (n : Z) (name : string) (gen : Z → M world (list Z))
    (repeat number include_insertion_upper_n : Z) : M world unit :=
  let! data := gen n in
  let! times_ms :=
    time_algos n data repeat number include_insertion_upper_n in
  let! ins := cell_or_marker times_ms "Insertion" in
  let! mer := cell times_ms "Merge" in
  let! tim := cell times_ms "Timsort(sorted)" in
  print (TableRow n name ins mer tim).

Definition run_bench (ns : list Z)
    (repeat number include_insertion_upper_n : Z) : M world unit :=
  print (BenchTitle repeat number) ;;
  print TableHead ;;
  print TableRule ;;
  for_each ns (λ n,
    for_each DATASETS (λ '(name, gen),
      bench_row n name gen repeat number include_insertion_upper_n)).

Definition analyze_scaling : M world unit :=
  print ScalingTitle ;;
  for_each algos (λ '(algo_name, algo),
    let ns := [2000; 4000; 8000; 16000] in
    let ns :=
      if decide (algo_name = "Insertion") then [1000; 2000; 4000; 8000]
      else ns in
    print (ScalingAlgo algo_name) ;;
    for_fold ns None (λ n (prev_t : option pyfloat),
      let! data := make_random n in
      let! t := bench_one (call_algo algo) data 3 1 in
      let prev_true :=
        match prev_t with
        | Some p => truthy p
        | None => false
        end in
      let ratio :=
        match prev_t with
        | Some p => if truthy p then fdiv t p else nan
        | None => nan
        end in
      print (ScalingRow n (fmt2 (to_ms t))
               (if prev_true then Some (fmt2 ratio) else None)) ;;
      ret (Some t)) ;;
    ret ()).

(** *** The entry point *)

(** The namespace that [parse_args] returns. *)
Record args : Type := Args {
  arg_sizes : string;
  arg_repeat : Z;
  arg_number : Z;
  arg_ins_max : Z;
  arg_no_scaling : bool;
}.

(** [s.split(",")] *)
Fixpoint split_comma (s : string) : list string :=
  match s with
  | EmptyString => [EmptyString]
  | String c s' =>
      if Ascii.eqb c (Ascii.ascii_of_nat 44) then EmptyString :: split_comma s'
      else
        match split_comma s' with
        | [] => [String c EmptyString]
        | x :: xs => String c x :: xs
        end
  end.

(** [[int(x) for x in xs if x.strip()]] *)
Fixpoint parse_sizes (xs : list string) : M world (list Z) :=
  match xs with
  | [] => ret []
  | x :: xs' =>
      if decide (str_strip x = EmptyString) then parse_sizes xs'
      else
        match py_int x with
        | Some n => let! ns := parse_sizes xs' in ret (n :: ns)
        | None => raise ValueError
        end
  end.

Definition main (a : args) : M world Z :=
  random_seed 42 ;;
  let! ns := parse_sizes (split_comma (arg_sizes a)) in
  run_bench ns (arg_repeat a) (arg_number a) (arg_ins_max a) ;;
  (if negb (arg_no_scaling a) then analyze_scaling else ret ()) ;;
  ret 0.

End World.

(** ** A sample runtime

    A small instance of [Runtime] on which the model runs: times are
    integers, the generator is a linear congruential one, ratios are
    counted in hundredths, and [int] reads an optional sign and decimal
    digits. *)

Fixpoint digits_value (s : string) (acc : Z) : option Z :=
  match s with
  | EmptyString => Some acc
  | String c s' =>
      let d := Z.of_nat (Ascii.nat_of_ascii c) in
      if decide (48 ≤ d ≤ 57) then digits_value s' (10 * acc + (d - 48))
      else None
  end.

Definition sample_int (s : string) : option Z :=
  match s with
  | EmptyString => None
  | String c s' =>
      if Ascii.eqb c (Ascii.ascii_of_nat 45) then
        match s' with
        | EmptyString => None
        | _ => Z.opp <$> digits_value s' 0
        end
      else digits_value s 0
  end.

Fixpoint lstrip_spaces (s : string) : string :=
  match s with
  | EmptyString => EmptyString
  | String c s' =>
      if Ascii.eqb c (Ascii.ascii_of_nat 32) then lstrip_spaces s' else s
  end.

Definition sample_strip (s : string) : string :=
  String.rev (lstrip_spaces (String.rev (lstrip_spaces s))).

Definition sample_runtime : Runtime := {|
  pyfloat := Z;
  fsub := Z.sub;
  fsum := foldr Z.add 0;
  fdiv_int := Z.div;
  fdiv := Z.div;
  to_ms := λ x, x * 1000;
  nan := 0;
  truthy := λ x, negb (x =? 0);
  fmt2 := pretty;
  int_mul := λ n r, (n * r) `quot` 100;
  one_percent := 1;
  twister := Z;
  seed_state := λ s, s;
  randbelow := λ n g, (g `mod` n, (g * 1103515245 + 12345) `mod` 2 ^ 31);
  listsort := stdpp.sorting.merge_sort Z.le;
  py_int := sample_int;
  str_strip := sample_strip;
|}.

(** A world of the sample runtime in which nothing has happened yet; the
    clock advances by seven units a reading. *)
Definition sample_world : @world sample_runtime :=
  @World sample_runtime 1 (λ k, 7 * Z.of_nat k) 0%nat [] [].


(** ** What the claims are stated with *)

Section Specs.
Context {A : Type} (sort_key : A → Z).

(** The order the source's comparisons put on the elements. *)
Definition key_le (x y : A) : Prop := sort_key x ≤ sort_key y.

#[global] Instance key_le_dec x y : Decision (key_le x y).
Proof. unfold key_le. apply _. Defined.

#[global] Instance key_le_trans : Transitive (key_le).
Proof. unfold key_le. intros x y z. lia. Qed.

#[global] Instance key_le_total : Total (key_le).
Proof. unfold key_le. intros x y. lia. Qed.

(** Stability: the elements of any one key occur in [out] in the order
    they have in [S]. *)
Definition same_order (S out : list A) : Prop :=
  ∀ c, filter (λ x, sort_key x = c) out = filter (λ x, sort_key x = c) S.

Definition stable_sort_of (S out : list A) : Prop :=
  out ≡ₚ S ∧ Sorted key_le out ∧ same_order S out.

(** Called on a list object holding [S], in any store, [f] returns a
    reference to a list holding [out]. *)
Definition returns (f : loc → M (heap A) loc) (S out : list A) : Prop :=
  ∀ (h : heap A) arr, h !! arr = Some S →
    ∃ r h', f arr h = (Ok r, h') ∧ h' !! r = Some out.

(** The call [f(arr)] on a list object holding [S] returns an object
    other than [arr] that was not in the store [h], and leaves every
    object of [h], [arr] among them, as it was. *)
Definition returns_new (f : loc → M (heap A) loc) (h : heap A) (arr : loc)
    (S : list A) : Prop :=
  ∃ r h', f arr h = (Ok r, h') ∧ r ≠ arr ∧ h !! r = None ∧
          is_Some (h' !! r) ∧ h' !! arr = Some S ∧
          ∀ p l, h !! p = Some l → h' !! p = Some l.

(** The shape the sorting functions' runs have: the store grows at its
    end, and the result is one of the new objects. *)
Definition grows_into (f : loc → M (heap A) loc) (h : heap A) (arr : loc)
    (out : list A) : Prop :=
  ∃ r junk, f arr h = (Ok r, h ++ junk) ∧ (length h ≤ r)%nat ∧
            (h ++ junk) !! r = Some out.

End Specs.

(** The relation that holds of any two values. *)
Abbreviation any := (λ _ _, True).

Section WorldSpecs.
Context `{RT : Runtime}.

(** What the model asks of the pseudo-random generator. *)
Class RuntimeLaws : Prop := {
  randbelow_range : ∀ n g, 0 < n → 0 ≤ (randbelow n g).1 < n;
}.

(** Every run of [m] takes a world to one that [T] relates to it,
    whether [m] returns or raises. *)
Definition steps (T : world → world → Prop) {B} (m : M world B) : Prop :=
  ∀ w, T w (m w).2.

(** Only the generator moved. *)
Definition rng_step (w w' : world) : Prop :=
  clock w' = clock w ∧ ticks w' = ticks w ∧
  stdout w' = stdout w ∧ calls w' = calls w.

(** Nothing was printed, the generator did not move, and the sorting
    functions that were called all satisfy [P]. *)
Definition timing_step (P : algo → Prop) (w w' : world) : Prop :=
  rng w' = rng w ∧ stdout w' = stdout w ∧
  ∃ new, calls w' = calls w ++ new ∧ Forall (λ c, P c.1) new.

(** The timer as the specification words it: [repeat] batches, each
    running the thunk [number] times between two readings of the clock. *)
Fixpoint run_times (k : nat) (stmt : M world unit) (w : world) : world :=
  match k with
  | O => w
  | S k' => run_times k' stmt (stmt w).2
  end.

Definition batch_time (number : nat) (stmt : M world unit) (w : world)
    : pyfloat * world :=
  let t0 := clock w (ticks w) in
  let w1 := run_times number stmt (tick w) in
  (fsub (clock w1 (ticks w1)) t0, tick w1).

Fixpoint batch_times (repeat number : nat) (stmt : M world unit) (w : world)
    : list pyfloat * world :=
  match repeat with
  | O => ([], w)
  | S r =>
      let '(t, w1) := batch_time number stmt w in
      let '(ts, w2) := batch_times r number stmt w1 in
      (t :: ts, w2)
  end.

(** Two worlds that hold the same generator state and the same record of
    calls; their clocks and their output may differ. *)
Definition same_data (w1 w2 : world) : Prop :=
  rng w1 = rng w2 ∧ calls w1 = calls w2.

Definition same_outcome {B} (R : B → B → Prop)
    (o1 o2 : result B * world) : Prop :=
  match o1, o2 with
  | (Ok a1, w1), (Ok a2, w2) => R a1 a2 ∧ same_data w1 w2
  | (Raise e1, w1), (Raise e2, w2) => e1 = e2 ∧ same_data w1 w2
  | _, _ => False
  end.

(** Two dictionaries [times_ms] with the same keys, [None] at the same
    keys. *)
Definition same_shape (d1 d2 : gmap string (option pyfloat)) : Prop :=
  ∀ k, match d1 !! k, d2 !! k with
       | Some (Some _), Some (Some _) => True
       | Some None, Some None => True
       | None, None => True
       | _, _ => False
       end.

(** Run from worlds with the same data, [m1] and [m2] end alike. *)
Definition agree {B} (R : B → B → Prop) (m1 m2 : M world B) : Prop :=
  ∀ w1 w2, same_data w1 w2 → same_outcome R (m1 w1) (m2 w2).

End WorldSpecs.

Arguments RuntimeLaws RT : clear implicits.

(** ** What the further properties are stated with *)

Section DriverSpecs.
Context `{RT : Runtime}.

(** The three lines above the rows of the table. *)
Definition table_head (repeat number : Z) : list line :=
  [BenchTitle repeat number; TableHead; TableRule].

(** The size and the data set of each row, in the order of the loops of
    [run_bench]. *)
Definition table_keys (ns : list Z) : list (Z * string) :=
  ns ≫= λ n, DATASETS ≫= λ d, [(n, d.1)].

(** A row for the size and data set [key]: the cell of insertion sort
    holds the marker above the ceiling and a formatted time otherwise. *)
Definition row_of (ceiling : Z) (key : Z * string) (l : line) : Prop :=
  ∃ ins mer tim,
    l = TableRow key.1 key.2 ins mer tim ∧
    (key.1 > ceiling → ins = not_measured) ∧
    (key.1 ≤ ceiling → ∃ t, ins = fmt2 t).



(** The record of calls has grown. *)
Definition calls_grow (w w' : world) : Prop :=
  ∃ new, calls w' = calls w ++ new.

(** The rows [analyze_scaling] prints for one function, from the times
    [ts] measured at the sizes [ns]: the ratio to the time of the row
    above, left out in the first row and after a time of zero. *)
Fixpoint scaling_rows (prev : option pyfloat) (ns : list Z)
    (ts : list pyfloat) : list line :=
  match ns, ts with
  | n :: ns', t :: ts' =>
      ScalingRow n (fmt2 (to_ms t))
        (match prev with
         | Some p => if truthy p then Some (fmt2 (fdiv t p)) else None
         | None => None
         end)
      :: scaling_rows (Some t) ns' ts'
  | _, _ => []
  end.

(** The lines [analyze_scaling] prints for one function: its name, then
    a row for each size. *)
Definition scaling_block (name : string) (ns : list Z) (ls : list line)
    : Prop :=
  ∃ ts : list pyfloat,
    length ts = length ns ∧
    ls = ScalingAlgo name :: scaling_rows None ns ts.

End DriverSpecs.

(** ** The Koch snowflake (task_2.py)

    The turtle and its screen are a trace of the calls made on them, in
    order, together with what [print] wrote.  A display is taken to be
    there and the window to stay open; what the canvas does with a
    length that is not a finite number is not modelled, and the
    properties of a run of [main] are stated for a finite size. *)

(** What the drawing takes from Python's floats. *)
Class Canvas : Type := {
  num : Type;
  (** [-x] *)
  num_neg : num → num;
  (** [x * y] *)
  num_mul : num → num → num;
  (** [x / y] *)
  num_div : num → num → num;
  (** the literals [2.0], [3.0] and [0.866] *)
  num_2 : num;
  num_3 : num;
  num_0866 : num;
  (** [math.isfinite(x)] *)
  num_finite : num → bool;
  (** the strings that the turtle library takes for a color *)
  known_color : string → bool;
}.

Module Koch.
Section Koch.
Context `{CV : Canvas}.

(** The two messages of [main]. *)
Inductive message : Type :=
  | LevelBelowZero
  | LevelVeryHigh.

Inductive event : Type :=
  | Say (m : message)
  | ScreenTitle (level : Z)
  | BgColor (c : string)
  | NewTurtle
  | Speed (s : Z)
  | Color (c : string)
  | PenSize (p : Z)
  | PenUp
  | Goto (x y : num)
  | PenDown
  | Forward (d : num)
  | TurnLeft (deg : Z)
  | TurnRight (deg : Z)
  | HideTurtle
  | Done.

Definition emit (e : event) : M (list event) unit :=
  λ t, (Ok (), t ++ [e]).

(** [screen.bgcolor(c)] and [t.color(c)]: the library raises
    TurtleGraphicsError on a string that it does not take for a color. *)
Definition screen_bgcolor (c : string) : M (list event) unit :=
  if known_color c then emit (BgColor c) else raise TurtleGraphicsError.

Definition turtle_color (c : string) : M (list event) unit :=
  if known_color c then emit (Color c) else raise TurtleGraphicsError.

(** [level] is a natural number: [main] passes on no level below zero,
    where the recursion of the source does not reach its base case. *)
Fixpoint koch_segment (length : num) (level : nat) : M (list event) unit :=
  match level with
  | O => emit (Forward length)
  | S level' =>
      let length := num_div length num_3 in
      koch_segment length level' ;;
      emit (TurnLeft 60) ;;
      koch_segment length level' ;;
      emit (TurnRight 120) ;;
      koch_segment length level' ;;
      emit (TurnLeft 60) ;;
      koch_segment length level'
  end.

Definition koch_snowflake (length : num) (level : nat)
    : M (list event) unit :=
  for_each (py_range 0 3) (λ _,
    koch_segment length level ;;
    emit (TurnRight 120)).

(** The namespace that [parse_args] returns. *)
Record args : Type := Args {
  arg_level : Z;
  arg_size : num;
  arg_speed : Z;
  arg_bg : string;
  arg_color : string;
}.

Definition main (a : args) : M (list event) Z :=
  if decide (arg_level a < 0) then
    emit (Say LevelBelowZero) ;;
    ret 1
  else
    (if decide (arg_level a > 8) then emit (Say LevelVeryHigh)
     else ret ()) ;;
    emit (ScreenTitle (arg_level a)) ;;
    screen_bgcolor (arg_bg a) ;;
    emit NewTurtle ;;
    emit (Speed (arg_speed a)) ;;
    turtle_color (arg_color a) ;;
    emit (PenSize 2) ;;
    let height := num_mul num_0866 (arg_size a) in
    emit PenUp ;;
    emit (Goto (num_div (num_neg (arg_size a)) num_2)
               (num_div (num_neg height) num_3)) ;;
    emit PenDown ;;
    koch_snowflake (arg_size a) (Z.to_nat (arg_level a)) ;;
    emit HideTurtle ;;
    emit Done ;;
    ret 0.

(** The lengths of the strokes of a trace, in order. *)
Definition strokes (t : list event) : list num :=
  omap (λ e, match e with Forward d => Some d | _ => None end) t.

(** By how many degrees a trace turns the turtle, counted to the left. *)
Definition turning (t : list event) : Z :=
  foldr (λ e acc,
    match e with
    | TurnLeft d => d + acc
    | TurnRight d => - d + acc
    | _ => acc
    end) 0 t.

(** A trace of strokes and turns only. *)
Definition drawing (t : list event) : Prop :=
  Forall (λ e, match e with
               | Forward _ | TurnLeft _ | TurnRight _ => True
               | _ => False
               end) t.

End Koch.
End Koch.

(** A canvas on which the model runs: lengths are integers. *)
Definition sample_canvas : Canvas := {|
  num := Z;
  num_neg := Z.opp;
  num_mul := Z.mul;
  num_div := Z.quot;
  num_2 := 2;
  num_3 := 3;
  num_0866 := 1;
  num_finite := λ _, true;
  known_color := λ c, bool_decide (c ∈ ["white"; "black"; "blue"; "red"]);
|}.

(** ** The file sorter (task_1.py)

    The state is the set of the names that exist in [dest_dir]: a path
    [dest_dir / name] is identified by [name], and [src_file] is given
    by its stem and its suffix, which [pathlib] computes. *)

Module Sorter.

(** [(dest_dir / name).exists()] *)
Definition path_exists (name : string) : M (gset string) bool :=
  λ fs, (Ok (bool_decide (name ∈ fs)), fs).

(** [f"{stem}_{counter}{ext}"] *)
Definition numbered (stem ext : string) (counter : Z) : string :=
  stem +:+ "_" +:+ pretty counter +:+ ext.

(** The loop [while candidate.exists()]; [fuel] bounds the number of
    candidates that are found to exist. *)
Fixpoint rename_while (fuel : nat) (stem ext candidate : string)
    (counter : Z) : M (gset string) string :=
  let! taken := path_exists candidate in
  if taken : bool then
    match fuel with
    | O => raise OutOfFuel
    | S fuel' =>
        rename_while fuel' stem ext (numbered stem ext counter) (counter + 1)
    end
  else ret candidate.

(** A directory of [size fs] names stops the loop after at most
    [size fs] names with a counter. *)
Definition safe_dest_path (stem ext : string) : M (gset string) string :=
  λ fs, rename_while (S (size fs)) stem ext (stem +:+ ext) 1 fs.

End Sorter.

(** ** Facts about the store *)

Section StoreFacts.
Context {A : Type}.
Implicit Types (h : heap A) (l : list A) (p q : loc).

Lemma bind_ok {S B C} (m : M S B) (k : B → M S C) s b s' :
  m s = (Ok b, s') → bind m k s = k b s'.
Proof. unfold bind. by intros ->. Qed.

Lemma bind_raise {S B C} (m : M S B) (k : B → M S C) s e s' :
  m s = (Raise e, s') → bind m k s = (Raise e, s').
Proof. unfold bind. by intros ->. Qed.

Lemma deref_ok h p l : h !! p = Some l → deref p h = (Ok l, h).
Proof. unfold deref. by intros ->. Qed.

Lemma assign_ok h p l l' :
  h !! p = Some l → assign p l' h = (Ok (), <[p := l']> h).
Proof. unfold assign. by intros ->. Qed.

Lemma len_ok h p l :
  h !! p = Some l → len p h = (Ok (Z.of_nat (length l)), h).
Proof. intros Hp. unfold len. by rewrite (bind_ok _ _ _ _ _ (deref_ok _ _ _ Hp)). Qed.

Lemma index_of_nat (n k : nat) :
  (k < n)%nat → index_of n (Z.of_nat k) = Some k.
Proof.
  intros Hk. unfold index_of. rewrite decide_True by lia.
  by rewrite Nat2Z.id.
Qed.

Lemma getitem_ok h p l (k : nat) x :
  h !! p = Some l → l !! k = Some x → getitem p (Z.of_nat k) h = (Ok x, h).
Proof.
  intros Hp Hk. unfold getitem.
  rewrite (bind_ok _ _ _ _ _ (deref_ok _ _ _ Hp)).
  rewrite index_of_nat by (by eapply lookup_lt_Some).
  by rewrite Hk.
Qed.

Lemma setitem_ok h p l (k : nat) v :
  h !! p = Some l → (k < length l)%nat →
  setitem p (Z.of_nat k) v h = (Ok (), <[p := <[k := v]> l]> h).
Proof.
  intros Hp Hk. unfold setitem.
  rewrite (bind_ok _ _ _ _ _ (deref_ok _ _ _ Hp)).
  rewrite index_of_nat by done. by eapply assign_ok.
Qed.

Lemma list_copy_ok h p l :
  h !! p = Some l → list_copy p h = (Ok (length h), h ++ [l]).
Proof.
  intros Hp. unfold list_copy.
  by rewrite (bind_ok _ _ _ _ _ (deref_ok _ _ _ Hp)).
Qed.

Lemma slice_bound_nat (n k : nat) :
  (k ≤ n)%nat → slice_bound n (Z.of_nat k) = k.
Proof. intros Hk. unfold slice_bound. rewrite decide_False by lia. lia. Qed.

Lemma slice_to_ok h p l (k : nat) :
  h !! p = Some l → (k ≤ length l)%nat →
  slice_to p (Z.of_nat k) h = (Ok (length h), h ++ [take k l]).
Proof.
  intros Hp Hk. unfold slice_to.
  rewrite (bind_ok _ _ _ _ _ (deref_ok _ _ _ Hp)).
  by rewrite slice_bound_nat.
Qed.

Lemma slice_from_ok h p l (k : nat) :
  h !! p = Some l → (k ≤ length l)%nat →
  slice_from p (Z.of_nat k) h = (Ok (length h), h ++ [drop k l]).
Proof.
  intros Hp Hk. unfold slice_from.
  rewrite (bind_ok _ _ _ _ _ (deref_ok _ _ _ Hp)).
  by rewrite slice_bound_nat.
Qed.

Lemma append_ok h p l v :
  h !! p = Some l → append p v h = (Ok (), <[p := l ++ [v]]> h).
Proof.
  intros Hp. unfold append.
  rewrite (bind_ok _ _ _ _ _ (deref_ok _ _ _ Hp)). by eapply assign_ok.
Qed.

Lemma extend_ok h p q l m :
  h !! p = Some l → h !! q = Some m →
  extend p q h = (Ok (), <[p := l ++ m]> h).
Proof.
  intros Hp Hq. unfold extend.
  rewrite (bind_ok _ _ _ _ _ (deref_ok _ _ _ Hp)).
  rewrite (bind_ok _ _ _ _ _ (deref_ok _ _ _ Hq)). by eapply assign_ok.
Qed.

Lemma insert_twice h p l l' : <[p := l']> (<[p := l]> h) = <[p := l']> h.
Proof. apply list_insert_insert_eq. Qed.

Lemma insert_same h p l : h !! p = Some l → <[p := l]> h = h.
Proof. apply list_insert_id. Qed.

Lemma lookup_insert_same h p l l' :
  h !! p = Some l → <[p := l']> h !! p = Some l'.
Proof. intros Hp. apply list_lookup_insert_eq. by eapply lookup_lt_Some. Qed.

Lemma lookup_insert_other h p q l : p ≠ q → <[p := l]> h !! q = h !! q.
Proof. apply list_lookup_insert_ne. Qed.

Context (sort_key : A → Z).

(** *** Placing one element in a sorted prefix *)

Lemma filter_key_above (c : Z) l :
  Forall (λ y, sort_key y > c) l → filter (λ x, sort_key x = c) l = [].
Proof.
  induction 1 as [|y l Hy _ IH]; [done|].
  rewrite filter_cons_False by lia. done.
Qed.

Lemma sorted_prefix_below x Q1 :
  StronglySorted (key_le sort_key) Q1 →
  (Q1 = [] ∨ ∃ Q z, Q1 = Q ++ [z] ∧ sort_key z ≤ sort_key x) →
  Forall (λ y, sort_key y ≤ sort_key x) Q1.
Proof.
  intros Hs [->|(Q & z & -> & Hz)]; [constructor|].
  apply Forall_app. split; [|by repeat constructor].
  apply Forall_forall. intros y Hy.
  assert (key_le sort_key y z) as Hyz.
  { eapply StronglySorted_app_1_elem_of; [done..|]. set_solver. }
  unfold key_le in Hyz. lia.
Qed.

Lemma place_stable S0 Q1 Q2 x :
  stable_sort_of sort_key S0 (Q1 ++ Q2) →
  Forall (λ y, sort_key y > sort_key x) Q2 →
  (Q1 = [] ∨ ∃ Q z, Q1 = Q ++ [z] ∧ sort_key z ≤ sort_key x) →
  stable_sort_of sort_key (S0 ++ [x]) (Q1 ++ x :: Q2).
Proof.
  intros (Hperm & Hsort & Hord) Hab Hbe.
  apply Sorted_StronglySorted in Hsort; [|apply _].
  apply StronglySorted_app in Hsort as (Hcross & Hs1 & Hs2).
  pose proof (sorted_prefix_below x Q1 Hs1 Hbe) as Hbe'.
  split_and!.
  - rewrite <-Hperm, <-Permutation_middle, Permutation_cons_append. done.
  - apply StronglySorted_Sorted, StronglySorted_app. split_and!; [|done|].
    + intros u v Hu Hv. apply elem_of_cons in Hv as [->|Hv]; [|by eauto].
      rewrite Forall_forall in Hbe'. by apply Hbe'.
    + apply StronglySorted_cons. split; [|done].
      eapply Forall_impl; [done|]. unfold key_le. simpl. lia.
  - intros c. rewrite !filter_app, <-Hord, filter_app, filter_cons.
    destruct (decide (sort_key x = c)) as [<-|Hc].
    + rewrite (filter_key_above _ Q2) by done.
      rewrite (filter_cons_True _ x []) by done. by rewrite app_nil_r.
    + rewrite (filter_cons_False _ x []) by done. by rewrite app_nil_r.
Qed.

(** *** Insertion sort *)

Lemma shift_while_eq a key j h :
  shift_while sort_key a key j h =
  (if decide (0 ≤ j) then
     let! x := getitem a j in
     if decide (sort_key x > sort_key key) then
       let! y := getitem a j in
       setitem a (j + 1) y ;;
       shift_while sort_key a key (j - 1)
     else ret j
   else ret j) h.
Proof.
  rewrite shift_while_unfold_eq.
  unfold shift_while_unfold, shift_while_unfold_clause_1.
  by destruct (decide (0 ≤ j)).
Qed.

Lemma shift_while_spec a key P1 : ∀ hole P2 h,
  h !! a = Some (P1 ++ hole :: P2) →
  ∃ Q1 Q2 hole',
    P1 = Q1 ++ Q2 ∧
    Forall (λ y, sort_key y > sort_key key) Q2 ∧
    (Q1 = [] ∨ ∃ Q z, Q1 = Q ++ [z] ∧ sort_key z ≤ sort_key key) ∧
    shift_while sort_key a key (Z.of_nat (length P1) - 1) h =
      (Ok (Z.of_nat (length Q1) - 1), <[a := Q1 ++ hole' :: Q2 ++ P2]> h).
Proof.
  induction P1 as [|z P1 IH] using rev_ind; intros hole P2 h Ha.
  - exists [], [], hole. split_and!; [done|constructor|by left|].
    rewrite shift_while_eq, decide_False by (simpl; lia).
    simpl in *. by rewrite insert_same.
  - rewrite length_app. simpl length.
    replace (Z.of_nat (length P1 + 1) - 1) with (Z.of_nat (length P1)) by lia.
    rewrite shift_while_eq, decide_True by lia.
    assert ((P1 ++ [z]) ++ hole :: P2 = P1 ++ z :: hole :: P2) as Hl
      by (by rewrite <-app_assoc).
    rewrite Hl in Ha.
    assert ((P1 ++ z :: hole :: P2) !! length P1 = Some z) as Hz
      by (by rewrite list_lookup_middle).
    rewrite (bind_ok _ _ _ _ _ (getitem_ok _ _ _ _ _ Ha Hz)).
    destruct (decide (sort_key z > sort_key key)) as [Hgt|Hle].
    + rewrite (bind_ok _ _ _ _ _ (getitem_ok _ _ _ _ _ Ha Hz)).
      replace (Z.of_nat (length P1) + 1) with (Z.of_nat (S (length P1))) by lia.
      erewrite bind_ok; last first.
      { eapply setitem_ok; [done|]. rewrite length_app. simpl. lia. }
      assert (<[S (length P1) := z]> (P1 ++ z :: hole :: P2)
              = P1 ++ z :: z :: P2) as ->.
      { rewrite insert_app_r_alt by lia.
        replace (S (length P1) - length P1)%nat with 1%nat by lia. done. }
      destruct (IH z (z :: P2) (<[a := P1 ++ z :: z :: P2]> h))
        as (Q1 & Q2 & hole' & -> & HQ2 & HQ1 & Hrun).
      { by eapply lookup_insert_same. }
      exists Q1, (Q2 ++ [z]), hole'. split_and!.
      * by rewrite app_assoc.
      * apply Forall_app. split; [done|by repeat constructor].
      * done.
      * rewrite Hrun, insert_twice. by rewrite <-(app_assoc Q2).
    + exists (P1 ++ [z]), [], hole. split_and!.
      * by rewrite app_nil_r.
      * constructor.
      * right. exists P1, z. split; [done|lia].
      * unfold ret. rewrite length_app. simpl length. f_equal.
        { f_equal. lia. }
        simpl. rewrite <-app_assoc. simpl. by rewrite insert_same.
Qed.

Lemma stable_sort_of_single x : stable_sort_of sort_key [x] [x].
Proof. split_and!; [done|by repeat constructor|done]. Qed.

Lemma stable_sort_of_nil : stable_sort_of sort_key [] [].
Proof. split_and!; [done|constructor|done]. Qed.

Lemma insertion_loop_spec a R : ∀ P h S0,
  h !! a = Some (P ++ R) →
  stable_sort_of sort_key S0 P →
  ∃ F,
    for_each (seqZ (Z.of_nat (length P)) (Z.of_nat (length R))) (λ i,
      let! key := getitem a i in
      let j := i - 1 in
      let! j := shift_while sort_key a key j in
      setitem a (j + 1) key) h = (Ok (), <[a := F]> h) ∧
    stable_sort_of sort_key (S0 ++ R) F.
Proof.
  induction R as [|x R IH]; intros P h S0 Ha HP.
  - exists P. rewrite !app_nil_r in *. split; [|done].
    simpl. unfold ret. by rewrite insert_same.
  - rewrite seqZ_cons by (simpl length; lia).
    cbn [for_each].
    assert ((P ++ x :: R) !! length P = Some x) as Hx
      by (by rewrite list_lookup_middle).
    destruct (shift_while_spec a x P x R h Ha)
      as (Q1 & Q2 & hole' & HPQ & HQ2 & HQ1 & Hrun).
    erewrite bind_ok with (s' := <[a := Q1 ++ x :: Q2 ++ R]> h); last first.
    { rewrite (bind_ok _ _ _ _ _ (getitem_ok _ _ _ _ _ Ha Hx)).
      cbv zeta. rewrite (bind_ok _ _ _ _ _ Hrun).
      replace (Z.of_nat (length Q1) - 1 + 1) with (Z.of_nat (length Q1)) by lia.
      erewrite setitem_ok; [|by eapply lookup_insert_same|].
      2:{ rewrite length_app. simpl. lia. }
      rewrite insert_twice, insert_app_r_alt, Nat.sub_diag by lia.
      simpl. reflexivity. }
    subst P.
    destruct (IH (Q1 ++ x :: Q2) (<[a := Q1 ++ x :: Q2 ++ R]> h) (S0 ++ [x]))
      as (F & HF & Hst).
    { erewrite lookup_insert_same by done. by rewrite <-app_assoc. }
    { by apply place_stable. }
    exists F. split.
    + rewrite insert_twice in HF. rewrite <-HF. f_equal.
      f_equal; rewrite ?length_app; simpl length; lia.
    + by rewrite <-app_assoc in Hst.
Qed.

Lemma lookup_new h l : (h ++ [l]) !! length h = Some l.
Proof. by rewrite list_lookup_middle. Qed.

Lemma insert_new h l l' : <[length h := l']> (h ++ [l]) = h ++ [l'].
Proof. by rewrite insert_app_r_alt, Nat.sub_diag by lia. Qed.

Lemma insertion_sort_spec h arr S :
  h !! arr = Some S →
  ∃ out,
    insertion_sort sort_key arr h = (Ok (length h), h ++ [out]) ∧
    stable_sort_of sort_key S out.
Proof.
  intros Harr. unfold insertion_sort.
  rewrite (bind_ok _ _ _ _ _ (list_copy_ok _ _ _ Harr)).
  rewrite (bind_ok _ _ _ _ _ (len_ok _ _ _ (lookup_new h S))).
  unfold py_range. destruct S as [|x R].
  - exists []. split; [|apply stable_sort_of_nil].
    by rewrite seqZ_nil by (simpl; lia).
  - destruct (insertion_loop_spec (length h) R [x] (h ++ [x :: R]) [x])
      as (F & HF & Hst).
    { apply lookup_new. }
    { apply stable_sort_of_single. }
    exists F. split; [|done].
    replace (Z.of_nat (length (x :: R)) - 1) with (Z.of_nat (length R))
      by (simpl length; lia).
    change 1 with (Z.of_nat (length [x])).
    rewrite (bind_ok _ _ _ _ _ HF). by rewrite insert_new.
Qed.

(** *** Merging *)

Lemma list_merge_filter (c : Z) l1 : ∀ l2,
  StronglySorted (key_le sort_key) l1 →
  filter (λ x, sort_key x = c) (list_merge (key_le sort_key) l1 l2) =
  filter (λ x, sort_key x = c) l1 ++ filter (λ x, sort_key x = c) l2.
Proof.
  induction l1 as [|x l1 IH1]; intros l2 Hs.
  { by rewrite list_merge_nil_l. }
  induction l2 as [|y l2 IH2].
  { by rewrite list_merge_nil_r, filter_nil, app_nil_r. }
  apply StronglySorted_cons in Hs as Hs'. destruct Hs' as [Hx Hs1].
  rewrite list_merge_cons. case_decide as Hxy.
  - rewrite !(filter_cons _ x), IH1 by done. by case_decide.
  - rewrite !(filter_cons _ y), IH2. case_decide as Hc; [|done].
    rewrite (filter_key_above c (x :: l1)); [done|].
    unfold key_le in Hxy. constructor; [lia|].
    eapply Forall_impl; [done|]. unfold key_le. simpl. lia.
Qed.

Lemma merge_stable S1 S2 o1 o2 :
  stable_sort_of sort_key S1 o1 →
  stable_sort_of sort_key S2 o2 →
  stable_sort_of sort_key (S1 ++ S2) (list_merge (key_le sort_key) o1 o2).
Proof.
  intros (Hp1 & Hs1 & Ho1) (Hp2 & Hs2 & Ho2). split_and!.
  - by rewrite merge_Permutation, Hp1, Hp2.
  - by apply Sorted_list_merge; [apply _|..].
  - intros c. rewrite list_merge_filter, filter_app, Ho1, Ho2; [done|].
    by apply Sorted_StronglySorted; [apply _|].
Qed.

Lemma merge_while_eq fuel left right out i j h :
  merge_while sort_key fuel left right out i j h =
  (let! nl := len left in
   if decide (i < nl) then
     let! nr := len right in
     if decide (j < nr) then
       match fuel with
       | O => raise OutOfFuel
       | S fuel' =>
           let! x := getitem left i in
           let! y := getitem right j in
           if decide (sort_key x ≤ sort_key y) then
             let! x := getitem left i in
             append out x ;;
             merge_while sort_key fuel' left right out (i + 1) j
           else
             let! y := getitem right j in
             append out y ;;
             merge_while sort_key fuel' left right out i (j + 1)
       end
     else ret (i, j)
   else ret (i, j)) h.
Proof. by destruct fuel. Qed.

Lemma merge_while_spec left right out fuel : ∀ L1 L2 R1 R2 O h,
  h !! left = Some (L1 ++ L2) →
  h !! right = Some (R1 ++ R2) →
  h !! out = Some O →
  out ≠ left → out ≠ right →
  (length L2 + length R2 ≤ fuel)%nat →
  ∃ La Lb Ra Rb Mid,
    L1 ++ L2 = La ++ Lb ∧ R1 ++ R2 = Ra ++ Rb ∧
    (Lb = [] ∨ Rb = []) ∧
    Mid ++ Lb ++ Rb = list_merge (key_le sort_key) L2 R2 ∧
    merge_while sort_key fuel left right out
      (Z.of_nat (length L1)) (Z.of_nat (length R1)) h =
      (Ok (Z.of_nat (length La), Z.of_nat (length Ra)), <[out := O ++ Mid]> h).
Proof.
  induction fuel as [|fuel IH]; intros L1 L2 R1 R2 O h Hl Hr Ho Hol Hor Hfuel.
  all: rewrite merge_while_eq, (bind_ok _ _ _ _ _ (len_ok _ _ _ Hl)).
  all: destruct L2 as [|x L2].
  1,3: exists L1, [], R1, R2, []; rewrite list_merge_nil_l;
       rewrite decide_False by (rewrite app_nil_r; lia);
       rewrite !app_nil_r, insert_same by done; by split_and!; [..|left|done|].
  all: rewrite decide_True by (rewrite length_app; simpl; lia).
  all: rewrite (bind_ok _ _ _ _ _ (len_ok _ _ _ Hr)).
  all: destruct R2 as [|y R2].
  1,3: exists L1, (x :: L2), R1, [], []; rewrite list_merge_nil_r;
       rewrite decide_False by (rewrite app_nil_r; lia);
       rewrite !app_nil_r, insert_same by done;
       by split_and!; [..|right|done|].
  all: rewrite decide_True by (rewrite length_app; simpl; lia).
  { simpl in Hfuel. lia. }
  assert ((L1 ++ x :: L2) !! length L1 = Some x) as Hx
    by (by rewrite list_lookup_middle).
  assert ((R1 ++ y :: R2) !! length R1 = Some y) as Hy
    by (by rewrite list_lookup_middle).
  rewrite (bind_ok _ _ _ _ _ (getitem_ok _ _ _ _ _ Hl Hx)).
  rewrite (bind_ok _ _ _ _ _ (getitem_ok _ _ _ _ _ Hr Hy)).
  rewrite list_merge_cons. unfold key_le at 1.
  destruct (decide (sort_key x ≤ sort_key y)) as [Hxy|Hxy].
  - rewrite (bind_ok _ _ _ _ _ (getitem_ok _ _ _ _ _ Hl Hx)).
    rewrite (bind_ok _ _ _ _ _ (append_ok _ _ _ _ Ho)).
    destruct (IH (L1 ++ [x]) L2 R1 (y :: R2) (O ++ [x]) (<[out := O ++ [x]]> h))
      as (La & Lb & Ra & Rb & Mid & HL & HR & Hend & Hmid & Hrun).
    { rewrite lookup_insert_other by done. by rewrite <-app_assoc. }
    { by rewrite lookup_insert_other by done. }
    { by eapply lookup_insert_same. }
    { done. } { done. } { simpl in *. lia. }
    exists La, Lb, Ra, Rb, (x :: Mid). split_and!; [|done..| |].
    + by rewrite <-HL, <-app_assoc.
    + simpl. by rewrite Hmid.
    + replace (Z.of_nat (length L1) + 1) with (Z.of_nat (length (L1 ++ [x])))
        by (rewrite length_app; simpl; lia).
      by rewrite Hrun, insert_twice, <-app_assoc.
  - rewrite (bind_ok _ _ _ _ _ (getitem_ok _ _ _ _ _ Hr Hy)).
    rewrite (bind_ok _ _ _ _ _ (append_ok _ _ _ _ Ho)).
    destruct (IH L1 (x :: L2) (R1 ++ [y]) R2 (O ++ [y]) (<[out := O ++ [y]]> h))
      as (La & Lb & Ra & Rb & Mid & HL & HR & Hend & Hmid & Hrun).
    { by rewrite lookup_insert_other by done. }
    { rewrite lookup_insert_other by done. by rewrite <-app_assoc. }
    { by eapply lookup_insert_same. }
    { done. } { done. } { simpl in *. lia. }
    exists La, Lb, Ra, Rb, (y :: Mid). split_and!; [done| |done| |].
    + by rewrite <-HR, <-app_assoc.
    + simpl. by rewrite Hmid.
    + replace (Z.of_nat (length R1) + 1) with (Z.of_nat (length (R1 ++ [y])))
        by (rewrite length_app; simpl; lia).
      by rewrite Hrun, insert_twice, <-app_assoc.
Qed.

Lemma lookup_old h junk p l : h !! p = Some l → (h ++ junk) !! p = Some l.
Proof. apply lookup_app_l_Some. Qed.

Lemma insert_old h junk p l l' :
  h !! p = Some l → <[p := l']> (h ++ junk) = <[p := l']> h ++ junk.
Proof. intros Hp. apply insert_app_l. by eapply lookup_lt_Some. Qed.

Lemma rest_spec h out src O L (k : nat) :
  h !! out = Some O → h !! src = Some L → (k ≤ length L)%nat →
  ∃ junk,
    (if decide (Z.of_nat k < Z.of_nat (length L)) then
       let! rest := slice_from src (Z.of_nat k) in extend out rest
     else ret ()) h = (Ok (), <[out := O ++ drop k L]> h ++ junk).
Proof.
  intros Ho Hs Hk. case_decide as Hlt.
  - exists [drop k L].
    rewrite (bind_ok _ _ _ _ _ (slice_from_ok _ _ _ _ Hs Hk)).
    erewrite extend_ok; [|by apply lookup_old|apply lookup_new].
    by erewrite insert_old.
  - exists []. rewrite drop_ge, !app_nil_r by lia.
    by rewrite insert_same.
Qed.

Lemma _merge_spec h left right L R :
  h !! left = Some L → h !! right = Some R →
  ∃ junk,
    _merge sort_key left right h =
      (Ok (length h), h ++ list_merge (key_le sort_key) L R :: junk).
Proof.
  intros Hl Hr. unfold _merge.
  rewrite (bind_ok _ _ _ _ _ (eq_refl : alloc [] h = (Ok (length h), h ++ [[]]))).
  pose proof (lookup_lt_Some _ _ _ Hl) as Hll.
  pose proof (lookup_lt_Some _ _ _ Hr) as Hrl.
  rewrite (bind_ok _ _ _ _ _ (len_ok _ _ _ (lookup_old _ [[]] _ _ Hl))).
  rewrite (bind_ok _ _ _ _ _ (len_ok _ _ _ (lookup_old _ [[]] _ _ Hr))).
  destruct (merge_while_spec left right (length h)
              (Z.to_nat (Z.of_nat (length L) + Z.of_nat (length R)))
              [] L [] R [] (h ++ [[]]))
    as (La & Lb & Ra & Rb & Mid & HL & HR & _ & Hmid & Hrun).
  { by apply lookup_old. } { by apply lookup_old. } { apply lookup_new. }
  { lia. } { lia. } { lia. }
  simpl in HL, HR, Hrun. subst L R.
  rewrite (bind_ok _ _ _ _ _ Hrun), insert_new. cbn beta iota.
  rewrite (bind_ok _ _ _ _ _ (len_ok _ _ _ (lookup_old _ [Mid] _ _ Hl))).
  destruct (rest_spec (h ++ [Mid]) (length h) left Mid (La ++ Lb) (length La))
    as (junk1 & Hrest1).
  { apply lookup_new. } { by apply lookup_old. } { rewrite length_app. lia. }
  rewrite (bind_ok _ _ _ _ _ Hrest1), insert_new, drop_app_length.
  rewrite (bind_ok _ _ _ _ _
    (len_ok _ _ _ (lookup_old _ junk1 _ _ (lookup_old _ [Mid ++ Lb] _ _ Hr)))).
  destruct (rest_spec ((h ++ [Mid ++ Lb]) ++ junk1) (length h) right
              (Mid ++ Lb) (Ra ++ Rb) (length Ra)) as (junk2 & Hrest2).
  { apply lookup_old, lookup_new. } { by do 2 apply lookup_old. }
  { rewrite length_app. lia. }
  rewrite (bind_ok _ _ _ _ _ Hrest2), drop_app_length.
  exists (junk1 ++ junk2). unfold ret. f_equal.
  erewrite insert_old by apply lookup_new.
  rewrite insert_new, <-Hmid, <-!app_assoc. done.
Qed.

(** *** Merge sort *)

Lemma merge_sort_rec_spec fuel : ∀ h arr S,
  h !! arr = Some S → (length S ≤ fuel)%nat →
  ∃ r junk out,
    merge_sort_rec sort_key fuel arr h = (Ok r, h ++ junk) ∧
    (length h ≤ r)%nat ∧
    (h ++ junk) !! r = Some out ∧
    stable_sort_of sort_key S out.
Proof.
  induction fuel as [|fuel IH]; intros h arr S Harr Hfuel.
  all: cbn [merge_sort_rec]; rewrite (bind_ok _ _ _ _ _ (len_ok _ _ _ Harr)).
  all: destruct (decide (Z.of_nat (length S) ≤ 1)) as [Hsmall|Hbig].
  1,3: exists (length h), [S], S;
       rewrite (list_copy_ok _ _ _ Harr), lookup_new;
       split_and!; [done..|];
       destruct S as [|x [|y S]]; [apply stable_sort_of_nil
                                  |apply stable_sort_of_single
                                  |simpl in Hsmall; lia].
  { lia. }
  set (m := (length S / 2)%nat).
  assert (Z.of_nat (length S) `div` 2 = Z.of_nat m) as ->.
  { unfold m. by rewrite Nat2Z.inj_div. }
  assert (m ≤ length S)%nat as Hm by (unfold m; apply Nat.Div0.div_le_upper_bound; lia).
  assert (1 ≤ m ∧ m < length S)%nat as [Hm1 Hm2].
  { unfold m. split.
    - apply Nat.div_le_lower_bound; lia.
    - apply Nat.div_lt; lia. }
  cbv zeta.
  rewrite (bind_ok _ _ _ _ _ (slice_to_ok _ _ _ _ Harr Hm)).
  destruct (IH (h ++ [take m S]) (length h) (take m S))
    as (r1 & junk1 & out1 & Hrun1 & Hr1 & Hout1 & Hst1).
  { apply lookup_new. } { rewrite length_take. lia. }
  rewrite (bind_ok _ _ _ _ _ Hrun1).
  set (h2 := (h ++ [take m S]) ++ junk1) in *.
  assert (h2 !! arr = Some S) as Harr2 by (by do 2 apply lookup_old).
  rewrite (bind_ok _ _ _ _ _ (slice_from_ok _ _ _ _ Harr2 Hm)).
  destruct (IH (h2 ++ [drop m S]) (length h2) (drop m S))
    as (r2 & junk2 & out2 & Hrun2 & Hr2 & Hout2 & Hst2).
  { apply lookup_new. } { rewrite length_drop. lia. }
  rewrite (bind_ok _ _ _ _ _ Hrun2).
  set (h4 := (h2 ++ [drop m S]) ++ junk2) in *.
  destruct (_merge_spec h4 r1 r2 out1 out2) as (junk3 & Hrun3).
  { by do 2 apply lookup_old. } { done. }
  rewrite Hrun3.
  exists (length h4),
    ([take m S] ++ junk1 ++ [drop m S] ++ junk2
       ++ list_merge (key_le sort_key) out1 out2 :: junk3),
    (list_merge (key_le sort_key) out1 out2).
  assert (h ++ [take m S] ++ junk1 ++ [drop m S] ++ junk2
            ++ list_merge (key_le sort_key) out1 out2 :: junk3
          = h4 ++ list_merge (key_le sort_key) out1 out2 :: junk3) as ->.
  { unfold h4, h2. by rewrite <-!app_assoc. }
  split_and!; [done| |by rewrite list_lookup_middle|].
  - unfold h4, h2. rewrite !length_app. lia.
  - rewrite <-(take_drop m S) at 1. by apply merge_stable.
Qed.

Lemma merge_sort_spec h arr S :
  h !! arr = Some S →
  ∃ r junk out,
    merge_sort sort_key arr h = (Ok r, h ++ junk) ∧
    (length h ≤ r)%nat ∧
    (h ++ junk) !! r = Some out ∧
    stable_sort_of sort_key S out.
Proof.
  intros Harr. unfold merge_sort.
  rewrite (bind_ok _ _ _ _ _ (len_ok _ _ _ Harr)).
  apply merge_sort_rec_spec; [done|lia].
Qed.

(** *** The three sorting functions, side by side *)

Lemma stable_sort_unique S o1 : ∀ o2,
  stable_sort_of sort_key S o1 → stable_sort_of sort_key S o2 → o1 = o2.
Proof.
  intros o2 (_ & Hs1 & Ho1) (_ & Hs2 & Ho2).
  assert (∀ c, filter (λ x, sort_key x = c) o1
               = filter (λ x, sort_key x = c) o2) as Hf
    by (intros c; by rewrite Ho1, Ho2).
  clear Ho1 Ho2 S.
  apply Sorted_StronglySorted in Hs1; [|apply _].
  apply Sorted_StronglySorted in Hs2; [|apply _].
  revert o2 Hs2 Hf. induction o1 as [|x o1 IH]; intros [|y o2] Hs2 Hf.
  - done.
  - specialize (Hf (sort_key y)). by rewrite filter_cons_True in Hf.
  - specialize (Hf (sort_key x)). by rewrite filter_cons_True in Hf.
  - apply StronglySorted_cons in Hs1 as [Hx Hs1].
    apply StronglySorted_cons in Hs2 as [Hy Hs2].
    assert (sort_key x = sort_key y) as Hxy.
    { pose proof (Hf (sort_key x)) as Hfx.
      pose proof (Hf (sort_key y)) as Hfy.
      rewrite (filter_cons_True _ x) in Hfx by done.
      rewrite (filter_cons_True _ y) in Hfy by done.
      assert (x ∈ y :: o2) as Hxin.
      { eapply (list_elem_of_filter (λ z, sort_key z = sort_key x)).
        rewrite <-Hfx. left. }
      assert (y ∈ x :: o1) as Hyin.
      { eapply (list_elem_of_filter (λ z, sort_key z = sort_key y)).
        rewrite Hfy. left. }
      rewrite Forall_forall in Hx, Hy. unfold key_le in Hx, Hy.
      apply elem_of_cons in Hxin as [->|Hxin]; [done|].
      apply elem_of_cons in Hyin as [->|Hyin]; [done|].
      specialize (Hx _ Hyin). specialize (Hy _ Hxin). lia. }
    pose proof (Hf (sort_key x)) as Hhead.
    rewrite (filter_cons_True _ x), (filter_cons_True _ y) in Hhead by done.
    injection Hhead as -> Htail.
    f_equal. apply IH; [done..|]. intros c.
    destruct (decide (sort_key y = c)) as [<-|Hc]; [done|].
    specialize (Hf c). by rewrite !filter_cons_False in Hf.
Qed.

Lemma insertion_sort_grows h arr S :
  h !! arr = Some S →
  ∃ out, grows_into (insertion_sort sort_key) h arr out ∧
         stable_sort_of sort_key S out.
Proof.
  intros Harr. destruct (insertion_sort_spec h arr S Harr) as (out & Hrun & Hst).
  exists out. split; [|done]. exists (length h), [out].
  by rewrite lookup_new.
Qed.

Lemma merge_sort_grows h arr S :
  h !! arr = Some S →
  ∃ out, grows_into (merge_sort sort_key) h arr out ∧
         stable_sort_of sort_key S out.
Proof.
  intros Harr.
  destruct (merge_sort_spec h arr S Harr) as (r & junk & out & ? & ? & ? & ?).
  exists out. split; [|done]. by exists r, junk.
Qed.

Lemma timsort_sorted_grows (listsort : list A → list A) h arr S :
  h !! arr = Some S →
  grows_into (timsort_sorted listsort) h arr (listsort S).
Proof.
  intros Harr. exists (length h), [listsort S].
  unfold timsort_sorted, sorted.
  rewrite (bind_ok _ _ _ _ _ (deref_ok _ _ _ Harr)).
  by rewrite lookup_new.
Qed.

Lemma grows_into_new f h arr S out :
  h !! arr = Some S → grows_into f h arr out → returns_new f h arr S.
Proof.
  intros Harr (r & junk & Hrun & Hr & Hout).
  pose proof (lookup_lt_Some _ _ _ Harr).
  exists r, (h ++ junk). split_and!; [done|lia| |by eexists| |].
  - apply lookup_ge_None. lia.
  - by apply lookup_old.
  - intros p l. apply lookup_old.
Qed.

(** A function all of whose calls sort stably has one output per input. *)
Lemma stable_returns f S :
  (∀ h arr, h !! arr = Some S →
     ∃ out, grows_into f h arr out ∧ stable_sort_of sort_key S out) →
  ∃ out, returns f S out ∧ stable_sort_of sort_key S out.
Proof.
  intros Hf.
  destruct (Hf [S] 0%nat eq_refl) as (out & _ & Hst).
  exists out. split; [|done]. intros h arr Harr.
  destruct (Hf h arr Harr) as (out' & (r & junk & Hrun & _ & Hout) & Hst').
  rewrite (stable_sort_unique S out out') by done.
  by exists r, (h ++ junk).
Qed.

Lemma insertion_sort_returns S :
  ∃ out, returns (insertion_sort sort_key) S out ∧
         stable_sort_of sort_key S out.
Proof. apply stable_returns. intros h arr. apply insertion_sort_grows. Qed.

Lemma merge_sort_returns S :
  ∃ out, returns (merge_sort sort_key) S out ∧
         stable_sort_of sort_key S out.
Proof. apply stable_returns. intros h arr. apply merge_sort_grows. Qed.

Lemma timsort_sorted_returns (listsort : list A → list A) S :
  returns (timsort_sorted listsort) S (listsort S).
Proof.
  intros h arr Harr.
  destruct (timsort_sorted_grows listsort h arr S Harr) as (r & junk & ? & _ & ?).
  by exists r, (h ++ junk).
Qed.

End StoreFacts.





(** ** The sorting functions: what the specification promises *)

Section SortClaims.

Lemma stable_sort_of_self {A} (sort_key : A → Z) (l : list A) :
  Sorted (key_le sort_key) l → stable_sort_of sort_key l l.
Proof. by intros Hl; split_and!. Qed.

Lemma sorted_Z_unique (S o1 o2 : list Z) :
  o1 ≡ₚ S → Sorted Z.le o1 → o2 ≡ₚ S → Sorted Z.le o2 → o1 = o2.
Proof.
  intros Hp1 Hs1 Hp2 Hs2.
  apply (Sorted_unique Z.le); [done..|]. by rewrite Hp1, Hp2.
Qed.

(** The worked examples of the specification. *)
Example insertion_sort_example :
  in_store (insertion_sort id) [5; 3; 1; 4; 2] = Ok [1; 2; 3; 4; 5].
Proof. reflexivity. Qed.

Example merge_sort_example :
  in_store (merge_sort id) [5; 3; 1; 4; 2] = Ok [1; 2; 3; 4; 5].
Proof. reflexivity. Qed.

Example sort_empty_example :
  in_store (insertion_sort id) [] = Ok [] ∧ in_store (merge_sort id) [] = Ok [].
Proof. by split. Qed.

Example sort_all_equal_example :
  in_store (insertion_sort id) [7; 7; 7] = Ok [7; 7; 7] ∧
  in_store (merge_sort id) [7; 7; 7] = Ok [7; 7; 7].
Proof. by split. Qed.

(** Equal keys tagged with their position keep their order. *)
Example merge_sort_tagged_example :
  in_store (merge_sort fst) [(2, 0%nat); (1, 1%nat); (2, 2%nat); (1, 3%nat)]
  = Ok [(1, 1%nat); (1, 3%nat); (2, 0%nat); (2, 2%nat)].
Proof. reflexivity. Qed.

(** C1: for every list [S] of integers, [insertion_sort(S)] and
    [merge_sort(S)] each return a list that is a permutation of [S] and
    is sorted in non-decreasing order. *)
Theorem insertion_and_merge_sort_correct (S : list Z) :
  (∃ out, returns (insertion_sort id) S out ∧ out ≡ₚ S ∧ Sorted Z.le out) ∧
  (∃ out, returns (merge_sort id) S out ∧ out ≡ₚ S ∧ Sorted Z.le out).
Proof.
  split.
  - destruct (insertion_sort_returns id S) as (out & Hret & Hperm & Hsort & _).
    by exists out.
  - destruct (merge_sort_returns id S) as (out & Hret & Hperm & Hsort & _).
    by exists out.
Qed.

(** C2: [insertion_sort] and [merge_sort] are stable: the elements of
    one sort key keep the order they have in the input; and in the merge
    of two sorted halves, the elements of the left half come before the
    elements of the right half that have the same key. *)
Theorem sorts_stable {A} (sort_key : A → Z) (S L R : list A)
    (h : heap A) (left right : loc) :
  Sorted (key_le sort_key) L →
  Sorted (key_le sort_key) R →
  h !! left = Some L →
  h !! right = Some R →
  (∃ out, returns (insertion_sort sort_key) S out ∧
          same_order sort_key S out) ∧
  (∃ out, returns (merge_sort sort_key) S out ∧
          same_order sort_key S out) ∧
  (∃ r h' out,
     _merge sort_key left right h = (Ok r, h') ∧ h' !! r = Some out ∧
     ∀ c, filter (λ x, sort_key x = c) out =
          filter (λ x, sort_key x = c) L ++ filter (λ x, sort_key x = c) R).
Proof.
  intros HL HR Hl Hr. split_and!.
  - destruct (insertion_sort_returns sort_key S) as (out & Hret & _ & _ & Hord).
    by exists out.
  - destruct (merge_sort_returns sort_key S) as (out & Hret & _ & _ & Hord).
    by exists out.
  - destruct (_merge_spec sort_key h left right L R Hl Hr) as (junk & Hrun).
    exists (length h), (h ++ list_merge (key_le sort_key) L R :: junk),
      (list_merge (key_le sort_key) L R).
    split_and!; [exact Hrun|by apply list_lookup_middle|].
    intros c. apply list_merge_filter.
    by apply Sorted_StronglySorted; [apply key_le_trans|].
Qed.

(** Elements tagged with their position in the input, compared by their
    first component. *)
Lemma sorts_stable_witness :
  let L := [(1, 0%nat); (2, 1%nat)] in
  let R := [(1, 2%nat); (2, 3%nat)] in
  Sorted (key_le fst) L ∧ Sorted (key_le fst) R ∧
  (∃ out, returns (insertion_sort fst) [(2, 0%nat); (1, 1%nat); (2, 2%nat)] out
          ∧ same_order fst [(2, 0%nat); (1, 1%nat); (2, 2%nat)] out) ∧
  (∃ r h' out,
     _merge fst 0%nat 1%nat [L; R] = (Ok r, h') ∧ h' !! r = Some out ∧
     ∀ c, filter (λ x, x.1 = c) out =
          filter (λ x, x.1 = c) L ++ filter (λ x, x.1 = c) R).
Proof.
  intros L R.
  assert (Sorted (key_le (A:=Z * nat) fst) L) as HL.
  { repeat constructor; unfold key_le; simpl; lia. }
  assert (Sorted (key_le (A:=Z * nat) fst) R) as HR.
  { repeat constructor; unfold key_le; simpl; lia. }
  split; [exact HL|]. split; [exact HR|].
  pose proof (sorts_stable fst [(2, 0%nat); (1, 1%nat); (2, 2%nat)] L R
                [L; R] 0%nat 1%nat HL HR eq_refl eq_refl) as (Hi & _ & Hm).
  split; [exact Hi|exact Hm].
Defined.

(** C3: each sorting function returns a new list object and leaves the
    caller's list as it was: the same elements at the same positions. *)
Theorem sorts_leave_input {A} (sort_key : A → Z) (listsort : list A → list A)
    (S : list A) (h : heap A) (arr : loc) :
  h !! arr = Some S →
  returns_new (insertion_sort sort_key) h arr S ∧
  returns_new (merge_sort sort_key) h arr S ∧
  returns_new (timsort_sorted listsort) h arr S.
Proof.
  intros Harr. split_and!.
  - destruct (insertion_sort_grows sort_key h arr S Harr) as (out & Hg & _).
    by eapply grows_into_new.
  - destruct (merge_sort_grows sort_key h arr S Harr) as (out & Hg & _).
    by eapply grows_into_new.
  - eapply grows_into_new; [done|]. by apply timsort_sorted_grows.
Qed.

Lemma sorts_leave_input_witness :
  ([[3; 1; 2]] : heap Z) !! 0%nat = Some [3; 1; 2] ∧
  returns_new (insertion_sort id) [[3; 1; 2]] 0%nat [3; 1; 2] ∧
  returns_new (merge_sort id) [[3; 1; 2]] 0%nat [3; 1; 2] ∧
  returns_new (timsort_sorted (stdpp.sorting.merge_sort Z.le))
    [[3; 1; 2]] 0%nat [3; 1; 2].
Proof.
  split; [reflexivity|].
  apply (sorts_leave_input id (stdpp.sorting.merge_sort Z.le)
           [3; 1; 2] [[3; 1; 2]] 0%nat).
  reflexivity.
Defined.

(** C9: each of the three sorting functions is idempotent: sorting the
    list it returned returns an equal list.  The built-in [sorted] is
    taken with its contract: it returns a sorted permutation. *)
Theorem sorts_idempotent (listsort : list Z → list Z) (S : list Z) :
  (∀ l, listsort l ≡ₚ l) →
  (∀ l, Sorted Z.le (listsort l)) →
  (∃ out, returns (insertion_sort id) S out ∧
          returns (insertion_sort id) out out) ∧
  (∃ out, returns (merge_sort id) S out ∧
          returns (merge_sort id) out out) ∧
  (∃ out, returns (timsort_sorted listsort) S out ∧
          returns (timsort_sorted listsort) out out).
Proof.
  intros Hperm Hsorted. split_and!.
  - destruct (insertion_sort_returns id S) as (out & Hret & _ & Hsort & _).
    destruct (insertion_sort_returns id out) as (out' & Hret' & Hst').
    exists out. split; [done|].
    by rewrite (stable_sort_unique id out out out'
                  (stable_sort_of_self id out Hsort) Hst') at 2.
  - destruct (merge_sort_returns id S) as (out & Hret & _ & Hsort & _).
    destruct (merge_sort_returns id out) as (out' & Hret' & Hst').
    exists out. split; [done|].
    by rewrite (stable_sort_unique id out out out'
                  (stable_sort_of_self id out Hsort) Hst') at 2.
  - exists (listsort S). split; [apply timsort_sorted_returns|].
    rewrite <-(sorted_Z_unique (listsort S) (listsort (listsort S)) (listsort S))
      at 2 by done.
    apply timsort_sorted_returns.
Qed.

Lemma sorts_idempotent_witness :
  let listsort := stdpp.sorting.merge_sort Z.le in
  (∀ l, listsort l ≡ₚ l) ∧
  (∀ l, Sorted Z.le (listsort l)) ∧
  (∃ out, returns (insertion_sort id) [5; 3; 1; 4; 2] out ∧
          returns (insertion_sort id) out out) ∧
  (∃ out, returns (merge_sort id) [5; 3; 1; 4; 2] out ∧
          returns (merge_sort id) out out) ∧
  (∃ out, returns (timsort_sorted listsort) [5; 3; 1; 4; 2] out ∧
          returns (timsort_sorted listsort) out out).
Proof.
  intros listsort.
  assert (∀ l, listsort l ≡ₚ l) as Hperm
    by (intros l; apply merge_sort_Permutation).
  assert (∀ l, Sorted Z.le (listsort l)) as Hsorted
    by (intros l; apply (Sorted_merge_sort Z.le)).
  split; [exact Hperm|]. split; [exact Hsorted|].
  exact (sorts_idempotent listsort [5; 3; 1; 4; 2] Hperm Hsorted).
Defined.

(** C10: on every list of integers the three sorting functions return
    the same list.  The built-in [sorted] is taken with its contract: it
    returns a sorted permutation. *)
Theorem sorts_agree (listsort : list Z → list Z) (S : list Z) :
  (∀ l, listsort l ≡ₚ l) →
  (∀ l, Sorted Z.le (listsort l)) →
  ∃ out,
    returns (insertion_sort id) S out ∧
    returns (merge_sort id) S out ∧
    returns (timsort_sorted listsort) S out.
Proof.
  intros Hperm Hsorted.
  destruct (insertion_sort_returns id S) as (out & Hret & Hst).
  destruct (merge_sort_returns id S) as (out' & Hret' & Hst').
  exists out. split_and!; [done| |].
  - by rewrite (stable_sort_unique id S out out').
  - destruct Hst as (Hp & Hs & _).
    rewrite (sorted_Z_unique S out (listsort S)) by done.
    apply timsort_sorted_returns.
Qed.

Lemma sorts_agree_witness :
  let listsort := stdpp.sorting.merge_sort Z.le in
  (∀ l, listsort l ≡ₚ l) ∧
  (∀ l, Sorted Z.le (listsort l)) ∧
  ∃ out,
    returns (insertion_sort id) [5; 3; 1; 4; 2] out ∧
    returns (merge_sort id) [5; 3; 1; 4; 2] out ∧
    returns (timsort_sorted listsort) [5; 3; 1; 4; 2] out.
Proof.
  intros listsort.
  assert (∀ l, listsort l ≡ₚ l) as Hperm
    by (intros l; apply merge_sort_Permutation).
  assert (∀ l, Sorted Z.le (listsort l)) as Hsorted
    by (intros l; apply (Sorted_merge_sort Z.le)).
  split; [exact Hperm|]. split; [exact Hsorted|].
  exact (sorts_agree listsort [5; 3; 1; 4; 2] Hperm Hsorted).
Defined.

End SortClaims.

(** ** Facts about the generators, the timer and the driver *)

Section WorldFacts.
Context `{RT : Runtime}.
Implicit Types (w : world).

Lemma bind_inv_ok {S B C} (m : M S B) (k : B → M S C) s c s' :
  bind m k s = (Ok c, s') →
  ∃ b s1, m s = (Ok b, s1) ∧ k b s1 = (Ok c, s').
Proof.
  unfold bind. destruct (m s) as [[b|e] s1]; [|done].
  intros Hk. by exists b, s1.
Qed.

Lemma randrange_empty n w : n ≤ 0 → randrange n w = (Raise ValueError, w).
Proof. intros Hn. unfold randrange. by rewrite decide_False by lia. Qed.

(** C4, at the input where the code departs from it: for [n = 0] the
    generator [nearly_sorted] still makes one swap, and drawing an index
    below zero raises ValueError. *)
Theorem make_nearly_sorted_empty (swaps_ratio : pyfloat) (w : world) :
  make_nearly_sorted 0 swaps_ratio w = (Raise ValueError, w).
Proof.
  unfold make_nearly_sorted, py_range.
  rewrite (seqZ_cons 0 (Z.max 1 _ - 0)) by lia. cbn [for_fold].
  apply bind_raise, bind_raise, randrange_empty. lia.
Qed.

(** *** Reading the size list *)

Lemma parse_sizes_non_numeric (xs : list string) w :
  Exists (λ x, str_strip x ≠ EmptyString ∧ py_int x = None) xs →
  parse_sizes xs w = (Raise ValueError, w).
Proof.
  induction xs as [|x xs IH]; intros Hex; [by apply Exists_nil in Hex|].
  cbn [parse_sizes]. case_decide as Hblank.
  - apply IH. apply Exists_cons in Hex as [[? _]|?]; done.
  - destruct (py_int x) as [n|] eqn:Hx; [|done].
    apply Exists_cons in Hex as [[_ ?]|Hex]; [congruence|].
    by rewrite (bind_raise _ _ _ _ _ (IH Hex)).
Qed.

(** *** The sorting functions as the harness calls them *)

Lemma algo_fun_grows (a : algo) (h : heap Z) arr d :
  h !! arr = Some d → ∃ out, grows_into (algo_fun a) h arr out.
Proof.
  intros Harr. destruct a; simpl.
  - destruct (insertion_sort_grows id h arr d Harr) as (out & ? & _). by exists out.
  - destruct (merge_sort_grows id h arr d Harr) as (out & ? & _). by exists out.
  - exists (listsort d). by apply timsort_sorted_grows.
Qed.

Lemma call_algo_ok a d w :
  ∃ out, call_algo a d w = (Ok out, log_call a d w).
Proof.
  destruct (algo_fun_grows a [d] 0%nat d eq_refl)
    as (out & r & junk & Hrun & _ & Hout).
  exists out. unfold call_algo, in_store. by rewrite Hrun, Hout.
Qed.

Lemma call_algo_on_copy_ok a d w :
  ∃ out, call_algo_on_copy a d w = (Ok out, log_call a d w).
Proof.
  destruct (algo_fun_grows a [d; d] 1%nat d eq_refl)
    as (out & r & junk & Hrun & _ & Hout).
  exists out. unfold call_algo_on_copy, in_store.
  rewrite (bind_ok _ _ _ _ _
    (list_copy_ok [d] 0%nat d eq_refl : list_copy 0%nat [d] = (Ok 1%nat, [d; d]))).
  by rewrite Hrun, Hout.
Qed.

(** *** The timer *)

Lemma for_each_stmt (xs : list Z) (stmt : M world unit) w :
  (∀ w0, ∃ w1, stmt w0 = (Ok (), w1)) →
  for_each xs (λ _, stmt) w = (Ok (), run_times (length xs) stmt w).
Proof.
  intros Hok. revert w. induction xs as [|x xs IH]; intros w; [done|].
  cbn [for_each length run_times].
  destruct (Hok w) as (w1 & Hw1). rewrite (bind_ok _ _ _ _ _ Hw1), Hw1.
  apply IH.
Qed.

Lemma timeit_spec (stmt : M world unit) (number : Z) w :
  (∀ w0, ∃ w1, stmt w0 = (Ok (), w1)) →
  timeit stmt number w =
    (Ok (batch_time (Z.to_nat number) stmt w).1,
     (batch_time (Z.to_nat number) stmt w).2).
Proof.
  intros Hok. unfold timeit, batch_time.
  rewrite (bind_ok _ _ _ _ _
    (eq_refl : perf_counter w = (Ok (clock w (ticks w)), tick w))).
  rewrite (bind_ok _ _ _ _ _ (for_each_stmt _ stmt (tick w) Hok)).
  unfold py_range. rewrite length_seqZ, Z.sub_0_r. done.
Qed.

Lemma list_comp_timeit (xs : list Z) (stmt : M world unit) (number : Z) w :
  (∀ w0, ∃ w1, stmt w0 = (Ok (), w1)) →
  list_comp xs (λ _, timeit stmt number) w =
    (Ok (batch_times (length xs) (Z.to_nat number) stmt w).1,
     (batch_times (length xs) (Z.to_nat number) stmt w).2).
Proof.
  intros Hok. revert w. induction xs as [|x xs IH]; intros w; [done|].
  cbn [list_comp length batch_times].
  rewrite (bind_ok _ _ _ _ _ (timeit_spec stmt number w Hok)).
  destruct (batch_time (Z.to_nat number) stmt w) as [t w1]. cbn [fst snd].
  rewrite (bind_ok _ _ _ _ _ (IH w1)).
  by destruct (batch_times (length xs) (Z.to_nat number) stmt w1).
Qed.

Lemma batch_times_length repeat number (stmt : M world unit) w :
  length (batch_times repeat number stmt w).1 = repeat.
Proof.
  revert w. induction repeat as [|r IH]; intros w; [done|].
  cbn [batch_times]. destruct (batch_time number stmt w) as [t w1].
  specialize (IH w1). destruct (batch_times r number stmt w1).
  simpl in *. by rewrite IH.
Qed.

Lemma thunk_stmt_ok (func : list Z → M world (list Z)) data :
  (∀ w0, ∃ out w1, func data w0 = (Ok out, w1)) →
  ∀ w0, ∃ w1, (func data ;; ret ()) w0 = (Ok (), w1).
Proof.
  intros Hok w0. destruct (Hok w0) as (out & w1 & Hrun).
  exists w1. by rewrite (bind_ok _ _ _ _ _ Hrun).
Qed.

Lemma bench_one_batches (func : list Z → M world (list Z))
    (data : list Z) (repeat number : Z) w :
  0 < repeat →
  0 < number →
  (∀ w0, ∃ out w1, func data w0 = (Ok out, w1)) →
  bench_one func data repeat number w =
    (Ok (fdiv_int (fdiv_int
           (fsum (batch_times (Z.to_nat repeat) (Z.to_nat number)
                    (func data ;; ret ()) w).1) repeat) number),
     (batch_times (Z.to_nat repeat) (Z.to_nat number)
        (func data ;; ret ()) w).2).
Proof.
  intros Hrep Hnum Hok.
  pose proof (batch_times_length (Z.to_nat repeat) (Z.to_nat number)
                (func data ;; ret ()) w) as Hlen.
  pose proof (list_comp_timeit (py_range 0 repeat) (func data ;; ret ())
                number w (thunk_stmt_ok func data Hok)) as Hrun.
  unfold py_range in Hrun. rewrite length_seqZ, Z.sub_0_r in Hrun.
  unfold bench_one, timer_repeat, py_range.
  rewrite Z.sub_0_r, (bind_ok _ _ _ _ _ Hrun), Hlen.
  unfold py_div. rewrite Z2Nat.id by lia.
  rewrite decide_False by lia. cbn [bind ret].
  by rewrite decide_False by lia.
Qed.

(** *** What a run leaves untouched *)

Lemma steps_ret (T : world → world → Prop) `{!Reflexive T} {B} (b : B) :
  steps T (ret b).
Proof. intros w. simpl. reflexivity. Qed.

Lemma steps_raise (T : world → world → Prop) `{!Reflexive T} {B} (e : exn) :
  steps T (raise (A:=B) e).
Proof. intros w. simpl. reflexivity. Qed.

Lemma steps_bind (T : world → world → Prop) `{!Transitive T} {B C}
    (m : M world B) (k : B → M world C) :
  steps T m → (∀ b, steps T (k b)) → steps T (bind m k).
Proof.
  intros Hm Hk w. unfold bind. specialize (Hm w).
  destruct (m w) as [[b|e] w1]; simpl in *; [|done].
  etransitivity; [exact Hm|apply Hk].
Qed.

Lemma steps_for_each (T : world → world → Prop) `{!PreOrder T} {B}
    (xs : list B) (body : B → M world unit) :
  (∀ x, steps T (body x)) → steps T (for_each xs body).
Proof.
  intros Hbody. induction xs as [|x xs IH]; simpl.
  - apply steps_ret; apply _.
  - apply steps_bind; [apply _|apply Hbody|done].
Qed.

Lemma steps_for_fold (T : world → world → Prop) `{!PreOrder T} {B C}
    (xs : list B) (body : B → C → M world C) : ∀ acc,
  (∀ x c, steps T (body x c)) → steps T (for_fold xs acc body).
Proof.
  induction xs as [|x xs IH]; intros acc Hbody; simpl.
  - apply steps_ret; apply _.
  - apply steps_bind; [apply _|apply Hbody|]. intros c. by apply IH.
Qed.

Lemma steps_list_comp (T : world → world → Prop) `{!PreOrder T} {B C}
    (xs : list B) (f : B → M world C) :
  (∀ x, steps T (f x)) → steps T (list_comp xs f).
Proof.
  intros Hf. induction xs as [|x xs IH]; simpl.
  - apply steps_ret; apply _.
  - apply steps_bind; [apply _|apply Hf|]. intros y.
    apply steps_bind; [apply _|done|]. intros ys. apply steps_ret; apply _.
Qed.

#[local] Instance rng_step_preorder : PreOrder rng_step.
Proof.
  split.
  - by intros w.
  - intros w1 w2 w3 (? & ? & ? & ?) (? & ? & ? & ?).
    unfold rng_step. split_and!; congruence.
Qed.

#[local] Instance timing_step_preorder P : PreOrder (timing_step P).
Proof.
  split.
  - intros w. split_and!; [done..|]. exists []. by rewrite app_nil_r.
  - intros w1 w2 w3 (? & ? & n1 & Hn1 & ?) (? & ? & n2 & Hn2 & ?).
    split_and!; [congruence..|]. exists (n1 ++ n2). split.
    + by rewrite Hn2, Hn1, app_assoc.
    + by apply Forall_app.
Qed.

Lemma steps_draw n : steps rng_step (draw n).
Proof. intros w. unfold draw. by destruct (randbelow n (rng w)). Qed.

Lemma steps_randrange n : steps rng_step (randrange n).
Proof.
  unfold randrange. case_decide; [apply steps_draw|apply steps_raise; apply _].
Qed.

Lemma steps_randint a b : steps rng_step (randint a b).
Proof.
  unfold randint, randrange2. case_decide; [|apply steps_raise; apply _].
  apply steps_bind; [apply _|apply steps_draw|].
  intros x. apply steps_ret; apply _.
Qed.

Lemma steps_item (T : world → world → Prop) `{!Reflexive T} l i :
  steps T (item l i).
Proof.
  unfold item. destruct (index_of (length l) i) as [k|];
    [destruct (l !! k)|]; by (apply steps_ret || apply steps_raise).
Qed.

Lemma steps_set_item (T : world → world → Prop) `{!Reflexive T} l i v :
  steps T (set_item l i v).
Proof.
  unfold set_item. destruct (index_of (length l) i);
    by (apply steps_ret || apply steps_raise).
Qed.

Lemma steps_datasets name gen n :
  (name, gen) ∈ DATASETS → steps rng_step (gen n).
Proof.
  unfold DATASETS. intros Hin.
  repeat (apply elem_of_cons in Hin as [Hin|Hin]; [injection Hin as -> ->|]).
  - apply steps_list_comp; [apply _|]. intros _. apply steps_randint.
  - apply steps_ret; apply _.
  - apply steps_ret; apply _.
  - apply steps_for_fold; [apply _|]. intros _ a.
    repeat (apply steps_bind; [apply _| |intros ?]);
      first [apply steps_randrange|apply steps_item|apply steps_set_item];
      apply _.
  - apply steps_list_comp; [apply _|]. intros _. apply steps_randrange.
  - by apply elem_of_nil in Hin.
Qed.

Lemma steps_perf_counter P : steps (timing_step P) perf_counter.
Proof. intros w. simpl. split_and!; [done..|]. exists []. by rewrite app_nil_r. Qed.

Lemma steps_py_div P x d : steps (timing_step P) (py_div x d).
Proof.
  unfold py_div. case_decide; [apply steps_raise|apply steps_ret]; apply _.
Qed.

Lemma steps_call_algo_on_copy (P : algo → Prop) a d :
  P a → steps (timing_step P) (call_algo_on_copy a d).
Proof.
  intros Ha w. unfold call_algo_on_copy.
  assert (timing_step P w (log_call a d w)) as Hstep.
  { split_and!; [done..|]. exists [(a, d)]. split; [done|]. by repeat constructor. }
  by destruct (in_store _ d).
Qed.

Lemma steps_bench_one (P : algo → Prop) func data repeat number :
  steps (timing_step P) (func data) →
  steps (timing_step P) (bench_one func data repeat number).
Proof.
  intros Hfunc. unfold bench_one, timer_repeat, timeit.
  apply steps_bind; [apply _| |intros runs].
  - apply steps_list_comp; [apply _|]. intros _.
    apply steps_bind; [apply _|apply steps_perf_counter|intros t0].
    apply steps_bind; [apply _| |intros _].
    + apply steps_for_each; [apply _|]. intros _.
      apply steps_bind; [apply _|done|]. intros _. apply steps_ret; apply _.
    + apply steps_bind; [apply _|apply steps_perf_counter|intros t1].
      apply steps_ret; apply _.
  - apply steps_bind; [apply _|apply steps_py_div|intros mean].
    apply steps_py_div.
Qed.

(** *** One row of the table *)

Lemma ret_inv {S B} (b b' : B) (s s' : S) :
  ret b s = (Ok b', s') → b = b' ∧ s = s'.
Proof. unfold ret. by intros [= -> ->]. Qed.

Lemma time_algos_above n data repeat number ceiling w times_ms w' :
  n > ceiling →
  time_algos n data repeat number ceiling w = (Ok times_ms, w') →
  times_ms !! "Insertion" = Some None ∧
  (∃ t, times_ms !! "Merge" = Some (Some t)) ∧
  (∃ t, times_ms !! "Timsort(sorted)" = Some (Some t)).
Proof.
  intros Hn. unfold time_algos, algos. cbn [for_fold]. cbn beta iota.
  rewrite decide_True by (split; [done|lia]).
  intros Hrun.
  apply bind_inv_ok in Hrun as (acc0 & w0 & [<- <-]%ret_inv & Hrun).
  apply bind_inv_ok in Hrun as (acc1 & w1 & Hmer & Hrun).
  rewrite decide_False in Hmer by (by intros [? _]).
  apply bind_inv_ok in Hmer as (t1 & w1' & _ & [<- <-]%ret_inv).
  apply bind_inv_ok in Hrun as (acc2 & w2 & Htim & [<- <-]%ret_inv).
  rewrite decide_False in Htim by (by intros [? _]).
  apply bind_inv_ok in Htim as (t2 & w2' & _ & [<- <-]%ret_inv).
  split_and!; [done|by eexists..].
Qed.

Lemma time_algos_below n data repeat number ceiling w times_ms w' :
  n ≤ ceiling →
  time_algos n data repeat number ceiling w = (Ok times_ms, w') →
  ∃ t w2,
    bench_one (call_algo_on_copy Insertion) data repeat number w = (Ok t, w2) ∧
    times_ms !! "Insertion" = Some (Some (to_ms t)) ∧
    (∃ t, times_ms !! "Merge" = Some (Some t)) ∧
    (∃ t, times_ms !! "Timsort(sorted)" = Some (Some t)) ∧
    timing_step (λ _, True) w2 w'.
Proof.
  intros Hn. unfold time_algos, algos. cbn [for_fold]. cbn beta iota.
  rewrite (decide_False (P := "Insertion" = "Insertion" ∧ _))
    by (intros [_ ?]; lia).
  intros Hrun.
  apply bind_inv_ok in Hrun as (acc0 & w0 & Hins & Hrun).
  apply bind_inv_ok in Hins as (t0 & w0' & Hins & [<- <-]%ret_inv).
  apply bind_inv_ok in Hrun as (acc1 & w1 & Hmer & Hrun).
  rewrite decide_False in Hmer by (by intros [? _]).
  apply bind_inv_ok in Hmer as (t1 & w1' & Hmer & [<- <-]%ret_inv).
  apply bind_inv_ok in Hrun as (acc2 & w2 & Htim & [<- <-]%ret_inv).
  rewrite decide_False in Htim by (by intros [? _]).
  apply bind_inv_ok in Htim as (t2 & w2' & Htim & [<- <-]%ret_inv).
  exists t0, w0'. split_and!; [done|done|by eexists..|].
  pose proof (steps_bench_one (λ _, True) (call_algo_on_copy Merge) data
    repeat number (steps_call_algo_on_copy _ Merge data I) w0') as Hs1.
  pose proof (steps_bench_one (λ _, True) (call_algo_on_copy Timsort) data
    repeat number (steps_call_algo_on_copy _ Timsort data I) w1') as Hs2.
  rewrite Hmer in Hs1. rewrite Htim in Hs2. simpl in Hs1, Hs2.
  by etransitivity.
Qed.


Lemma steps_time_algos n data repeat number ceiling :
  steps (timing_step (λ _, True)) (time_algos n data repeat number ceiling).
Proof.
  unfold time_algos. apply steps_for_fold; [apply _|].
  intros [algo_name a] acc. case_decide; [apply steps_ret; apply _|].
  apply steps_bind; [apply _| |intros ?; apply steps_ret; apply _].
  by apply steps_bench_one, steps_call_algo_on_copy.
Qed.

Lemma cell_inv (times_ms : gmap string (option pyfloat)) k w s w' :
  cell times_ms k w = (Ok s, w') → w' = w.
Proof.
  unfold cell. destruct (times_ms !! k) as [[t|]|]; [|done..].
  by intros [_ <-]%ret_inv.
Qed.

Lemma cell_or_marker_inv (times_ms : gmap string (option pyfloat)) k w s w' :
  cell_or_marker times_ms k w = (Ok s, w') →
  w' = w ∧
  match times_ms !! k with
  | Some (Some t) => s = fmt2 t
  | _ => s = not_measured
  end.
Proof.
  unfold cell_or_marker. destruct (times_ms !! k) as [[t|]|]; [| |done].
  - by intros [<- <-]%ret_inv.
  - by intros [<- <-]%ret_inv.
Qed.

(** The calls that [k] runs of the thunk of [run_bench] put on record. *)
Lemma run_times_calls a d k : ∀ w,
  calls (run_times k (call_algo_on_copy a d ;; ret ()) w)
  = calls w ++ replicate k (a, d).
Proof.
  induction k as [|k IH]; intros w; simpl run_times.
  - by rewrite app_nil_r.
  - destruct (call_algo_on_copy_ok a d w) as (out & Hrun).
    rewrite (bind_ok _ _ _ _ _ Hrun). simpl. rewrite IH. simpl.
    by rewrite <-app_assoc.
Qed.

Lemma batch_times_calls a d number repeat : ∀ w,
  calls (batch_times repeat number (call_algo_on_copy a d ;; ret ()) w).2
  = calls w ++ replicate (repeat * number) (a, d).
Proof.
  induction repeat as [|r IH]; intros w; simpl batch_times.
  - by rewrite app_nil_r.
  - specialize (IH (tick (run_times number
        (call_algo_on_copy a d ;; ret ()) (tick w)))).
    destruct (batch_times r number _ _) as [ts w2]. simpl in *.
    rewrite IH, run_times_calls. simpl.
    by rewrite <-app_assoc, <-replicate_add.
Qed.

(** *** Two runs side by side *)

Lemma agree_ret {B} (R : B → B → Prop) b1 b2 :
  R b1 b2 → agree R (ret b1) (ret b2).
Proof. by intros HR w1 w2 Hs. Qed.

Lemma agree_raise {B} (R : B → B → Prop) e :
  agree R (raise e) (raise e).
Proof. by intros w1 w2 Hs. Qed.

Lemma agree_bind {B C} (R : B → B → Prop) (R' : C → C → Prop)
    (m1 m2 : M world B) (k1 k2 : B → M world C) :
  agree R m1 m2 →
  (∀ b1 b2, R b1 b2 → agree R' (k1 b1) (k2 b2)) →
  agree R' (bind m1 k1) (bind m2 k2).
Proof.
  intros Hm Hk w1 w2 Hs. unfold bind. specialize (Hm w1 w2 Hs).
  destruct (m1 w1) as [[b1|e1] w1'], (m2 w2) as [[b2|e2] w2'];
    simpl in Hm; try done.
  destruct Hm as [HR Hs']. by apply Hk.
Qed.

Lemma agree_weaken {B} (R R' : B → B → Prop) (m1 m2 : M world B) :
  (∀ b1 b2, R b1 b2 → R' b1 b2) → agree R m1 m2 → agree R' m1 m2.
Proof.
  intros HR Hm w1 w2 Hs. specialize (Hm w1 w2 Hs).
  destruct (m1 w1) as [[b1|e1] w1'], (m2 w2) as [[b2|e2] w2'];
    simpl in *; try done.
  destruct Hm. auto.
Qed.

Lemma agree_for_each {B} (xs : list B) (body1 body2 : B → M world unit) :
  (∀ x, agree any (body1 x) (body2 x)) →
  agree any (for_each xs body1) (for_each xs body2).
Proof.
  intros Hbody. induction xs as [|x xs IH]; simpl.
  - by apply agree_ret.
  - eapply agree_bind; [apply Hbody|]. intros _ _ _. apply IH.
Qed.

Lemma agree_for_fold {B C} (R : C → C → Prop) (xs : list B)
    (body1 body2 : B → C → M world C) : ∀ c1 c2,
  R c1 c2 →
  (∀ x c1 c2, R c1 c2 → agree R (body1 x c1) (body2 x c2)) →
  agree R (for_fold xs c1 body1) (for_fold xs c2 body2).
Proof.
  induction xs as [|x xs IH]; intros c1 c2 Hc Hbody; simpl.
  - by apply agree_ret.
  - eapply agree_bind; [by apply Hbody|]. intros c1' c2' Hc'. by apply IH.
Qed.

Lemma agree_list_comp {B C} (R : C → C → Prop) (xs : list B)
    (f1 f2 : B → M world C) :
  (∀ x, agree R (f1 x) (f2 x)) →
  agree (Forall2 R) (list_comp xs f1) (list_comp xs f2).
Proof.
  intros Hf. induction xs as [|x xs IH]; simpl.
  - by apply agree_ret.
  - eapply agree_bind; [apply Hf|]. intros y1 y2 Hy.
    eapply agree_bind; [apply IH|]. intros ys1 ys2 Hys.
    apply agree_ret. by constructor.
Qed.

Lemma agree_print l1 l2 : agree any (print l1) (print l2).
Proof. by intros w1 w2 Hs. Qed.

Lemma agree_perf_counter : agree any perf_counter perf_counter.
Proof. by intros w1 w2 Hs. Qed.

Lemma agree_draw n : agree eq (draw n) (draw n).
Proof.
  intros w1 w2 [Hrng Hcalls]. unfold draw. rewrite Hrng.
  by destruct (randbelow n (rng w2)).
Qed.

Lemma agree_randrange n : agree eq (randrange n) (randrange n).
Proof.
  unfold randrange. case_decide; [apply agree_draw|apply agree_raise].
Qed.

Lemma agree_randint a b : agree eq (randint a b) (randint a b).
Proof.
  unfold randint, randrange2. case_decide; [|apply agree_raise].
  eapply agree_bind; [apply agree_draw|]. intros x ? <-. by apply agree_ret.
Qed.

Lemma agree_item l i : agree eq (item l i) (item l i).
Proof.
  unfold item. destruct (index_of (length l) i) as [k|];
    [destruct (l !! k)|]; by (apply agree_ret || apply agree_raise).
Qed.

Lemma agree_set_item l i v : agree eq (set_item l i v) (set_item l i v).
Proof.
  unfold set_item. destruct (index_of (length l) i);
    by (apply agree_ret || apply agree_raise).
Qed.

Lemma Forall2_eq {B} (l1 l2 : list B) : Forall2 eq l1 l2 → l1 = l2.
Proof. induction 1; congruence. Qed.

Lemma agree_datasets name gen n :
  (name, gen) ∈ DATASETS → agree eq (gen n) (gen n).
Proof.
  unfold DATASETS. intros Hin.
  repeat (apply elem_of_cons in Hin as [Hin|Hin]; [injection Hin as -> ->|]).
  - eapply agree_weaken; [apply Forall2_eq|].
    apply agree_list_comp. intros _. apply agree_randint.
  - by apply agree_ret.
  - by apply agree_ret.
  - apply agree_for_fold; [done|]. intros _ a ? <-.
    eapply agree_bind; [apply agree_randrange|]. intros i ? <-.
    eapply agree_bind; [apply agree_randrange|]. intros j ? <-.
    eapply agree_bind; [apply agree_item|]. intros aj ? <-.
    eapply agree_bind; [apply agree_item|]. intros ai ? <-.
    eapply agree_bind; [apply agree_set_item|]. intros a' ? <-.
    apply agree_set_item.
  - eapply agree_weaken; [apply Forall2_eq|].
    apply agree_list_comp. intros _. apply agree_randrange.
  - by apply elem_of_nil in Hin.
Qed.

Lemma agree_call_algo a d : agree eq (call_algo a d) (call_algo a d).
Proof.
  intros w1 w2 [Hrng Hcalls]. unfold call_algo.
  destruct (in_store (algo_fun a) d); simpl;
    (split; [done|]); split; simpl; congruence.
Qed.

Lemma agree_call_algo_on_copy a d :
  agree eq (call_algo_on_copy a d) (call_algo_on_copy a d).
Proof.
  intros w1 w2 [Hrng Hcalls]. unfold call_algo_on_copy.
  destruct (in_store _ d); simpl;
    (split; [done|]); split; simpl; congruence.
Qed.

Lemma agree_py_div x1 x2 d : agree any (py_div x1 d) (py_div x2 d).
Proof.
  unfold py_div. case_decide; [apply agree_raise|by apply agree_ret].
Qed.

Lemma agree_bench_one func data repeat number :
  agree eq (func data) (func data) →
  agree any (bench_one func data repeat number)
    (bench_one func data repeat number).
Proof.
  intros Hfunc. unfold bench_one, timer_repeat, timeit.
  eapply agree_bind with (R := Forall2 any).
  - apply agree_list_comp. intros _.
    eapply agree_bind; [apply agree_perf_counter|]. intros t0 t0' _.
    eapply agree_bind with (R := any).
    + apply agree_for_each. intros _.
      eapply agree_bind; [apply Hfunc|]. intros ? ? _. by apply agree_ret.
    + intros _ _ _.
      eapply agree_bind; [apply agree_perf_counter|]. intros t1 t1' _.
      by apply agree_ret.
  - intros runs1 runs2 Hruns. rewrite (Forall2_length _ _ _ Hruns).
    eapply agree_bind; [apply agree_py_div|]. intros m1 m2 _.
    apply agree_py_div.
Qed.

Lemma same_shape_insert d1 d2 k t1 t2 :
  same_shape d1 d2 → same_shape (<[k := Some t1]> d1) (<[k := Some t2]> d2).
Proof.
  intros Hd k'. destruct (decide (k = k')) as [<-|Hk].
  - by rewrite !lookup_insert_eq.
  - rewrite !lookup_insert_ne by done. apply Hd.
Qed.

Lemma same_shape_refl d : same_shape d d.
Proof. intros k. by destruct (d !! k) as [[?|]|]. Qed.

Lemma agree_time_algos n data repeat number ceiling :
  agree same_shape (time_algos n data repeat number ceiling)
    (time_algos n data repeat number ceiling).
Proof.
  unfold time_algos. apply agree_for_fold; [apply same_shape_refl|].
  intros [algo_name a] d1 d2 Hd. case_decide; [by apply agree_ret|].
  eapply agree_bind.
  - apply agree_bench_one, agree_call_algo_on_copy.
  - intros t1 t2 _. apply agree_ret. by apply same_shape_insert.
Qed.

Lemma agree_cell d1 d2 k : same_shape d1 d2 → agree any (cell d1 k) (cell d2 k).
Proof.
  intros Hd. specialize (Hd k). unfold cell.
  destruct (d1 !! k) as [[?|]|], (d2 !! k) as [[?|]|]; try done;
    by (apply agree_ret || apply agree_raise).
Qed.

Lemma agree_cell_or_marker d1 d2 k :
  same_shape d1 d2 → agree any (cell_or_marker d1 k) (cell_or_marker d2 k).
Proof.
  intros Hd. specialize (Hd k). unfold cell_or_marker.
  destruct (d1 !! k) as [[?|]|], (d2 !! k) as [[?|]|]; try done;
    by (apply agree_ret || apply agree_raise).
Qed.

Lemma agree_bench_row n name gen repeat number ceiling :
  (name, gen) ∈ DATASETS →
  agree any (bench_row n name gen repeat number ceiling)
    (bench_row n name gen repeat number ceiling).
Proof.
  intros Hin. unfold bench_row.
  eapply agree_bind; [by eapply agree_datasets|]. intros data ? <-.
  eapply agree_bind; [apply agree_time_algos|]. intros d1 d2 Hd.
  eapply agree_bind; [by apply agree_cell_or_marker|]. intros ins1 ins2 _.
  eapply agree_bind; [by apply agree_cell|]. intros mer1 mer2 _.
  eapply agree_bind; [by apply agree_cell|]. intros tim1 tim2 _.
  apply agree_print.
Qed.

Lemma agree_for_each_in {B} (xs : list B) (body : B → M world unit) :
  (∀ x, x ∈ xs → agree any (body x) (body x)) →
  agree any (for_each xs body) (for_each xs body).
Proof.
  induction xs as [|x xs IH]; intros Hbody; simpl.
  - by apply agree_ret.
  - eapply agree_bind; [apply Hbody; left|]. intros _ _ _.
    apply IH. intros y Hy. apply Hbody. by right.
Qed.

Lemma agree_run_bench ns repeat number ceiling :
  agree any (run_bench ns repeat number ceiling)
    (run_bench ns repeat number ceiling).
Proof.
  unfold run_bench.
  eapply agree_bind; [apply agree_print|]. intros _ _ _.
  eapply agree_bind; [apply agree_print|]. intros _ _ _.
  eapply agree_bind; [apply agree_print|]. intros _ _ _.
  apply agree_for_each. intros n.
  apply agree_for_each_in. intros [name gen] Hin.
  by apply agree_bench_row.
Qed.

Lemma agree_make_random n : agree eq (make_random n) (make_random n).
Proof.
  eapply agree_weaken; [apply Forall2_eq|].
  apply agree_list_comp. intros _. apply agree_randint.
Qed.

Lemma agree_analyze_scaling : agree any analyze_scaling analyze_scaling.
Proof.
  unfold analyze_scaling.
  eapply agree_bind; [apply agree_print|]. intros _ _ _.
  apply agree_for_each. intros [algo_name a].
  eapply agree_bind; [apply agree_print|]. intros _ _ _.
  eapply agree_bind with (R := any); [|intros; by apply agree_ret].
  apply agree_for_fold; [done|]. intros n p1 p2 _.
  eapply agree_bind; [apply agree_make_random|]. intros data ? <-.
  eapply agree_bind; [apply agree_bench_one, agree_call_algo|].
  intros t1 t2 _.
  eapply agree_bind; [apply agree_print|]. intros _ _ _.
  by apply agree_ret.
Qed.

Lemma agree_parse_sizes xs : agree eq (parse_sizes xs) (parse_sizes xs).
Proof.
  induction xs as [|x xs IH]; simpl; [by apply agree_ret|].
  case_decide; [done|]. destruct (py_int x); [|apply agree_raise].
  eapply agree_bind; [apply IH|]. intros ns ? <-. by apply agree_ret.
Qed.

Lemma main_same_outcome (a : args) w1 w2 :
  calls w1 = calls w2 → same_outcome eq (main a w1) (main a w2).
Proof.
  intros Hcalls. unfold main.
  rewrite !(bind_ok _ _ _ _ _
    (eq_refl : random_seed 42 _ = (Ok (), set_rng (seed_state 42) _))).
  cut (agree eq
         (let! ns := parse_sizes (split_comma (arg_sizes a)) in
          run_bench ns (arg_repeat a) (arg_number a) (arg_ins_max a) ;;
          (if negb (arg_no_scaling a) then analyze_scaling else ret ()) ;;
          ret 0)
         (let! ns := parse_sizes (split_comma (arg_sizes a)) in
          run_bench ns (arg_repeat a) (arg_number a) (arg_ins_max a) ;;
          (if negb (arg_no_scaling a) then analyze_scaling else ret ()) ;;
          ret 0)).
  { intros Hagree. by apply Hagree. }
  eapply agree_bind; [apply agree_parse_sizes|]. intros ns ? <-.
  eapply agree_bind; [apply agree_run_bench|]. intros _ _ _.
  eapply agree_bind with (R := any); [|intros; by apply agree_ret].
  destruct (negb (arg_no_scaling a)); [apply agree_analyze_scaling|].
  by apply agree_ret.
Qed.

Lemma same_outcome_eq_result {B} (o1 o2 : result B * world) :
  same_outcome eq o1 o2 → o1.1 = o2.1.
Proof.
  destruct o1 as [[b1|e1] w1], o2 as [[b2|e2] w2]; simpl; try done.
  - by intros [-> _].
  - by intros [-> _].
Qed.

Lemma seeded_make_random_same (s n : Z) w1 w2 :
  calls w1 = calls w2 →
  ((random_seed s ;; make_random n) w1).1
  = ((random_seed s ;; make_random n) w2).1.
Proof.
  intros Hcalls.
  rewrite !(bind_ok _ _ _ _ _
    (eq_refl : random_seed s _ = (Ok (), set_rng (seed_state s) _))).
  apply same_outcome_eq_result, agree_make_random. by split.
Qed.

Lemma parse_sizes_blank (xs : list string) w :
  Forall (λ x, str_strip x = EmptyString) xs → parse_sizes xs w = (Ok [], w).
Proof.
  induction 1 as [|x xs Hx _ IH]; [done|].
  cbn [parse_sizes]. by rewrite decide_True by done.
Qed.

End WorldFacts.

(** *** The generators away from [nearly_sorted(0)] *)

Section GeneratorFacts.
Context `{RT : Runtime} {HL : RuntimeLaws RT}.
Implicit Types (w : world).

Lemma list_comp_ok {B C} (xs : list B) (f : B → M world C) :
  (∀ x w, ∃ y w', f x w = (Ok y, w')) →
  ∀ w, ∃ ys w', list_comp xs f w = (Ok ys, w') ∧ length ys = length xs.
Proof.
  intros Hf. induction xs as [|x xs IH]; intros w; simpl.
  - by exists [], w.
  - destruct (Hf x w) as (y & w1 & Hy). rewrite (bind_ok _ _ _ _ _ Hy).
    destruct (IH w1) as (ys & w2 & Hys & Hlen).
    rewrite (bind_ok _ _ _ _ _ Hys). exists (y :: ys), w2.
    split; [done|]. simpl. by rewrite Hlen.
Qed.

Lemma randrange_ok n w :
  0 < n → ∃ x w', randrange n w = (Ok x, w') ∧ 0 ≤ x < n.
Proof.
  intros Hn. unfold randrange, draw. rewrite decide_True by done.
  pose proof (randbelow_range n (rng w) Hn) as Hx.
  destruct (randbelow n (rng w)) as [x g]. by exists x, (set_rng g w).
Qed.

Lemma randint_ok a b w : a ≤ b → ∃ x w', randint a b w = (Ok x, w').
Proof.
  intros Hab. unfold randint, randrange2, draw.
  rewrite decide_True by lia. unfold bind.
  destruct (randbelow (b + 1 - a) (rng w)) as [x g]. by eexists _, _.
Qed.

Lemma item_ok (l : list Z) i w :
  0 ≤ i < Z.of_nat (length l) → ∃ x, item l i w = (Ok x, w).
Proof.
  intros Hi. unfold item, index_of. rewrite decide_True by done.
  destruct (lookup_lt_is_Some_2 l (Z.to_nat i)) as [x Hx]; [lia|].
  rewrite Hx. by exists x.
Qed.

Lemma set_item_ok (l : list Z) i v w :
  0 ≤ i < Z.of_nat (length l) →
  set_item l i v w = (Ok (<[Z.to_nat i := v]> l), w).
Proof. intros Hi. unfold set_item, index_of. by rewrite decide_True by done. Qed.

Lemma swaps_ok n (xs : list Z) : ∀ a w,
  0 < n → length a = Z.to_nat n →
  ∃ a' w',
    for_fold xs a (λ _ a,
      let! i := randrange n in
      let! j := randrange n in
      let! aj := item a j in
      let! ai := item a i in
      let! a := set_item a i aj in
      set_item a j ai) w = (Ok a', w') ∧
    length a' = Z.to_nat n.
Proof.
  induction xs as [|x xs IH]; intros a w Hn Hlen; simpl.
  - by exists a, w.
  - destruct (randrange_ok n w Hn) as (i & w1 & Hi & Hir).
    destruct (randrange_ok n w1 Hn) as (j & w2 & Hj & Hjr).
    destruct (item_ok a j w2) as (aj & Haj); [lia|].
    destruct (item_ok a i w2) as (ai & Hai); [lia|].
    erewrite bind_ok; last first.
    { rewrite (bind_ok _ _ _ _ _ Hi), (bind_ok _ _ _ _ _ Hj).
      rewrite (bind_ok _ _ _ _ _ Haj), (bind_ok _ _ _ _ _ Hai).
      rewrite (bind_ok _ _ _ _ _ (set_item_ok a i aj w2 ltac:(lia))).
      apply set_item_ok. rewrite length_insert. lia. }
    apply IH; [done|]. by rewrite !length_insert.
Qed.

(** Every generator returns a list of [n] elements for [n >= 1], and
    every generator but [nearly_sorted] returns the empty list for
    [n = 0]. *)
Lemma generators_return name gen n w :
  (name, gen) ∈ DATASETS →
  0 < n ∨ (n = 0 ∧ name ≠ "nearly_sorted") →
  ∃ l w', gen n w = (Ok l, w') ∧ length l = Z.to_nat n.
Proof.
  unfold DATASETS. intros Hin Hn.
  assert (length (py_range 0 n) = Z.to_nat n) as Hrange
    by (unfold py_range; rewrite length_seqZ; lia).
  repeat (apply elem_of_cons in Hin as [Hin|Hin]; [injection Hin as -> ->|]).
  - assert (0 ≤ 10 ^ 9) as H9 by lia.
    destruct (list_comp_ok (py_range 0 n) (λ _, randint 0 (10 ^ 9))
                (λ _ w0, randint_ok 0 (10 ^ 9) w0 H9) w)
      as (l & w' & Hrun & Hlen).
    exists l, w'. split; [done|]. by rewrite Hlen.
  - by exists (py_range 0 n), w.
  - exists (py_range_down n 0), w. split; [done|].
    unfold py_range_down. rewrite length_fmap, length_seqZ. lia.
  - destruct Hn as [Hn|[_ ?]]; [|done].
    by apply swaps_ok.
  - destruct (list_comp_ok (py_range 0 n) (λ _, randrange 100)) with (w := w)
      as (l & w' & Hrun & Hlen).
    { intros _ w0. destruct (randrange_ok 100 w0) as (x & w1 & ? & _); [lia|].
      by exists x, w1. }
    exists l, w'. split; [done|]. by rewrite Hlen.
  - by apply elem_of_nil in Hin.
Qed.

End GeneratorFacts.

(** C8: the timer returns [sum(batch_times) / repeat / number], where
    [batch_times] are the elapsed times of [repeat] batches that each run
    the thunk [number] times.  [repeat] and [number] are positive, as the
    command line declares them, and [number] is a count that [timeit]
    takes, below [2^63]. *)
Theorem bench_one_mean `{RT : Runtime} (func : list Z → M world (list Z))
    (data : list Z) (repeat number : Z) (w : world) :
  0 < repeat →
  0 < number < 2 ^ 63 →
  (∀ w0, ∃ out w1, func data w0 = (Ok out, w1)) →
  let '(times, w') :=
    batch_times (Z.to_nat repeat) (Z.to_nat number) (func data ;; ret ()) w in
  length times = Z.to_nat repeat ∧
  bench_one func data repeat number w =
    (Ok (fdiv_int (fdiv_int (fsum times) repeat) number), w').
Proof.
  intros Hrep [Hnum _] Hok.
  pose proof (bench_one_batches func data repeat number w Hrep Hnum Hok) as Hrun.
  pose proof (batch_times_length (Z.to_nat repeat) (Z.to_nat number)
                (func data ;; ret ()) w) as Hlen.
  by destruct (batch_times (Z.to_nat repeat) (Z.to_nat number)
                 (func data ;; ret ()) w) as [times w'].
Qed.

Lemma bench_one_mean_witness :
  0 < 2 ∧ 0 < 3 < 2 ^ 63 ∧
  (∀ w0, ∃ out w1,
     @call_algo_on_copy sample_runtime Merge [3; 1; 2] w0 = (Ok out, w1)) ∧
  let '(times, w') :=
    @batch_times sample_runtime 2 3
      (call_algo_on_copy Merge [3; 1; 2] ;; ret ()) sample_world in
  length times = 2%nat ∧
  @bench_one sample_runtime (call_algo_on_copy Merge) [3; 1; 2] 2 3 sample_world
  = (Ok (@fdiv_int sample_runtime
           (@fdiv_int sample_runtime (@fsum sample_runtime times) 2) 3), w').
Proof.
  assert (∀ w0, ∃ out w1,
     @call_algo_on_copy sample_runtime Merge [3; 1; 2] w0 = (Ok out, w1)) as Hok.
  { intros w0. destruct (@call_algo_on_copy_ok sample_runtime Merge [3; 1; 2] w0)
      as (out & Hrun). by exists out, (log_call Merge [3; 1; 2] w0). }
  split; [lia|]. split; [lia|]. split; [exact Hok|].
  exact (@bench_one_mean sample_runtime (call_algo_on_copy Merge) [3; 1; 2] 2 3
           sample_world eq_refl (conj eq_refl eq_refl) Hok).
Defined.


(** C5 fails on the code: an empty size list is accepted, the head of
    the table is printed and the run returns 0; with [--repeat 0] the head
    is printed before the division by zero stops the run; and with a
    negative size three rows are timed and printed before
    [nearly_sorted] stops the run. *)
Lemma invalid_configuration_not_rejected :
  let empty := @main sample_runtime (Args "" 3 1 20000 true) sample_world in
  let norep := @main sample_runtime (Args "5" 0 1 20000 true) sample_world in
  let neg := @main sample_runtime (Args "-2" 3 1 20000 true) sample_world in
  (empty.1 = Ok 0 ∧ stdout empty.2 = [BenchTitle 3 1; TableHead; TableRule]) ∧
  (norep.1 = Raise ZeroDivisionError ∧
   stdout norep.2 = [BenchTitle 0 1; TableHead; TableRule]) ∧
  (neg.1 = Raise ValueError ∧
   stdout neg.2 =
     [BenchTitle 3 1; TableHead; TableRule;
      TableRow (-2) "random" "7000" "7000" "7000";
      TableRow (-2) "sorted" "7000" "7000" "7000";
      TableRow (-2) "reverse" "7000" "7000" "7000"] ∧
   length (calls neg.2) = 27%nat).
Proof. vm_compute. done. Qed.

(** C5, amended: an entry of the size list that is not blank and that
    [int] does not read stops the run with ValueError when nothing has
    been printed and nothing has been timed; only the generator has been
    seeded.  A size list with no entry but blank ones is not an error:
    the run prints the head of the table and, the scaling report being
    off, returns 0. *)
Theorem size_list_handling `{RT : Runtime} (a : args) (w : world) :
  (Exists (λ x, str_strip x ≠ EmptyString ∧ py_int x = None)
     (split_comma (arg_sizes a)) →
   main a w = (Raise ValueError, set_rng (seed_state 42) w)) ∧
  (Forall (λ x, str_strip x = EmptyString) (split_comma (arg_sizes a)) →
   arg_no_scaling a = true →
   main a w =
     (Ok 0,
      write_line TableRule (write_line TableHead
        (write_line (BenchTitle (arg_repeat a) (arg_number a))
           (set_rng (seed_state 42) w))))).
Proof.
  split.
  - intros Hbad. unfold main.
    rewrite (bind_ok _ _ _ _ _
      (eq_refl : random_seed 42 w = (Ok (), set_rng (seed_state 42) w))).
    by rewrite (bind_raise _ _ _ _ _ (parse_sizes_non_numeric _ _ Hbad)).
  - intros Hblank Hoff. unfold main.
    rewrite (bind_ok _ _ _ _ _
      (eq_refl : random_seed 42 w = (Ok (), set_rng (seed_state 42) w))).
    rewrite (bind_ok _ _ _ _ _ (parse_sizes_blank _ _ Hblank)).
    by rewrite Hoff.
Qed.

Lemma size_list_handling_witness :
  let bad := Args "10,x" 3 1 20000 false in
  let blank := Args " , " 3 1 20000 true in
  Exists (λ x, sample_strip x ≠ EmptyString ∧ sample_int x = None)
    (split_comma (arg_sizes bad)) ∧
  @main sample_runtime bad sample_world
  = (Raise ValueError, set_rng (RT:=sample_runtime) 42 sample_world) ∧
  Forall (λ x, sample_strip x = EmptyString) (split_comma (arg_sizes blank)) ∧
  arg_no_scaling blank = true ∧
  @main sample_runtime blank sample_world
  = (Ok 0,
     write_line TableRule (write_line TableHead
       (write_line (BenchTitle 3 1)
          (set_rng (RT:=sample_runtime) 42 sample_world)))).
Proof.
  intros bad blank.
  assert (Exists (λ x, sample_strip x ≠ EmptyString ∧ sample_int x = None)
            (split_comma (arg_sizes bad))) as Hbad.
  { apply Exists_cons_tl, Exists_cons_hd. split; [discriminate|reflexivity]. }
  assert (Forall (λ x, sample_strip x = EmptyString)
            (split_comma (arg_sizes blank))) as Hblank.
  { repeat constructor. }
  split; [exact Hbad|].
  split; [exact (proj1 (@size_list_handling sample_runtime bad sample_world) Hbad)|].
  split; [exact Hblank|]. split; [reflexivity|].
  exact (proj2 (@size_list_handling sample_runtime blank sample_world)
           Hblank eq_refl).
Defined.

(** C7: the data sets do not depend on anything but the seed, which
    [main] fixes when it starts.  Two runs with the same arguments end
    alike, whatever their clocks read and whatever state the generator was
    in: they return or raise alike, the sorting functions were called on
    the same lists in the same order, and the generator is left in the
    same state; and [random(n)] after [random.seed(s)] returns the same
    list in both. *)
Theorem datasets_deterministic `{RT : Runtime} (a : args) (s n : Z)
    (w1 w2 : world) :
  calls w1 = calls w2 →
  same_outcome eq (main a w1) (main a w2) ∧
  ((random_seed s ;; make_random n) w1).1
  = ((random_seed s ;; make_random n) w2).1.
Proof.
  intros Hcalls. split.
  - by apply main_same_outcome.
  - by apply seeded_make_random_same.
Qed.

(** A second world of the sample runtime: another generator state and a
    clock that runs at another pace. *)
Lemma datasets_deterministic_witness :
  let w2 := @World sample_runtime 77 (λ k, 5 + 11 * Z.of_nat k) 3%nat [] [] in
  let a := Args "4,2" 2 1 3 false in
  calls sample_world = calls w2 ∧
  same_outcome eq (@main sample_runtime a sample_world)
    (@main sample_runtime a w2) ∧
  ((random_seed 42 ;; make_random 1000) sample_world).1
  = ((random_seed 42 ;; make_random 1000) w2).1.
Proof.
  intros w2 a. split; [reflexivity|].
  exact (@datasets_deterministic sample_runtime a 42 1000 sample_world w2
           eq_refl).
Defined.

(** ** More on the sorting functions *)

Section SortExtras.

(** X1: a list that is already in order is returned as it is, by
    [insertion_sort] and by [merge_sort], whatever the elements and their
    keys: elements with equal keys are not exchanged. *)
Theorem sorted_input_unchanged {A} (sort_key : A → Z) (S : list A) :
  Sorted (key_le sort_key) S →
  returns (insertion_sort sort_key) S S ∧ returns (merge_sort sort_key) S S.
Proof.
  intros HS. pose proof (stable_sort_of_self sort_key S HS) as Hself. split.
  - destruct (insertion_sort_returns sort_key S) as (out & Hret & Hst).
    by rewrite <-(stable_sort_unique sort_key S S out Hself Hst) in Hret.
  - destruct (merge_sort_returns sort_key S) as (out & Hret & Hst).
    by rewrite <-(stable_sort_unique sort_key S S out Hself Hst) in Hret.
Qed.

Lemma sorted_input_unchanged_witness :
  let S := [(1, 0%nat); (1, 1%nat); (2, 2%nat); (2, 3%nat)] in
  Sorted (key_le fst) S ∧
  returns (insertion_sort fst) S S ∧ returns (merge_sort fst) S S.
Proof.
  intros S.
  assert (Sorted (key_le (A:=Z * nat) fst) S) as HS.
  { repeat constructor; unfold key_le; simpl; lia. }
  split; [exact HS|]. exact (sorted_input_unchanged fst S HS).
Defined.

(** X2: [insertion_sort] and [merge_sort] return the same list on every
    input, also when different elements have the same key: the list that
    is in key order and keeps the input order within each key. *)
Theorem sorts_agree_on_keys {A} (sort_key : A → Z) (S : list A) :
  ∃ out,
    returns (insertion_sort sort_key) S out ∧
    returns (merge_sort sort_key) S out ∧
    stable_sort_of sort_key S out.
Proof.
  destruct (insertion_sort_returns sort_key S) as (out & Hret & Hst).
  destruct (merge_sort_returns sort_key S) as (out' & Hret' & Hst').
  exists out. split_and!; [done| |done].
  by rewrite (stable_sort_unique sort_key S out out').
Qed.

(** X3: on any two lists, in order or not, and also when both arguments
    are one object, [_merge] returns a new list, the merge of the two that
    takes the left element unless the right one is smaller; it holds the
    elements of both, and the objects of the caller stay as they were. *)
Theorem merge_any_lists {A} (sort_key : A → Z) (h : heap A)
    (left right : loc) (L R : list A) :
  h !! left = Some L →
  h !! right = Some R →
  ∃ r h',
    _merge sort_key left right h = (Ok r, h') ∧
    h !! r = None ∧
    h' !! r = Some (list_merge (key_le sort_key) L R) ∧
    list_merge (key_le sort_key) L R ≡ₚ L ++ R ∧
    ∀ p l, h !! p = Some l → h' !! p = Some l.
Proof.
  intros Hl Hr.
  destruct (_merge_spec sort_key h left right L R Hl Hr) as (junk & Hrun).
  exists (length h), (h ++ list_merge (key_le sort_key) L R :: junk).
  split_and!; [done| | | |].
  - by apply lookup_ge_None.
  - by apply list_lookup_middle.
  - apply merge_Permutation.
  - intros p l. apply lookup_old.
Qed.

Lemma merge_any_lists_witness :
  ([[2; 1]] : heap Z) !! 0%nat = Some [2; 1] ∧
  ∃ r h',
    _merge id 0%nat 0%nat [[2; 1]] = (Ok r, h') ∧
    ([[2; 1]] : heap Z) !! r = None ∧
    h' !! r = Some (list_merge (key_le id) [2; 1] [2; 1]) ∧
    list_merge (key_le id) [2; 1] [2; 1] ≡ₚ [2; 1] ++ [2; 1] ∧
    ∀ p l, ([[2; 1]] : heap Z) !! p = Some l → h' !! p = Some l.
Proof.
  split; [reflexivity|].
  exact (merge_any_lists id [[2; 1]] 0%nat 0%nat [2; 1] [2; 1] eq_refl eq_refl).
Defined.

(** X4: [insertion_sort] works on one copy: a call adds one object to the
    store, the list it returns, and that list has the length of the
    input.  [merge_sort] of a list of at most one element adds one object
    too, a copy of the input. *)
Theorem sorts_working_copy {A} (sort_key : A → Z) (h : heap A) (arr : loc)
    (S : list A) :
  h !! arr = Some S →
  (∃ out, insertion_sort sort_key arr h = (Ok (length h), h ++ [out]) ∧
          length out = length S) ∧
  ((length S ≤ 1)%nat →
   merge_sort sort_key arr h = (Ok (length h), h ++ [S])).
Proof.
  intros Harr. split.
  - destruct (insertion_sort_spec sort_key h arr S Harr) as (out & Hrun & Hp & _).
    exists out. split; [done|]. by rewrite Hp.
  - intros Hlen. unfold merge_sort.
    rewrite (bind_ok _ _ _ _ _ (len_ok _ _ _ Harr)).
    destruct (Z.to_nat (Z.of_nat (length S))); cbn [merge_sort_rec];
      rewrite (bind_ok _ _ _ _ _ (len_ok _ _ _ Harr));
      rewrite decide_True by lia; by apply list_copy_ok.
Qed.

Lemma sorts_working_copy_witness :
  ([[4]; [7]] : heap Z) !! 1%nat = Some [7] ∧
  (∃ out, insertion_sort id 1%nat [[4]; [7]] = (Ok 2%nat, [[4]; [7]] ++ [out]) ∧
          length out = 1%nat) ∧
  ((1 ≤ 1)%nat → merge_sort id 1%nat [[4]; [7]] = (Ok 2%nat, [[4]; [7]] ++ [[7]])).
Proof.
  split; [reflexivity|].
  exact (sorts_working_copy id [[4]; [7]] 1%nat [7] eq_refl).
Defined.

End SortExtras.

(** ** More on the data-set generators *)

Lemma sample_laws : RuntimeLaws sample_runtime.
Proof. split. intros n g Hn. simpl. apply Z.mod_pos_bound. lia. Qed.

Lemma Sorted_seqZ (m n : Z) : Sorted Z.le (seqZ m n).
Proof.
  remember (Z.to_nat n) as k eqn:Hk. revert m n Hk.
  induction k as [|k IH]; intros m n Hk.
  - rewrite seqZ_nil by lia. constructor.
  - rewrite seqZ_cons by lia. constructor; [apply IH; lia|].
    destruct (decide (0 < Z.pred n)) as [Hpos|Hneg].
    + rewrite seqZ_cons by done. constructor. lia.
    + rewrite seqZ_nil by lia. constructor.
Qed.


Lemma delete_insert_same {B} (a : list B) : ∀ (i : nat) x,
  delete i (<[i := x]> a) = delete i a.
Proof.
  induction a as [|z a IH]; intros [|i] x; simpl; [done..|].
  f_equal. apply IH.
Qed.

Lemma swap_Permutation {B} (a : list B) : ∀ (i j : nat) x y,
  (i < j)%nat → a !! i = Some x → a !! j = Some y →
  <[j := x]> (<[i := y]> a) ≡ₚ a.
Proof.
  induction a as [|z a IH]; intros i j x y Hij Hi Hj; [done|].
  destruct j as [|j]; [lia|]. destruct i as [|i]; simpl in *.
  - injection Hi as ->.
    rewrite (delete_Permutation a j y Hj) at 2.
    rewrite (delete_Permutation (<[j := x]> a) j x)
      by (apply list_lookup_insert_eq; by eapply lookup_lt_Some).
    rewrite delete_insert_same. apply perm_swap.
  - constructor. apply (IH i j x y); [lia|done..].
Qed.

Lemma swap_any_Permutation {B} (a : list B) (i j : nat) x y :
  a !! i = Some x → a !! j = Some y →
  <[j := x]> (<[i := y]> a) ≡ₚ a.
Proof.
  intros Hi Hj. destruct (decide (i = j)) as [->|Hne].
  - assert (x = y) as -> by congruence.
    by rewrite list_insert_insert_eq, list_insert_id.
  - destruct (decide (i < j)%nat) as [Hlt|Hge].
    + by apply swap_Permutation.
    + rewrite list_insert_insert_ne by done.
      apply swap_Permutation; [lia|done..].
Qed.

Section GeneratorExtras.
Context `{RT : Runtime} {HL : RuntimeLaws RT}.
Implicit Types (w : world).
#[local] Existing Instance rng_step_preorder.

Lemma randrange_in_range n w :
  0 < n → ∃ x w', randrange n w = (Ok x, w') ∧ 0 ≤ x < n ∧ rng_step w w'.
Proof.
  intros Hn. destruct (randrange_ok n w Hn) as (x & w' & Hrun & Hx).
  exists x, w'. split; [done|]. split; [done|].
  pose proof (steps_randrange n w) as Hs. by rewrite Hrun in Hs.
Qed.

Lemma randint_in_range a b w :
  a ≤ b → ∃ x w', randint a b w = (Ok x, w') ∧ a ≤ x ≤ b ∧ rng_step w w'.
Proof.
  intros Hab. unfold randint, randrange2, draw.
  rewrite decide_True by lia. unfold bind.
  pose proof (randbelow_range (b + 1 - a) (rng w)) as Hx.
  destruct (randbelow (b + 1 - a) (rng w)) as [x g]. simpl in Hx.
  exists (a + x), (set_rng g w). split; [done|]. split; [lia|done].
Qed.

Lemma list_comp_range {C} (P : C → Prop) (xs : list Z) (f : M world C) :
  (∀ w, ∃ y w', f w = (Ok y, w') ∧ P y ∧ rng_step w w') →
  ∀ w, ∃ ys w',
    list_comp xs (λ _, f) w = (Ok ys, w') ∧ length ys = length xs ∧
    Forall P ys ∧ rng_step w w'.
Proof.
  intros Hf. induction xs as [|x xs IH]; intros w; simpl.
  - by exists [], w.
  - destruct (Hf w) as (y & w1 & Hy & HP & Hs1).
    rewrite (bind_ok _ _ _ _ _ Hy).
    destruct (IH w1) as (ys & w2 & Hys & Hlen & Hall & Hs2).
    rewrite (bind_ok _ _ _ _ _ Hys). exists (y :: ys), w2.
    split_and!; [done|by simpl; rewrite Hlen|by constructor|by etransitivity].
Qed.

(** X5: [make_random(n)] never raises: it returns [n] integers (none for
    [n <= 0]), each between 0 and 10^9 inclusive, and touches nothing but
    the generator. *)
Theorem make_random_range (n : Z) (w : world) :
  ∃ l w',
    make_random n w = (Ok l, w') ∧ length l = Z.to_nat n ∧
    Forall (λ x, 0 ≤ x ≤ 10 ^ 9) l ∧ rng_step w w'.
Proof.
  assert (0 ≤ 10 ^ 9) as H9 by lia.
  destruct (list_comp_range (λ x, 0 ≤ x ≤ 10 ^ 9) (py_range 0 n)
              (randint 0 (10 ^ 9)) (λ w0, randint_in_range 0 (10 ^ 9) w0 H9) w)
    as (l & w' & Hrun & Hlen & Hall & Hs).
  exists l, w'. split_and!; [done| |done..].
  rewrite Hlen. unfold py_range. rewrite length_seqZ. lia.
Qed.

(** X6: [make_many_duplicates(n, uniques)] with [uniques >= 1] returns
    [n] integers, each at least 0 and below [uniques]; with
    [uniques <= 0] and [n >= 1] it raises ValueError at the first draw,
    the generator untouched. *)
Theorem make_many_duplicates_range (n uniques : Z) (w : world) :
  (0 < uniques →
   ∃ l w',
     make_many_duplicates n uniques w = (Ok l, w') ∧
     length l = Z.to_nat n ∧ Forall (λ x, 0 ≤ x < uniques) l) ∧
  (uniques ≤ 0 → 0 < n →
   make_many_duplicates n uniques w = (Raise ValueError, w)).
Proof.
  split.
  - intros Hu.
    destruct (list_comp_range (λ x, 0 ≤ x < uniques) (py_range 0 n)
                (randrange uniques) (λ w0, randrange_in_range uniques w0 Hu) w)
      as (l & w' & Hrun & Hlen & Hall & _).
    exists l, w'. split_and!; [done| |done].
    rewrite Hlen. unfold py_range. rewrite length_seqZ. lia.
  - intros Hu Hn. unfold make_many_duplicates, py_range.
    rewrite seqZ_cons by lia. cbn [list_comp].
    by apply bind_raise, randrange_empty.
Qed.

Lemma item_lookup (l : list Z) i w :
  0 ≤ i < Z.of_nat (length l) →
  ∃ x, l !! Z.to_nat i = Some x ∧ item l i w = (Ok x, w).
Proof.
  intros Hi. unfold item, index_of. rewrite decide_True by done.
  destruct (lookup_lt_is_Some_2 l (Z.to_nat i)) as [x Hx]; [lia|].
  rewrite Hx. by exists x.
Qed.

Lemma swaps_permute n (xs : list Z) : ∀ a w,
  0 < n → length a = Z.to_nat n →
  ∃ a' w',
    for_fold xs a (λ _ a,
      let! i := randrange n in
      let! j := randrange n in
      let! aj := item a j in
      let! ai := item a i in
      let! a := set_item a i aj in
      set_item a j ai) w = (Ok a', w') ∧
    a' ≡ₚ a.
Proof.
  induction xs as [|x xs IH]; intros a w Hn Hlen; simpl.
  - by exists a, w.
  - destruct (randrange_ok n w Hn) as (i & w1 & Hi & Hir).
    destruct (randrange_ok n w1 Hn) as (j & w2 & Hj & Hjr).
    destruct (item_lookup a j w2) as (aj & Hlj & Haj); [lia|].
    destruct (item_lookup a i w2) as (ai & Hli & Hai); [lia|].
    erewrite bind_ok; last first.
    { rewrite (bind_ok _ _ _ _ _ Hi), (bind_ok _ _ _ _ _ Hj).
      rewrite (bind_ok _ _ _ _ _ Haj), (bind_ok _ _ _ _ _ Hai).
      rewrite (bind_ok _ _ _ _ _ (set_item_ok a i aj w2 ltac:(lia))).
      apply set_item_ok. rewrite length_insert. lia. }
    destruct (IH (<[Z.to_nat j := ai]> (<[Z.to_nat i := aj]> a)) w2 Hn)
      as (a' & w' & Hrun & Hperm).
    { by rewrite !length_insert. }
    exists a', w'. split; [done|].
    rewrite Hperm. by apply swap_any_Permutation.
Qed.

(** X7: for [n >= 1], a size that a list can have, [make_nearly_sorted(n)]
    with its ratio of [0.01] returns a rearrangement of [0, ..., n-1]:
    the swaps lose and repeat nothing, so both sorting functions take
    its result to the list that [make_sorted(n)] returns. *)
Theorem nearly_sorted_is_permutation (n : Z) (w : world) :
  0 < n < 2 ^ 63 →
  ∃ l w',
    make_nearly_sorted n one_percent w = (Ok l, w') ∧
    l ≡ₚ seqZ 0 n ∧
    make_sorted n w = (Ok (seqZ 0 n), w) ∧
    returns (insertion_sort id) l (seqZ 0 n) ∧
    returns (merge_sort id) l (seqZ 0 n).
Proof.
  intros [Hn _]. unfold make_nearly_sorted, make_sorted, py_range.
  rewrite !Z.sub_0_r.
  destruct (swaps_permute n (seqZ 0 (Z.max 1 (int_mul n one_percent)))
              (seqZ 0 n) w Hn) as (l & w' & Hrun & Hperm).
  { by rewrite length_seqZ. }
  exists l, w'. split_and!; [done..| |].
  - destruct (insertion_sort_returns id l) as (out & Hret & Hp & Hs & _).
    rewrite (sorted_Z_unique l out (seqZ 0 n)) in Hret;
      [done..|by symmetry|apply Sorted_seqZ].
  - destruct (merge_sort_returns id l) as (out & Hret & Hp & Hs & _).
    rewrite (sorted_Z_unique l out (seqZ 0 n)) in Hret;
      [done..|by symmetry|apply Sorted_seqZ].
Qed.

End GeneratorExtras.

Lemma make_random_range_witness :
  RuntimeLaws sample_runtime ∧
  ∃ l w',
    @make_random sample_runtime 5 sample_world = (Ok l, w') ∧
    length l = 5%nat ∧ Forall (λ x, 0 ≤ x ≤ 10 ^ 9) l ∧
    rng_step sample_world w'.
Proof.
  split; [exact sample_laws|].
  exact (@make_random_range sample_runtime sample_laws 5 sample_world).
Defined.

Lemma make_many_duplicates_range_witness :
  RuntimeLaws sample_runtime ∧ 0 < 100 ∧
  (∃ l w',
     @make_many_duplicates sample_runtime 5 100 sample_world = (Ok l, w') ∧
     length l = 5%nat ∧ Forall (λ x, 0 ≤ x < 100) l) ∧
  0 ≤ 0 ∧ 0 < 5 ∧
  @make_many_duplicates sample_runtime 5 0 sample_world
  = (Raise ValueError, sample_world).
Proof.
  split; [exact sample_laws|]. split; [lia|].
  split.
  { exact (proj1 (@make_many_duplicates_range sample_runtime sample_laws
                    5 100 sample_world) eq_refl). }
  split; [lia|]. split; [lia|].
  refine (proj2 (@make_many_duplicates_range sample_runtime sample_laws
                   5 0 sample_world) _ eq_refl). lia.
Defined.

Lemma nearly_sorted_is_permutation_witness :
  RuntimeLaws sample_runtime ∧ 0 < 300 < 2 ^ 63 ∧
  ∃ l w',
    @make_nearly_sorted sample_runtime 300 (@one_percent sample_runtime)
      sample_world = (Ok l, w') ∧
    l ≡ₚ seqZ 0 300 ∧
    @make_sorted sample_runtime 300 sample_world
    = (Ok (seqZ 0 300), sample_world) ∧
    returns (insertion_sort id) l (seqZ 0 300) ∧
    returns (merge_sort id) l (seqZ 0 300).
Proof.
  split; [exact sample_laws|]. split; [lia|].
  exact (@nearly_sorted_is_permutation sample_runtime sample_laws 300
           sample_world (conj eq_refl eq_refl)).
Defined.


(** X9: for [n <= 0], be it zero or negative down to [-2^63],
    [make_random], [make_sorted], [make_reverse] and
    [make_many_duplicates] return the empty list and
    [make_nearly_sorted] with its ratio of [0.01] raises ValueError;
    none of them draws a number. *)
Theorem generators_at_nonpositive `{RT : Runtime} (n uniques : Z)
    (w : world) :
  - 2 ^ 63 ≤ n ≤ 0 →
  make_random n w = (Ok [], w) ∧
  make_sorted n w = (Ok [], w) ∧
  make_reverse n w = (Ok [], w) ∧
  make_many_duplicates n uniques w = (Ok [], w) ∧
  make_nearly_sorted n one_percent w = (Raise ValueError, w).
Proof.
  intros [_ Hn].
  unfold make_random, make_sorted, make_reverse, make_many_duplicates,
    make_nearly_sorted, py_range, py_range_down.
  rewrite !(seqZ_nil 0 (n - 0)) by lia. split_and!; [done..|].
  rewrite (seqZ_cons 0 (Z.max 1 _ - 0)) by lia. cbn [for_fold].
  by apply bind_raise, bind_raise, randrange_empty.
Qed.

Lemma generators_at_nonpositive_witness :
  - 2 ^ 63 ≤ -3 ≤ 0 ∧
  @make_random sample_runtime (-3) sample_world = (Ok [], sample_world) ∧
  @make_sorted sample_runtime (-3) sample_world = (Ok [], sample_world) ∧
  @make_reverse sample_runtime (-3) sample_world = (Ok [], sample_world) ∧
  @make_many_duplicates sample_runtime (-3) 100 sample_world
  = (Ok [], sample_world) ∧
  @make_nearly_sorted sample_runtime (-3) (@one_percent sample_runtime)
    sample_world
  = (Raise ValueError, sample_world).
Proof.
  split; [lia|].
  refine (@generators_at_nonpositive sample_runtime (-3) 100 sample_world _).
  lia.
Defined.

(** ** More on the timer *)

Section TimerExtras.
Context `{RT : Runtime}.
Implicit Types (w : world).

Lemma bench_one_no_batch (func : list Z → M world (list Z)) data
    (repeat number : Z) w :
  repeat ≤ 0 →
  bench_one func data repeat number w = (Raise ZeroDivisionError, w).
Proof.
  intros Hrep. unfold bench_one, timer_repeat, py_range.
  by rewrite seqZ_nil by lia.
Qed.

Lemma run_times_zero (stmt : M world unit) w : run_times 0 stmt w = w.
Proof. done. Qed.

Lemma timeit_idle (stmt : M world unit) (number : Z) w :
  number ≤ 0 →
  timeit stmt number w =
    (Ok (fsub (clock w (S (ticks w))) (clock w (ticks w))), tick (tick w)).
Proof.
  intros Hnum. unfold timeit, py_range. by rewrite seqZ_nil by lia.
Qed.

Lemma list_comp_idle (xs : list Z) (stmt : M world unit) (number : Z) :
  number ≤ 0 → ∀ w,
  ∃ times,
    list_comp xs (λ _, timeit stmt number) w =
      (Ok times, Nat.iter (2 * length xs) tick w) ∧
    length times = length xs.
Proof.
  intros Hnum. induction xs as [|x xs IH]; intros w.
  - by exists [].
  - cbn [list_comp]. rewrite (bind_ok _ _ _ _ _ (timeit_idle stmt number w Hnum)).
    destruct (IH (tick (tick w))) as (times & Hrun & Hlen).
    rewrite (bind_ok _ _ _ _ _ Hrun). eexists (_ :: times).
    split; [|by simpl; rewrite Hlen].
    replace (2 * length (x :: xs))%nat with (2 * length xs + 2)%nat
      by (simpl; lia).
    by rewrite Nat.iter_add.
Qed.

Lemma iter_tick_fields k w :
  rng (Nat.iter k tick w) = rng w ∧
  clock (Nat.iter k tick w) = clock w ∧
  ticks (Nat.iter k tick w) = (ticks w + k)%nat ∧
  stdout (Nat.iter k tick w) = stdout w ∧
  calls (Nat.iter k tick w) = calls w.
Proof.
  induction k as [|k (? & ? & ? & ? & ?)]; simpl.
  - split_and!; [done..|lia|done|done].
  - split_and!; [done..|lia|done|done].
Qed.

(** X10: with [repeat <= 0] the timer measures no batch: [bench_one]
    raises ZeroDivisionError, and the thunk was not run and the clock not
    read. *)
Theorem bench_one_without_batches (func : list Z → M world (list Z))
    (data : list Z) (repeat number : Z) (w : world) :
  repeat ≤ 0 →
  bench_one func data repeat number w = (Raise ZeroDivisionError, w).
Proof. apply bench_one_no_batch. Qed.

Lemma list_comp_idle_times (xs : list Z) (stmt : M world unit)
    (number : Z) :
  number ≤ 0 → ∀ w,
  list_comp xs (λ _, timeit stmt number) w =
    (Ok ((λ i : nat, fsub (clock w (ticks w + 2 * i + 1)%nat)
                          (clock w (ticks w + 2 * i)%nat))
           <$> seq 0 (length xs)),
     Nat.iter (2 * length xs) tick w).
Proof.
  intros Hnum. induction xs as [|x xs IH]; intros w; [done|].
  cbn [list_comp].
  rewrite (bind_ok _ _ _ _ _ (timeit_idle stmt number w Hnum)).
  rewrite (bind_ok _ _ _ _ _ (IH (tick (tick w)))).
  unfold ret. f_equal.
  - cbn [length seq fmap list_fmap]. f_equal. f_equal.
    + do 2 f_equal; lia.
    + rewrite <-fmap_S_seq, <-list_fmap_compose.
      apply list_fmap_ext. intros _ i _. simpl. do 2 f_equal; lia.
  - replace (2 * length (x :: xs))%nat with (2 * length xs + 2)%nat
      by (simpl; lia).
    by rewrite Nat.iter_add.
Qed.

(** X11: with [repeat >= 1] and a count [number] from [-2^63] to 0 the
    thunk is never run, whatever it is; the clock is read twice a batch,
    and the time of a batch is the difference of its two readings.  For
    [number = 0] [bench_one] then raises ZeroDivisionError; for
    [number < 0] it returns the mean of these times divided by the
    negative [number]. *)
Theorem bench_one_idle_batches (func : list Z → M world (list Z))
    (data : list Z) (repeat number : Z) (w : world) :
  0 < repeat →
  - 2 ^ 63 ≤ number ≤ 0 →
  let times :=
    (λ i : nat, fsub (clock w (ticks w + 2 * i + 1)%nat)
                     (clock w (ticks w + 2 * i)%nat))
      <$> seq 0 (Z.to_nat repeat) in
  bench_one func data repeat number w =
    (if decide (number = 0) then Raise ZeroDivisionError
     else Ok (fdiv_int (fdiv_int (fsum times) repeat) number),
     Nat.iter (2 * Z.to_nat repeat) tick w) ∧
  calls (Nat.iter (2 * Z.to_nat repeat) tick w) = calls w ∧
  ticks (Nat.iter (2 * Z.to_nat repeat) tick w)
  = (ticks w + 2 * Z.to_nat repeat)%nat.
Proof.
  intros Hrep [_ Hnum] times.
  pose proof (list_comp_idle_times (py_range 0 repeat) (func data ;; ret ())
                number Hnum w) as Hrun.
  unfold py_range in Hrun. rewrite length_seqZ, Z.sub_0_r in Hrun.
  fold times in Hrun.
  assert (length times = Z.to_nat repeat) as Hlen
    by (unfold times; by rewrite length_fmap, length_seq).
  split.
  - unfold bench_one, timer_repeat, py_range.
    rewrite Z.sub_0_r, (bind_ok _ _ _ _ _ Hrun), Hlen.
    unfold py_div. rewrite Z2Nat.id by lia.
    rewrite decide_False by lia. cbn [bind ret].
    by case_decide.
  - pose proof (iter_tick_fields (2 * Z.to_nat repeat) w) as (_ & _ & ? & _ & ?).
    done.
Qed.

Lemma run_times_fields a d k : ∀ w,
  rng (run_times k (call_algo_on_copy a d ;; ret ()) w) = rng w ∧
  clock (run_times k (call_algo_on_copy a d ;; ret ()) w) = clock w ∧
  ticks (run_times k (call_algo_on_copy a d ;; ret ()) w) = ticks w ∧
  stdout (run_times k (call_algo_on_copy a d ;; ret ()) w) = stdout w.
Proof.
  induction k as [|k IH]; intros w; simpl run_times; [done|].
  destruct (call_algo_on_copy_ok a d w) as (out & Hrun).
  rewrite (bind_ok _ _ _ _ _ Hrun). simpl.
  by destruct (IH (log_call a d w)) as (-> & -> & -> & ->).
Qed.

Lemma batch_times_fields a d number repeat : ∀ w,
  rng (batch_times repeat number (call_algo_on_copy a d ;; ret ()) w).2 = rng w ∧
  clock (batch_times repeat number (call_algo_on_copy a d ;; ret ()) w).2
  = clock w ∧
  ticks (batch_times repeat number (call_algo_on_copy a d ;; ret ()) w).2
  = (ticks w + 2 * repeat)%nat ∧
  stdout (batch_times repeat number (call_algo_on_copy a d ;; ret ()) w).2
  = stdout w.
Proof.
  induction repeat as [|r IH]; intros w; simpl batch_times.
  - simpl. split_and!; [done..|lia|done].
  - specialize (IH (tick (run_times number
        (call_algo_on_copy a d ;; ret ()) (tick w)))).
    destruct (batch_times r number _ _) as [ts w2]. simpl in *.
    destruct IH as (-> & -> & -> & ->).
    destruct (run_times_fields a d number (tick w)) as (-> & -> & -> & ->).
    simpl. split_and!; [done..|lia|done].
Qed.

(** X12: for positive [repeat] and [number], a count below [2^63],
    timing a sorting function through the thunk of [run_bench] calls it
    [repeat * number] times, each time on the data, and reads the clock
    [2 * repeat] times; nothing is printed and the generator does not
    move. *)
Theorem bench_one_call_count (a : algo) (data : list Z) (repeat number : Z)
    (w : world) :
  0 < repeat →
  0 < number < 2 ^ 63 →
  ∃ t w',
    bench_one (call_algo_on_copy a) data repeat number w = (Ok t, w') ∧
    calls w' = calls w ++ replicate (Z.to_nat (repeat * number)) (a, data) ∧
    ticks w' = (ticks w + 2 * Z.to_nat repeat)%nat ∧
    stdout w' = stdout w ∧ rng w' = rng w ∧ clock w' = clock w.
Proof.
  intros Hrep [Hnum _].
  assert (∀ w0, ∃ out w1, call_algo_on_copy a data w0 = (Ok out, w1)) as Hok.
  { intros w0. destruct (call_algo_on_copy_ok a data w0) as (out & ?).
    by eexists _, _. }
  eexists _, _. split; [by apply bench_one_batches|].
  destruct (batch_times_fields a data (Z.to_nat number) (Z.to_nat repeat) w)
    as (? & ? & ? & ?).
  split_and!; [|done..].
  rewrite batch_times_calls. do 2 f_equal. lia.
Qed.

End TimerExtras.

Lemma bench_one_without_batches_witness :
  0 ≤ 0 ∧
  @bench_one sample_runtime (call_algo_on_copy Merge) [3; 1; 2] 0 1 sample_world
  = (Raise ZeroDivisionError, sample_world).
Proof.
  split; [lia|].
  refine (@bench_one_without_batches sample_runtime (call_algo_on_copy Merge)
            [3; 1; 2] 0 1 sample_world _). lia.
Defined.

Lemma bench_one_idle_batches_witness :
  0 < 2 ∧ - 2 ^ 63 ≤ -1 ≤ 0 ∧
  @bench_one sample_runtime (call_algo_on_copy Merge) [3; 1; 2] 2 (-1)
    sample_world =
    (Ok (@fdiv_int sample_runtime
           (@fdiv_int sample_runtime (@fsum sample_runtime [7; 7]) 2) (-1)),
     Nat.iter 4 tick sample_world) ∧
  calls (Nat.iter 4 tick sample_world) = calls sample_world ∧
  ticks (Nat.iter 4 tick sample_world) = 4%nat.
Proof.
  split; [lia|]. split; [lia|].
  refine (@bench_one_idle_batches sample_runtime (call_algo_on_copy Merge)
            [3; 1; 2] 2 (-1) sample_world eq_refl _). lia.
Defined.

Lemma bench_one_call_count_witness :
  0 < 2 ∧ 0 < 3 < 2 ^ 63 ∧
  ∃ t w',
    @bench_one sample_runtime (call_algo_on_copy Insertion) [3; 1; 2] 2 3
      sample_world = (Ok t, w') ∧
    calls w' = calls sample_world ++ replicate 6 (Insertion, [3; 1; 2]) ∧
    ticks w' = 4%nat ∧
    stdout w' = stdout sample_world ∧ rng w' = rng sample_world ∧
    clock w' = clock sample_world.
Proof.
  split; [lia|]. split; [lia|].
  exact (@bench_one_call_count sample_runtime Insertion [3; 1; 2] 2 3
           sample_world eq_refl (conj eq_refl eq_refl)).
Defined.

(** ** The table and the entry point *)

Section DriverExtras.
Context `{RT : Runtime}.
Implicit Types (w : world).
#[local] Existing Instance rng_step_preorder.
#[local] Existing Instance timing_step_preorder.

(** *** The size list *)

Lemma parse_sizes_mapM (xs : list string) w :
  parse_sizes xs w =
    (match mapM py_int (filter (λ x, str_strip x ≠ EmptyString) xs) with
     | Some ns => Ok ns
     | None => Raise ValueError
     end, w).
Proof.
  induction xs as [|x xs IH]; [done|].
  cbn [parse_sizes]. case_decide as Hblank.
  - by rewrite filter_cons_False by (by intros ?).
  - rewrite filter_cons_True by done. cbn [mapM].
    destruct (py_int x) as [n|]; [|done]. simpl.
    unfold bind. rewrite IH. by destruct (mapM py_int _).
Qed.

(** *** Loops *)

Lemma for_fold_ok {B C} (xs : list B) (body : B → C → M world C) :
  (∀ x acc w, ∃ acc' w', body x acc w = (Ok acc', w')) →
  ∀ acc w, ∃ acc' w', for_fold xs acc body w = (Ok acc', w').
Proof.
  intros Hbody. induction xs as [|x xs IH]; intros acc w; cbn [for_fold].
  - by eexists _, _.
  - destruct (Hbody x acc w) as (acc' & w' & Hrun).
    rewrite (bind_ok _ _ _ _ _ Hrun). apply IH.
Qed.

Lemma for_each_rows {X K} (R : K → line → Prop) (f : X → list K)
    (body : X → M world unit) (xs : list X) :
  (∀ x w, x ∈ xs →
     ∃ out w', body x w = (Ok (), w') ∧ stdout w' = stdout w ++ out ∧
               Forall2 R (f x) out) →
  ∀ w, ∃ out w', for_each xs body w = (Ok (), w') ∧
                 stdout w' = stdout w ++ out ∧ Forall2 R (xs ≫= f) out.
Proof.
  induction xs as [|x xs IH]; intros Hbody w.
  - exists [], w. rewrite app_nil_r. split_and!; [done..|constructor].
  - destruct (Hbody x w) as (o1 & w1 & Hx & Ho1 & HR1);
      [apply list_elem_of_here|].
    destruct IH with (w := w1) as (o2 & w2 & Hxs & Ho2 & HR2).
    { intros y w0 Hy. apply Hbody. by apply list_elem_of_further. }
    exists (o1 ++ o2), w2. cbn [for_each]. rewrite (bind_ok _ _ _ _ _ Hx).
    split_and!; [done|by rewrite Ho2, Ho1, app_assoc|].
    rewrite bind_cons. by apply Forall2_app.
Qed.

Lemma for_each_app {X} (body : X → M world unit) (pre post : list X) :
  ∀ w w1,
  for_each pre body w = (Ok (), w1) →
  for_each (pre ++ post) body w = for_each post body w1.
Proof.
  induction pre as [|x pre IH]; intros w w1 Hrun.
  - by apply ret_inv in Hrun as [_ ->].
  - rewrite <-app_comm_cons. cbn [for_each] in *.
    apply bind_inv_ok in Hrun as ([] & w0 & Hx & Hrest).
    rewrite (bind_ok _ _ _ _ _ Hx). by apply IH.
Qed.

Lemma first_nonpositive (ns : list Z) :
  Forall (λ n, 0 < n) ns ∨
  ∃ pre n post, ns = pre ++ n :: post ∧ Forall (λ n, 0 < n) pre ∧ n ≤ 0.
Proof.
  induction ns as [|n ns [IH|(pre & m & post & -> & Hpre & Hm)]].
  - by left.
  - destruct (decide (0 < n)) as [Hn|Hn].
    + left. by constructor.
    + right. exists [], n, ns. split_and!; [done|constructor|lia].
  - destruct (decide (0 < n)) as [Hn|Hn].
    + right. exists (n :: pre), m, post. split_and!; [done|by constructor|done].
    + right. exists [], n, (pre ++ m :: post). split_and!; [done|constructor|lia].
Qed.

(** *** The timer, whatever the counts *)

Lemma bench_one_ok (func : list Z → M world (list Z)) data
    (repeat number : Z) w :
  0 < repeat → number ≠ 0 →
  (∀ w0, ∃ out w1, func data w0 = (Ok out, w1)) →
  ∃ t w', bench_one func data repeat number w = (Ok t, w').
Proof.
  intros Hrep Hnum Hok. destruct (decide (0 < number)) as [Hpos|Hneg].
  - eexists _, _. by apply bench_one_batches.
  - assert (number ≤ 0) as Hle by lia.
    destruct (list_comp_idle (py_range 0 repeat) (func data ;; ret ()) number
                Hle w) as (times & Hrun & Hlen).
    unfold py_range in Hrun, Hlen.
    rewrite length_seqZ, Z.sub_0_r in Hrun, Hlen.
    unfold bench_one, timer_repeat, py_range.
    rewrite Z.sub_0_r, (bind_ok _ _ _ _ _ Hrun), Hlen.
    unfold py_div. rewrite Z2Nat.id by lia.
    rewrite decide_False by lia. cbn [bind ret].
    rewrite decide_False by lia. by eexists _, _.
Qed.

Lemma bench_one_zero_div (func : list Z → M world (list Z)) data
    (repeat number : Z) w :
  repeat ≤ 0 ∨ number = 0 →
  ∃ w', bench_one func data repeat number w = (Raise ZeroDivisionError, w') ∧
        rng w' = rng w ∧ stdout w' = stdout w ∧ calls w' = calls w ∧
        (repeat ≤ 0 → w' = w).
Proof.
  intros Hbad. destruct (decide (repeat ≤ 0)) as [Hrep|Hrep].
  - exists w. by rewrite bench_one_no_batch.
  - destruct Hbad as [Hr | ->]; [done|].
    destruct (list_comp_idle (py_range 0 repeat) (func data ;; ret ()) 0
                (Z.le_refl 0) w) as (times & Hrun & Hlen).
    unfold py_range in Hrun, Hlen.
    rewrite length_seqZ, Z.sub_0_r in Hrun, Hlen.
    pose proof (iter_tick_fields (2 * Z.to_nat repeat) w)
      as (Hrng & _ & _ & Hout & Hcalls).
    exists (Nat.iter (2 * Z.to_nat repeat) tick w).
    split_and!; [|done..|lia].
    unfold bench_one, timer_repeat, py_range.
    rewrite Z.sub_0_r, (bind_ok _ _ _ _ _ Hrun), Hlen.
    unfold py_div. rewrite Z2Nat.id by lia.
    rewrite decide_False by lia. cbn [bind ret].
    by rewrite decide_True by done.
Qed.

Lemma time_algos_ok n data repeat number ceiling w :
  0 < repeat → number ≠ 0 →
  ∃ times_ms w', time_algos n data repeat number ceiling w = (Ok times_ms, w').
Proof.
  intros Hrep Hnum. unfold time_algos. apply for_fold_ok.
  intros [algo_name a] acc w0. case_decide; [by eexists _, _|].
  destruct (bench_one_ok (call_algo_on_copy a) data repeat number w0)
    as (t & w1 & Hrun); [done..| |].
  { intros w2. destruct (call_algo_on_copy_ok a data w2) as [out ?].
    by exists out, (log_call a data w2). }
  rewrite (bind_ok _ _ _ _ _ Hrun). by eexists _, _.
Qed.

Lemma time_algos_zero_div n data repeat number ceiling w :
  repeat ≤ 0 ∨ number = 0 →
  ∃ w', time_algos n data repeat number ceiling w
        = (Raise ZeroDivisionError, w') ∧
        rng w' = rng w ∧ stdout w' = stdout w ∧ calls w' = calls w ∧
        (repeat ≤ 0 → w' = w).
Proof.
  intros Hbad. unfold time_algos, algos. cbn [for_fold]. cbn beta iota.
  destruct (decide ("Insertion" = "Insertion" ∧ n > ceiling)) as [Hskip|Hrun].
  - rewrite (bind_ok _ _ _ _ _ (eq_refl : ret _ w = (Ok _, w))).
    rewrite (decide_False (P := "Merge" = "Insertion" ∧ _)) by (by intros [? _]).
    destruct (bench_one_zero_div (call_algo_on_copy Merge) data repeat number
                w Hbad) as (w' & Hb & ?).
    exists w'. split; [|done]. by apply bind_raise, bind_raise.
  - destruct (bench_one_zero_div (call_algo_on_copy Insertion) data repeat
                number w Hbad) as (w' & Hb & ?).
    exists w'. split; [|done]. by apply bind_raise, bind_raise.
Qed.

(** *** One row *)

Lemma bench_row_prints n name gen repeat number ceiling w data w1 :
  gen n w = (Ok data, w1) → stdout w1 = stdout w →
  0 < repeat → number ≠ 0 →
  ∃ l w', bench_row n name gen repeat number ceiling w = (Ok (), w') ∧
          stdout w' = stdout w ++ [l] ∧ row_of ceiling (n, name) l.
Proof.
  intros Hgen Hout Hrep Hnum. unfold bench_row.
  rewrite (bind_ok _ _ _ _ _ Hgen).
  destruct (time_algos_ok n data repeat number ceiling w1 Hrep Hnum)
    as (d & w2 & Ht).
  rewrite (bind_ok _ _ _ _ _ Ht).
  pose proof (steps_time_algos n data repeat number ceiling w1) as Hs.
  rewrite Ht in Hs. destruct Hs as (_ & Hout2 & _). simpl in Hout2.
  destruct (decide (n > ceiling)) as [Hn|Hn].
  - destruct (time_algos_above _ _ _ _ _ _ _ _ Hn Ht)
      as (Hi & [t1 Hm] & [t2 Ht2]).
    unfold cell_or_marker, cell. rewrite Hi, Hm, Ht2. cbn [bind ret].
    eexists _, _. split; [reflexivity|]. split.
    { simpl. by rewrite Hout2, Hout. }
    exists not_measured, (fmt2 t1), (fmt2 t2).
    split_and!; [done|done|]. simpl. intros. lia.
  - assert (n ≤ ceiling) as Hle by lia.
    destruct (time_algos_below _ _ _ _ _ _ _ _ Hle Ht)
      as (t0 & _ & _ & Hi & [t1 Hm] & [t2 Ht2] & _).
    unfold cell_or_marker, cell. rewrite Hi, Hm, Ht2. cbn [bind ret].
    eexists _, _. split; [reflexivity|]. split.
    { simpl. by rewrite Hout2, Hout. }
    exists (fmt2 (to_ms t0)), (fmt2 t1), (fmt2 t2).
    split_and!; [done| |by eexists]. simpl. intros. lia.
Qed.

Lemma make_random_ok n w :
  ∃ l w', make_random n w = (Ok l, w') ∧ rng_step w w'.
Proof.
  assert (0 ≤ 10 ^ 9) as H9 by lia.
  destruct (list_comp_ok (py_range 0 n) (λ _, randint 0 (10 ^ 9))
              (λ _ w0, randint_ok 0 (10 ^ 9) w0 H9) w)
    as (l & w' & Hrun & _).
  exists l, w'. split; [done|].
  pose proof (steps_datasets "random" make_random n) as Hs.
  specialize (Hs ltac:(apply list_elem_of_here) w).
  unfold make_random in Hs. by rewrite Hrun in Hs.
Qed.

(** *** The table *)

Lemma size_loop_rows {HL : RuntimeLaws RT} ns repeat number ceiling w :
  Forall (λ n, 0 < n) ns → 0 < repeat → number ≠ 0 →
  ∃ rows w',
    for_each ns (λ n,
      for_each DATASETS (λ '(name, gen),
        bench_row n name gen repeat number ceiling)) w = (Ok (), w') ∧
    stdout w' = stdout w ++ rows ∧
    Forall2 (row_of ceiling) (table_keys ns) rows.
Proof.
  intros Hns Hrep Hnum.
  apply (for_each_rows (row_of ceiling) (λ n, DATASETS ≫= λ d, [(n, d.1)])).
  intros n w1 Hn.
  apply (for_each_rows (row_of ceiling) (λ d, [(n, d.1)])).
  intros [name gen] w2 Hd.
  assert (0 < n) as Hpos by (by eapply Forall_forall in Hns).
  destruct (generators_return name gen n w2 Hd (or_introl Hpos))
    as (data & w3 & Hgen & _).
  pose proof (steps_datasets name gen n Hd w2) as Hs.
  rewrite Hgen in Hs. destruct Hs as (_ & _ & Hout & _). simpl in Hout.
  destruct (bench_row_prints n name gen repeat number ceiling w2 data w3)
    as (l & w4 & ? & ? & ?); [done..|].
  exists [l], w4. split_and!; [done..|]. by constructor.
Qed.

Lemma run_bench_head ns repeat number ceiling w :
  run_bench ns repeat number ceiling w =
    for_each ns (λ n,
      for_each DATASETS (λ '(name, gen),
        bench_row n name gen repeat number ceiling))
      (write_line TableRule (write_line TableHead
         (write_line (BenchTitle repeat number) w))).
Proof. done. Qed.

Lemma stdout_head repeat number w :
  stdout (write_line TableRule (write_line TableHead
            (write_line (BenchTitle repeat number) w)))
  = stdout w ++ table_head repeat number.
Proof. simpl. by rewrite <-!app_assoc. Qed.

Lemma run_bench_rows {HL : RuntimeLaws RT} ns repeat number ceiling w :
  Forall (λ n, 0 < n) ns → 0 < repeat → number ≠ 0 →
  ∃ rows w',
    run_bench ns repeat number ceiling w = (Ok (), w') ∧
    stdout w' = stdout w ++ table_head repeat number ++ rows ∧
    Forall2 (row_of ceiling) (table_keys ns) rows.
Proof.
  intros Hns Hrep Hnum. rewrite run_bench_head.
  destruct (size_loop_rows ns repeat number ceiling
    (write_line TableRule (write_line TableHead
       (write_line (BenchTitle repeat number) w))) Hns Hrep Hnum)
    as (rows & w' & Hrun & Hout & Hrows).
  exists rows, w'. split_and!; [done| |done].
  by rewrite Hout, stdout_head, app_assoc.
Qed.

Lemma datasets_loop_stops n repeat number ceiling w :
  n ≤ 0 → 0 < repeat → number ≠ 0 →
  ∃ rows w',
    for_each DATASETS (λ '(name, gen),
      bench_row n name gen repeat number ceiling) w
    = (Raise ValueError, w') ∧
    stdout w' = stdout w ++ rows ∧
    Forall2 (row_of ceiling)
      [(n, "random"); (n, "sorted"); (n, "reverse")] rows.
Proof.
  intros Hn Hrep Hnum. unfold DATASETS. cbn [for_each].
  assert (py_range 0 n = []) as Hrange
    by (unfold py_range; apply seqZ_nil; lia).
  destruct (bench_row_prints n "random" make_random repeat number ceiling
              w [] w) as (l1 & w1 & H1 & Ho1 & HR1); [|done..|].
  { unfold make_random. by rewrite Hrange. }
  destruct (bench_row_prints n "sorted" make_sorted repeat number ceiling
              w1 (py_range 0 n) w1) as (l2 & w2 & H2 & Ho2 & HR2); [done..|].
  destruct (bench_row_prints n "reverse" make_reverse repeat number ceiling
              w2 (py_range_down n 0) w2) as (l3 & w3 & H3 & Ho3 & HR3);
    [done..|].
  rewrite (bind_ok _ _ _ _ _ H1), (bind_ok _ _ _ _ _ H2),
    (bind_ok _ _ _ _ _ H3).
  exists [l1; l2; l3], w3. split_and!.
  - apply bind_raise. unfold bench_row. apply bind_raise.
    unfold make_nearly_sorted, py_range.
    rewrite (seqZ_cons 0 (Z.max 1 _ - 0)) by lia. cbn [for_fold].
    by apply bind_raise, bind_raise, randrange_empty.
  - rewrite Ho3, Ho2, Ho1. by rewrite <-!app_assoc.
  - by repeat constructor.
Qed.

Lemma run_bench_stops {HL : RuntimeLaws RT} pre n post repeat number
    ceiling w :
  Forall (λ n, 0 < n) pre → n ≤ 0 → 0 < repeat → number ≠ 0 →
  ∃ rows w',
    run_bench (pre ++ n :: post) repeat number ceiling w
    = (Raise ValueError, w') ∧
    stdout w' = stdout w ++ table_head repeat number ++ rows ∧
    Forall2 (row_of ceiling)
      (table_keys pre ++ [(n, "random"); (n, "sorted"); (n, "reverse")])
      rows.
Proof.
  intros Hpre Hn Hrep Hnum. rewrite run_bench_head.
  destruct (size_loop_rows pre repeat number ceiling
    (write_line TableRule (write_line TableHead
       (write_line (BenchTitle repeat number) w))) Hpre Hrep Hnum)
    as (rows1 & w1 & Hrun1 & Hout1 & Hrows1).
  destruct (datasets_loop_stops n repeat number ceiling w1 Hn Hrep Hnum)
    as (rows2 & w2 & Hrun2 & Hout2 & Hrows2).
  exists (rows1 ++ rows2), w2. split_and!.
  - rewrite (for_each_app _ _ _ _ _ Hrun1). cbn [for_each].
    by apply bind_raise.
  - rewrite Hout2, Hout1, stdout_head. by rewrite <-!app_assoc.
  - by apply Forall2_app.
Qed.

Lemma run_bench_zero_div n ns repeat number ceiling w :
  repeat ≤ 0 ∨ number = 0 →
  ∃ w',
    run_bench (n :: ns) repeat number ceiling w
    = (Raise ZeroDivisionError, w') ∧
    stdout w' = stdout w ++ table_head repeat number ∧
    calls w' = calls w ∧
    (repeat ≤ 0 → ticks w' = ticks w).
Proof.
  intros Hbad. rewrite run_bench_head.
  set (w0 := write_line TableRule (write_line TableHead
               (write_line (BenchTitle repeat number) w))).
  destruct (make_random_ok n w0) as (data & w1 & Hgen & _ & Hticks & Hout & Hcalls).
  destruct (time_algos_zero_div n data repeat number ceiling w1 Hbad)
    as (w2 & Hrun & _ & Hout2 & Hcalls2 & Hsame).
  exists w2. split_and!.
  - cbn [for_each]. apply bind_raise. unfold DATASETS. cbn [for_each].
    apply bind_raise. unfold bench_row. rewrite (bind_ok _ _ _ _ _ Hgen).
    by apply bind_raise.
  - rewrite Hout2, Hout. apply stdout_head.
  - by rewrite Hcalls2, Hcalls.
  - intros Hrep. by rewrite (Hsame Hrep), Hticks.
Qed.

(** *** The scaling report *)

Lemma steps_call_algo (P : algo → Prop) a d :
  P a → steps (timing_step P) (call_algo a d).
Proof.
  intros Ha w. unfold call_algo.
  assert (timing_step P w (log_call a d w)) as Hstep.
  { split_and!; [done..|]. exists [(a, d)]. split; [done|]. by repeat constructor. }
  by destruct (in_store _ d).
Qed.

Lemma scaling_loop (a : algo) (ns : list Z) : ∀ prev w,
  ∃ ts last w',
    for_fold ns prev (λ n (prev_t : option pyfloat),
      let! data := make_random n in
      let! t := bench_one (call_algo a) data 3 1 in
      let prev_true :=
        match prev_t with
        | Some p => truthy p
        | None => false
        end in
      let ratio :=
        match prev_t with
        | Some p => if truthy p then fdiv t p else nan
        | None => nan
        end in
      print (ScalingRow n (fmt2 (to_ms t))
               (if prev_true then Some (fmt2 ratio) else None)) ;;
      ret (Some t)) w = (Ok last, w') ∧
    length ts = length ns ∧
    stdout w' = stdout w ++ scaling_rows prev ns ts.
Proof.
  induction ns as [|n ns IH]; intros prev w.
  - exists [], prev, w. by rewrite app_nil_r.
  - cbn [for_fold].
    destruct (make_random_ok n w) as (data & w1 & Hgen & _ & _ & Hout1 & _).
    destruct (bench_one_ok (call_algo a) data 3 1 w1) as (t & w2 & Hrun);
      [lia|lia| |].
    { intros w0. destruct (call_algo_ok a data w0) as [out ?].
      by exists out, (log_call a data w0). }
    pose proof (steps_bench_one (λ _, True) (call_algo a) data 3 1
                  (steps_call_algo _ a data I) w1) as Hs.
    rewrite Hrun in Hs. destruct Hs as (_ & Hout2 & _). simpl in Hout2.
    erewrite bind_ok; last first.
    { rewrite (bind_ok _ _ _ _ _ Hgen), (bind_ok _ _ _ _ _ Hrun).
      reflexivity. }
    destruct (IH (Some t) (write_line
      (ScalingRow n (fmt2 (to_ms t))
         (if match prev with Some p => truthy p | None => false end
          then Some (fmt2 (match prev with
                           | Some p => if truthy p then fdiv t p else nan
                           | None => nan
                           end))
          else None)) w2)) as (ts & last & w' & Hrest & Hlen & Hout).
    exists (t :: ts), last, w'. split_and!; [done|by simpl; rewrite Hlen|].
    rewrite Hout. simpl. rewrite Hout2, Hout1, <-app_assoc. simpl.
    do 3 f_equal. destruct prev as [p|]; [|done]. by destruct (truthy p).
Qed.

Lemma scaling_block_prints (algo_name : string) (a : algo) w :
  ∃ ls w',
    (let ns := [2000; 4000; 8000; 16000] in
     let ns :=
       if decide (algo_name = "Insertion") then [1000; 2000; 4000; 8000]
       else ns in
     print (ScalingAlgo algo_name) ;;
     for_fold ns None (λ n (prev_t : option pyfloat),
       let! data := make_random n in
       let! t := bench_one (call_algo a) data 3 1 in
       let prev_true :=
         match prev_t with
         | Some p => truthy p
         | None => false
         end in
       let ratio :=
         match prev_t with
         | Some p => if truthy p then fdiv t p else nan
         | None => nan
         end in
       print (ScalingRow n (fmt2 (to_ms t))
                (if prev_true then Some (fmt2 ratio) else None)) ;;
       ret (Some t)) ;;
     ret ()) w = (Ok (), w') ∧
    stdout w' = stdout w ++ ls ∧
    scaling_block algo_name
      (if decide (algo_name = "Insertion") then [1000; 2000; 4000; 8000]
       else [2000; 4000; 8000; 16000]) ls.
Proof.
  cbn zeta.
  destruct (scaling_loop a
    (if decide (algo_name = "Insertion") then [1000; 2000; 4000; 8000]
     else [2000; 4000; 8000; 16000]) None
    (write_line (ScalingAlgo algo_name) w))
    as (ts & last & w' & Hrun & Hlen & Hout).
  exists (ScalingAlgo algo_name :: scaling_rows None
    (if decide (algo_name = "Insertion") then [1000; 2000; 4000; 8000]
     else [2000; 4000; 8000; 16000]) ts), w'.
  split_and!.
  - rewrite (bind_ok _ _ _ _ _
      (eq_refl : print (ScalingAlgo algo_name) w = (Ok (), write_line _ w))).
    by rewrite (bind_ok _ _ _ _ _ Hrun).
  - rewrite Hout. simpl. by rewrite <-app_assoc.
  - by exists ts.
Qed.

Lemma analyze_scaling_prints w :
  ∃ ins mer tim w',
    analyze_scaling w = (Ok (), w') ∧
    stdout w' = stdout w ++ ScalingTitle :: ins ++ mer ++ tim ∧
    scaling_block "Insertion" [1000; 2000; 4000; 8000] ins ∧
    scaling_block "Merge" [2000; 4000; 8000; 16000] mer ∧
    scaling_block "Timsort(sorted)" [2000; 4000; 8000; 16000] tim.
Proof.
  unfold analyze_scaling, algos. cbn [for_each].
  rewrite (bind_ok _ _ _ _ _
    (eq_refl : print ScalingTitle w = (Ok (), write_line _ w))).
  destruct (scaling_block_prints "Insertion" Insertion
              (write_line ScalingTitle w)) as (ins & w1 & H1 & Ho1 & Hb1).
  destruct (scaling_block_prints "Merge" Merge w1)
    as (mer & w2 & H2 & Ho2 & Hb2).
  destruct (scaling_block_prints "Timsort(sorted)" Timsort w2)
    as (tim & w3 & H3 & Ho3 & Hb3).
  rewrite decide_True in Hb1 by done.
  rewrite decide_False in Hb2 by done.
  rewrite decide_False in Hb3 by done.
  exists ins, mer, tim, w3. split_and!; [|  |done..].
  - rewrite (bind_ok _ _ _ _ _ H1), (bind_ok _ _ _ _ _ H2).
    by rewrite (bind_ok _ _ _ _ _ H3).
  - rewrite Ho3, Ho2, Ho1. simpl. rewrite <-!app_assoc. done.
Qed.

(** *** The entry point *)

Lemma main_after_table (a : args) w ns w1 :
  parse_sizes (split_comma (arg_sizes a)) (set_rng (seed_state 42) w)
  = (Ok ns, set_rng (seed_state 42) w) →
  run_bench ns (arg_repeat a) (arg_number a) (arg_ins_max a)
    (set_rng (seed_state 42) w) = (Ok (), w1) →
  ∃ rest w',
    main a w = (Ok 0, w') ∧
    stdout w' = stdout w1 ++ rest ∧
    if arg_no_scaling a then rest = []
    else ∃ ins mer tim,
      rest = ScalingTitle :: ins ++ mer ++ tim ∧
      scaling_block "Insertion" [1000; 2000; 4000; 8000] ins ∧
      scaling_block "Merge" [2000; 4000; 8000; 16000] mer ∧
      scaling_block "Timsort(sorted)" [2000; 4000; 8000; 16000] tim.
Proof.
  intros Hparse Hbench. unfold main.
  rewrite (bind_ok _ _ _ _ _
    (eq_refl : random_seed 42 w = (Ok (), set_rng (seed_state 42) w))).
  rewrite (bind_ok _ _ _ _ _ Hparse), (bind_ok _ _ _ _ _ Hbench).
  destruct (arg_no_scaling a); cbn [negb].
  - exists [], w1. by rewrite app_nil_r.
  - destruct (analyze_scaling_prints w1)
      as (ins & mer & tim & w2 & Hrun & Hout & Hblocks).
    rewrite (bind_ok _ _ _ _ _ Hrun).
    exists (ScalingTitle :: ins ++ mer ++ tim), w2.
    split_and!; [done..|]. by exists ins, mer, tim.
Qed.

Lemma main_stops (a : args) w ns e w1 :
  parse_sizes (split_comma (arg_sizes a)) (set_rng (seed_state 42) w)
  = (Ok ns, set_rng (seed_state 42) w) →
  run_bench ns (arg_repeat a) (arg_number a) (arg_ins_max a)
    (set_rng (seed_state 42) w) = (Raise e, w1) →
  main a w = (Raise e, w1).
Proof.
  intros Hparse Hbench. unfold main.
  rewrite (bind_ok _ _ _ _ _
    (eq_refl : random_seed 42 w = (Ok (), set_rng (seed_state 42) w))).
  rewrite (bind_ok _ _ _ _ _ Hparse).
  by rewrite (bind_raise _ _ _ _ _ Hbench).
Qed.

Lemma table_keys_length (ns : list Z) :
  length (table_keys ns) = (5 * length ns)%nat.
Proof.
  unfold table_keys. induction ns as [|n ns IH]; [done|].
  rewrite bind_cons, length_app, IH. simpl. lia.
Qed.

(** X13: the size list is read all or nothing, and without a trace: the
    entries that [strip] leaves empty are dropped; when [int] reads all
    the others, the result is their values, in the order of the list
    and with repetitions kept; when [int] fails on one of them, the
    result is ValueError. *)
Theorem size_list_read (xs : list string) (w : world) :
  parse_sizes xs w =
    (match mapM py_int (filter (λ x, str_strip x ≠ EmptyString) xs) with
     | Some ns => Ok ns
     | None => Raise ValueError
     end, w).
Proof. apply parse_sizes_mapM. Qed.

(** X14: with [repeat <= 0] or [number = 0] and at least one size,
    [run_bench] prints the three lines of the head and then raises
    ZeroDivisionError in the first row, of whatever size: no row is
    printed and no sorting function is called; for [repeat <= 0] the
    clock is not read either. *)
Theorem run_bench_zero_division (n : Z) (ns : list Z)
    (repeat number ceiling : Z) (w : world) :
  repeat ≤ 0 ∨ number = 0 →
  ∃ w',
    run_bench (n :: ns) repeat number ceiling w
    = (Raise ZeroDivisionError, w') ∧
    stdout w' = stdout w ++ table_head repeat number ∧
    calls w' = calls w ∧
    (repeat ≤ 0 → ticks w' = ticks w).
Proof. apply run_bench_zero_div. Qed.

(** X15: for sizes that are all at least 1 and below [2^63],
    [repeat >= 1] and a count [number] of the range [-2^63, 2^63) other
    than zero, [run_bench] returns, having printed the head and then
    five rows a size, in the order of the sizes and, within a size, of
    [DATASETS]; the cell of insertion sort holds the marker in the rows
    above the ceiling and a time in the others. *)
Theorem run_bench_table {HL : RuntimeLaws RT} (ns : list Z)
    (repeat number ceiling : Z) (w : world) :
  Forall (λ n, 0 < n < 2 ^ 63) ns → 0 < repeat →
  - 2 ^ 63 ≤ number < 2 ^ 63 → number ≠ 0 →
  ∃ rows w',
    run_bench ns repeat number ceiling w = (Ok (), w') ∧
    stdout w' = stdout w ++ table_head repeat number ++ rows ∧
    Forall2 (row_of ceiling) (table_keys ns) rows ∧
    length rows = (5 * length ns)%nat.
Proof.
  intros Hns Hrep _ Hnum.
  assert (Forall (λ n, 0 < n) ns) as Hpos
    by (eapply Forall_impl; [exact Hns|]; simpl; intros; lia).
  destruct (run_bench_rows ns repeat number ceiling w Hpos Hrep Hnum)
    as (rows & w' & Hrun & Hout & Hrows).
  exists rows, w'. split_and!; [done..|].
  by rewrite <-(Forall2_length _ _ _ Hrows), table_keys_length.
Qed.

(** X16: at the first size that is zero or negative, down to [-2^63],
    after sizes that are all at least 1 and below [2^63], and with
    [repeat >= 1] and a count [number] of the range [-2^63, 2^63) other
    than zero, [run_bench] raises ValueError, the sizes after it are
    not reached; by then it has printed the head, the rows of the sizes
    before, and three rows of the size itself, those of [random],
    [sorted] and [reverse], timed on the empty list. *)
Theorem run_bench_stops_at_nonpositive {HL : RuntimeLaws RT}
    (pre : list Z) (n : Z) (post : list Z) (repeat number ceiling : Z)
    (w : world) :
  Forall (λ n, 0 < n < 2 ^ 63) pre → - 2 ^ 63 ≤ n ≤ 0 → 0 < repeat →
  - 2 ^ 63 ≤ number < 2 ^ 63 → number ≠ 0 →
  ∃ rows w',
    run_bench (pre ++ n :: post) repeat number ceiling w
    = (Raise ValueError, w') ∧
    stdout w' = stdout w ++ table_head repeat number ++ rows ∧
    Forall2 (row_of ceiling)
      (table_keys pre ++ [(n, "random"); (n, "sorted"); (n, "reverse")])
      rows.
Proof.
  intros Hpre [_ Hn] Hrep _ Hnum. apply run_bench_stops; [|done..].
  eapply Forall_impl; [exact Hpre|]. simpl. intros. lia.
Qed.

(** X17: [analyze_scaling] returns from every world: it prints its
    title and, for insertion sort at the sizes 1000 to 8000 and for the
    two other functions at the sizes 2000 to 16000, the name and one
    row a size, with the ratio of the time to that of the row above;
    the first row of a function has no ratio, and neither has a row
    under a time of zero. *)
Theorem analyze_scaling_report (w : world) :
  ∃ ins mer tim w',
    analyze_scaling w = (Ok (), w') ∧
    stdout w' = stdout w ++ ScalingTitle :: ins ++ mer ++ tim ∧
    scaling_block "Insertion" [1000; 2000; 4000; 8000] ins ∧
    scaling_block "Merge" [2000; 4000; 8000; 16000] mer ∧
    scaling_block "Timsort(sorted)" [2000; 4000; 8000; 16000] tim.
Proof. apply analyze_scaling_prints. Qed.

(** X18: a run whose size list reads as sizes that are all at least 1
    and below [2^63], with [repeat >= 1] and a count [number] of the
    range [-2^63, 2^63) other than zero, returns 0; it prints the head
    of the table, the rows of the sizes, and then the scaling report
    unless [--no-scaling] is set, in which case nothing follows the
    table. *)
Theorem main_valid_run {HL : RuntimeLaws RT} (a : args) (ns : list Z)
    (w : world) :
  mapM py_int (filter (λ x, str_strip x ≠ EmptyString)
                 (split_comma (arg_sizes a))) = Some ns →
  Forall (λ n, 0 < n < 2 ^ 63) ns → 0 < arg_repeat a →
  - 2 ^ 63 ≤ arg_number a < 2 ^ 63 → arg_number a ≠ 0 →
  ∃ rows rest w',
    main a w = (Ok 0, w') ∧
    stdout w' =
      stdout w ++ table_head (arg_repeat a) (arg_number a) ++ rows ++ rest ∧
    Forall2 (row_of (arg_ins_max a)) (table_keys ns) rows ∧
    if arg_no_scaling a then rest = []
    else ∃ ins mer tim,
      rest = ScalingTitle :: ins ++ mer ++ tim ∧
      scaling_block "Insertion" [1000; 2000; 4000; 8000] ins ∧
      scaling_block "Merge" [2000; 4000; 8000; 16000] mer ∧
      scaling_block "Timsort(sorted)" [2000; 4000; 8000; 16000] tim.
Proof.
  intros Hread Hns Hrep _ Hnum.
  assert (Forall (λ n, 0 < n) ns) as Hpos
    by (eapply Forall_impl; [exact Hns|]; simpl; intros; lia).
  pose proof (parse_sizes_mapM (split_comma (arg_sizes a))
                (set_rng (seed_state 42) w)) as Hparse.
  rewrite Hread in Hparse.
  destruct (run_bench_rows ns (arg_repeat a) (arg_number a) (arg_ins_max a)
              (set_rng (seed_state 42) w) Hpos Hrep Hnum)
    as (rows & w1 & Hbench & Hout1 & Hrows).
  destruct (main_after_table a w ns w1 Hparse Hbench)
    as (rest & w' & Hmain & Hout & Hrest).
  exists rows, rest, w'. split_and!; [done| |done..].
  rewrite Hout, Hout1. simpl. by rewrite <-!app_assoc.
Qed.

(** X19: how a run ends, for a count [number] and for sizes of the
    range [-2^63, 2^63).  When [int] fails on an entry of the size list
    the run raises ValueError; otherwise, with no size at all it
    returns 0; with [repeat <= 0] or [number = 0] it raises
    ZeroDivisionError; with a size that is zero or negative it raises
    ValueError; and in every other case it returns 0. *)
Theorem main_exit {HL : RuntimeLaws RT} (a : args) (w : world) :
  - 2 ^ 63 ≤ arg_number a < 2 ^ 63 →
  (∀ ns, mapM py_int (filter (λ x, str_strip x ≠ EmptyString)
                        (split_comma (arg_sizes a))) = Some ns →
         Forall (λ n, - 2 ^ 63 ≤ n < 2 ^ 63) ns) →
  (main a w).1 =
    match mapM py_int (filter (λ x, str_strip x ≠ EmptyString)
                         (split_comma (arg_sizes a))) with
    | None => Raise ValueError
    | Some ns =>
        if decide (ns = []) then Ok 0
        else if decide (arg_repeat a ≤ 0 ∨ arg_number a = 0)
        then Raise ZeroDivisionError
        else if decide (Forall (λ n, 0 < n) ns) then Ok 0
        else Raise ValueError
    end.
Proof.
  intros _ _.
  pose proof (parse_sizes_mapM (split_comma (arg_sizes a))
                (set_rng (seed_state 42) w)) as Hparse.
  destruct (mapM py_int _) as [ns|].
  - case_decide as Hnil; [|case_decide as Hbad; [|case_decide as Hpos]].
    + subst ns.
      destruct (main_after_table a w [] _ Hparse eq_refl)
        as (rest & w' & -> & _). done.
    + destruct ns as [|n ns]; [done|].
      destruct (run_bench_zero_div n ns (arg_repeat a) (arg_number a)
                  (arg_ins_max a) (set_rng (seed_state 42) w) Hbad)
        as (w1 & Hbench & _).
      by rewrite (main_stops a w _ _ _ Hparse Hbench).
    + destruct (run_bench_rows ns (arg_repeat a) (arg_number a)
                  (arg_ins_max a) (set_rng (seed_state 42) w))
        as (rows & w1 & Hbench & _); [done|lia|lia|].
      destruct (main_after_table a w ns w1 Hparse Hbench)
        as (rest & w' & -> & _). done.
    + destruct (first_nonpositive ns)
        as [?|(pre & n & post & -> & Hpre & Hn)]; [done|].
      destruct (run_bench_stops pre n post (arg_repeat a) (arg_number a)
                  (arg_ins_max a) (set_rng (seed_state 42) w))
        as (rows & w1 & Hbench & _); [done|done|lia|lia|].
      by rewrite (main_stops a w _ _ _ Hparse Hbench).
  - unfold main.
    rewrite (bind_ok _ _ _ _ _
      (eq_refl : random_seed 42 w = (Ok (), set_rng (seed_state 42) w))).
    by rewrite (bind_raise _ _ _ _ _ Hparse).
Qed.

(** *** The ceiling of insertion sort *)


#[local] Instance calls_grow_preorder : PreOrder calls_grow.
Proof.
  split.
  - intros w. exists []. by rewrite app_nil_r.
  - intros w1 w2 w3 [n1 H1] [n2 H2]. exists (n1 ++ n2).
    by rewrite H2, H1, app_assoc.
Qed.












End DriverExtras.


(** The table of this run: the five rows of size 2 are timed, the five
    rows of size 3 show the marker, and insertion sort was called on the
    five lists of two elements only. *)
Example ceiling_table_example :
  let run := @run_bench sample_runtime [2; 3] 1 1 2 sample_world in
  run.1 = Ok () ∧
  stdout run.2 =
    [BenchTitle 1 1; TableHead; TableRule;
     TableRow 2 "random" "7000" "7000" "7000";
     TableRow 2 "sorted" "7000" "7000" "7000";
     TableRow 2 "reverse" "7000" "7000" "7000";
     TableRow 2 "nearly_sorted" "7000" "7000" "7000";
     TableRow 2 "many_duplicates" "7000" "7000" "7000";
     TableRow 3 "random" not_measured "7000" "7000";
     TableRow 3 "sorted" not_measured "7000" "7000";
     TableRow 3 "reverse" not_measured "7000" "7000";
     TableRow 3 "nearly_sorted" not_measured "7000" "7000";
     TableRow 3 "many_duplicates" not_measured "7000" "7000"] ∧
  filter (λ c, c.1 = Insertion) (calls run.2) =
    [(Insertion, [1; 103527589]); (Insertion, [0; 1]); (Insertion, [2; 1]);
     (Insertion, [1; 0]); (Insertion, [81; 74])].
Proof. vm_compute. done. Qed.

Lemma run_bench_zero_division_witness :
  (0 ≤ 0 ∨ 1 = 0) ∧
  ∃ w',
    @run_bench sample_runtime [5] 0 1 20000 sample_world
    = (Raise ZeroDivisionError, w') ∧
    stdout w' = stdout sample_world ++ table_head 0 1 ∧
    calls w' = calls sample_world ∧
    (0 ≤ 0 → ticks w' = ticks sample_world).
Proof.
  split; [left; lia|].
  apply (@run_bench_zero_division sample_runtime 5 [] 0 1 20000 sample_world).
  left; lia.
Defined.

Lemma run_bench_table_witness :
  Forall (λ n, 0 < n < 2 ^ 63) [2; 3] ∧ 0 < 1 ∧
  - 2 ^ 63 ≤ -1 < 2 ^ 63 ∧ -1 ≠ 0 ∧
  ∃ rows w',
    @run_bench sample_runtime [2; 3] 1 (-1) 20000 sample_world
    = (Ok (), w') ∧
    stdout w' = stdout sample_world ++ table_head 1 (-1) ++ rows ∧
    Forall2 (row_of (RT:=sample_runtime) 20000)
      (table_keys (RT:=sample_runtime) [2; 3]) rows ∧
    length rows = (5 * length [2; 3])%nat.
Proof.
  assert (Forall (λ n, 0 < n < 2 ^ 63) [2; 3]) as Hns
    by (repeat constructor; lia).
  assert (0 < 1) as Hrep by lia.
  assert (- 2 ^ 63 ≤ -1 < 2 ^ 63) as Hnum by lia.
  assert (-1 ≠ 0) as Hnz by lia.
  split; [exact Hns|]. split; [exact Hrep|]. split; [exact Hnum|].
  split; [exact Hnz|].
  exact (@run_bench_table sample_runtime sample_laws [2; 3] 1 (-1) 20000
           sample_world Hns Hrep Hnum Hnz).
Defined.

Lemma run_bench_stops_at_nonpositive_witness :
  Forall (λ n, 0 < n < 2 ^ 63) [2] ∧ - 2 ^ 63 ≤ 0 ≤ 0 ∧ 0 < 1 ∧
  - 2 ^ 63 ≤ 1 < 2 ^ 63 ∧ 1 ≠ 0 ∧
  ∃ rows w',
    @run_bench sample_runtime ([2] ++ 0 :: [4]) 1 1 20000 sample_world
    = (Raise ValueError, w') ∧
    stdout w' = stdout sample_world ++ table_head 1 1 ++ rows ∧
    Forall2 (row_of (RT:=sample_runtime) 20000)
      (table_keys (RT:=sample_runtime) [2]
         ++ [(0, "random"); (0, "sorted"); (0, "reverse")])
      rows.
Proof.
  assert (Forall (λ n, 0 < n < 2 ^ 63) [2]) as Hpre
    by (repeat constructor; lia).
  assert (- 2 ^ 63 ≤ 0 ≤ 0) as Hn by lia.
  assert (0 < 1) as Hrep by lia.
  assert (- 2 ^ 63 ≤ 1 < 2 ^ 63) as Hnum by lia.
  assert (1 ≠ 0) as Hnz by lia.
  split; [exact Hpre|]. split; [exact Hn|]. split; [exact Hrep|].
  split; [exact Hnum|]. split; [exact Hnz|].
  exact (@run_bench_stops_at_nonpositive sample_runtime sample_laws [2] 0 [4]
           1 1 20000 sample_world Hpre Hn Hrep Hnum Hnz).
Defined.

Lemma main_valid_run_witness :
  let a := Args "2,,3" 1 1 20000 true in
  mapM sample_int (filter (λ x, sample_strip x ≠ EmptyString)
                     (split_comma (arg_sizes a))) = Some [2; 3] ∧
  Forall (λ n, 0 < n < 2 ^ 63) [2; 3] ∧ 0 < arg_repeat a ∧
  - 2 ^ 63 ≤ arg_number a < 2 ^ 63 ∧ arg_number a ≠ 0 ∧
  ∃ rows rest w',
    @main sample_runtime a sample_world = (Ok 0, w') ∧
    stdout w' = stdout sample_world ++ table_head 1 1 ++ rows ++ rest ∧
    Forall2 (row_of (RT:=sample_runtime) 20000)
      (table_keys (RT:=sample_runtime) [2; 3]) rows ∧
    rest = [].
Proof.
  intros a.
  assert (mapM sample_int (filter (λ x, sample_strip x ≠ EmptyString)
            (split_comma (arg_sizes a))) = Some [2; 3]) as Hread
    by reflexivity.
  assert (Forall (λ n, 0 < n < 2 ^ 63) [2; 3]) as Hns
    by (repeat constructor; lia).
  assert (0 < arg_repeat a) as Hrep by (simpl; lia).
  assert (- 2 ^ 63 ≤ arg_number a < 2 ^ 63) as Hnum by (simpl; lia).
  assert (arg_number a ≠ 0) as Hnz by (simpl; lia).
  split; [exact Hread|]. split; [exact Hns|]. split; [exact Hrep|].
  split; [exact Hnum|]. split; [exact Hnz|].
  exact (@main_valid_run sample_runtime sample_laws a [2; 3] sample_world
           Hread Hns Hrep Hnum Hnz).
Defined.

Lemma main_exit_witness :
  let a := Args "3,0" 1 1 20000 true in
  RuntimeLaws sample_runtime ∧
  - 2 ^ 63 ≤ arg_number a < 2 ^ 63 ∧
  (∀ ns, mapM sample_int (filter (λ x, sample_strip x ≠ EmptyString)
                            (split_comma (arg_sizes a))) = Some ns →
         Forall (λ n, - 2 ^ 63 ≤ n < 2 ^ 63) ns) ∧
  (@main sample_runtime a sample_world).1 = Raise ValueError.
Proof.
  intros a.
  assert (- 2 ^ 63 ≤ arg_number a < 2 ^ 63) as Hnum by (simpl; lia).
  assert (∀ ns, mapM sample_int (filter (λ x, sample_strip x ≠ EmptyString)
                                   (split_comma (arg_sizes a))) = Some ns →
                Forall (λ n, - 2 ^ 63 ≤ n < 2 ^ 63) ns) as Hsizes.
  { intros ns Hread.
    assert (Some [3; 0] = Some ns) as Heq by (rewrite <-Hread; reflexivity).
    injection Heq as <-. repeat constructor; lia. }
  split; [exact sample_laws|]. split; [exact Hnum|]. split; [exact Hsizes|].
  exact (@main_exit sample_runtime sample_laws a sample_world Hnum Hsizes).
Defined.

(** ** The Koch snowflake *)

Section KochFacts.
Context `{CV : Canvas}.
Implicit Types (t seg : list Koch.event).

Lemma strokes_app t1 t2 :
  Koch.strokes (t1 ++ t2) = Koch.strokes t1 ++ Koch.strokes t2.
Proof. apply omap_app. Qed.

Lemma turning_app t1 t2 :
  Koch.turning (t1 ++ t2) = Koch.turning t1 + Koch.turning t2.
Proof.
  unfold Koch.turning. induction t1 as [|e t1 IH]; [done|].
  simpl. rewrite IH. destruct e; lia.
Qed.

Lemma drawing_app t1 t2 :
  Koch.drawing t1 → Koch.drawing t2 → Koch.drawing (t1 ++ t2).
Proof. apply Forall_app_2. Qed.

Lemma koch_segment_trace (level : nat) : ∀ len : num,
  ∃ seg,
    (∀ t, Koch.koch_segment len level t = (Ok (), t ++ seg)) ∧
    Koch.drawing seg ∧
    Koch.strokes seg
    = replicate (4 ^ level) (Nat.iter level (λ x, num_div x num_3) len) ∧
    Koch.turning seg = 0 ∧
    length seg = (2 * 4 ^ level - 1)%nat.
Proof.
  induction level as [|level IH]; intros len.
  - exists [Koch.Forward len]. split_and!; [done| |done..].
    by repeat constructor.
  - destruct (IH (num_div len num_3)) as (seg & Hrun & Hdraw & Hstr & Hturn & Hlen).
    exists (seg ++ [Koch.TurnLeft 60] ++ seg ++ [Koch.TurnRight 120] ++ seg
            ++ [Koch.TurnLeft 60] ++ seg).
    split_and!.
    + intros t. cbn [Koch.koch_segment]. unfold bind, Koch.emit.
      do 4 (rewrite Hrun; cbn beta iota zeta).
      by rewrite <-!app_assoc.
    + repeat (apply drawing_app; [done || by repeat constructor|]). done.
    + rewrite !strokes_app, Hstr. cbn [Koch.strokes omap]. simpl app.
      rewrite Nat.iter_succ_r, <-!replicate_add. f_equal.
      rewrite Nat.pow_succ_r'. lia.
    + rewrite !turning_app, Hturn. simpl. lia.
    + rewrite !length_app, Hlen. simpl. rewrite !Nat.add_0_r.
      assert (1 ≤ 4 ^ level)%nat by (apply Nat.neq_0_lt_0, Nat.pow_nonzero; lia).
      lia.
Qed.

Lemma koch_snowflake_trace (len : num) (level : nat) :
  ∃ seg,
    (∀ t, Koch.koch_snowflake len level t = (Ok (), t ++ seg)) ∧
    Koch.drawing seg ∧
    Koch.strokes seg
    = replicate (3 * 4 ^ level) (Nat.iter level (λ x, num_div x num_3) len) ∧
    Koch.turning seg = -360.
Proof.
  destruct (koch_segment_trace level len)
    as (seg & Hrun & Hdraw & Hstr & Hturn & _).
  exists (seg ++ [Koch.TurnRight 120] ++ seg ++ [Koch.TurnRight 120] ++ seg
          ++ [Koch.TurnRight 120]).
  split_and!.
  - intros t. unfold Koch.koch_snowflake.
    change (py_range 0 3) with [0; 1; 2]. cbn [for_each].
    unfold bind, Koch.emit, ret.
    do 3 (rewrite Hrun; cbn beta iota zeta).
    by rewrite <-!app_assoc.
  - repeat (apply drawing_app; [done || by repeat constructor|]).
    by repeat constructor.
  - rewrite !strokes_app, Hstr. cbn [Koch.strokes omap]. simpl app.
    rewrite !app_nil_r, <-!replicate_add. f_equal. lia.
  - rewrite !turning_app, Hturn. simpl. lia.
Qed.

(** X20: whatever the length and the level, [koch_segment] returns, and
    what it adds to the trace is strokes and turns only: [4 ^ level]
    strokes, each of the length divided [level] times by 3.0, and
    [4 ^ level - 1] turns between them that leave the turtle heading
    where it headed before. *)
Theorem koch_segment_strokes (len : num) (level : nat)
    (t : list Koch.event) :
  ∃ seg,
    Koch.koch_segment len level t = (Ok (), t ++ seg) ∧
    Koch.drawing seg ∧
    Koch.strokes seg
    = replicate (4 ^ level) (Nat.iter level (λ x, num_div x num_3) len) ∧
    Koch.turning seg = 0 ∧
    length seg = (2 * 4 ^ level - 1)%nat.
Proof.
  destruct (koch_segment_trace level len) as (seg & Hrun & Hrest).
  exists seg. by split.
Qed.

(** X21: [koch_snowflake] draws three such segments: [3 * 4 ^ level]
    strokes of one length, and turns that add up to one full turn to
    the right. *)
Theorem koch_snowflake_strokes (len : num) (level : nat)
    (t : list Koch.event) :
  ∃ seg,
    Koch.koch_snowflake len level t = (Ok (), t ++ seg) ∧
    Koch.drawing seg ∧
    Koch.strokes seg
    = replicate (3 * 4 ^ level) (Nat.iter level (λ x, num_div x num_3) len) ∧
    Koch.turning seg = -360.
Proof.
  destruct (koch_snowflake_trace len level) as (seg & Hrun & Hrest).
  exists seg. by split.
Qed.

(** X22: with a level below zero [main] prints its message and returns
    1; no screen is opened and no turtle is made. *)
Theorem koch_main_level_below_zero (a : Koch.args) (t : list Koch.event) :
  Koch.arg_level a < 0 →
  Koch.main a t = (Ok 1, t ++ [Koch.Say Koch.LevelBelowZero]).
Proof. intros Hlevel. unfold Koch.main. by rewrite decide_True by done. Qed.

(** X23: with a level of zero or more, a size that is a finite number
    and colors that the library takes, [main] returns 0, also above
    level 8, where it prints a warning first and goes on.  It sets up the screen and the turtle,
    moves with the pen up to the start, and draws the snowflake with
    the pen down: [3 * 4 ^ level] strokes and nothing but strokes and
    turns until the turtle is hidden.  A background that the library
    does not take stops the run with TurtleGraphicsError after the
    title is set, and such a line color stops it before the pen has
    moved. *)
Theorem koch_main_draws (a : Koch.args) (t : list Koch.event) :
  0 ≤ Koch.arg_level a →
  let warned :=
    t ++ (if decide (Koch.arg_level a > 8)
          then [Koch.Say Koch.LevelVeryHigh] else []) in
  (num_finite (Koch.arg_size a) = true →
   known_color (Koch.arg_bg a) = true →
   known_color (Koch.arg_color a) = true →
   ∃ seg,
     Koch.main a t =
       (Ok 0,
        warned
          ++ [Koch.ScreenTitle (Koch.arg_level a);
              Koch.BgColor (Koch.arg_bg a);
              Koch.NewTurtle;
              Koch.Speed (Koch.arg_speed a);
              Koch.Color (Koch.arg_color a);
              Koch.PenSize 2;
              Koch.PenUp;
              Koch.Goto
                (num_div (num_neg (Koch.arg_size a)) num_2)
                (num_div (num_neg (num_mul num_0866 (Koch.arg_size a)))
                   num_3);
              Koch.PenDown]
          ++ seg ++ [Koch.HideTurtle; Koch.Done]) ∧
     Koch.drawing seg ∧
     length (Koch.strokes seg) = (3 * 4 ^ Z.to_nat (Koch.arg_level a))%nat) ∧
  (known_color (Koch.arg_bg a) = false →
   Koch.main a t =
     (Raise TurtleGraphicsError,
      warned ++ [Koch.ScreenTitle (Koch.arg_level a)])) ∧
  (known_color (Koch.arg_bg a) = true →
   known_color (Koch.arg_color a) = false →
   Koch.main a t =
     (Raise TurtleGraphicsError,
      warned
        ++ [Koch.ScreenTitle (Koch.arg_level a);
            Koch.BgColor (Koch.arg_bg a);
            Koch.NewTurtle;
            Koch.Speed (Koch.arg_speed a)])).
Proof.
  intros Hlevel warned. subst warned.
  destruct (koch_snowflake_trace (Koch.arg_size a)
              (Z.to_nat (Koch.arg_level a)))
    as (seg & Hrun & Hdraw & Hstr & _).
  unfold Koch.main. rewrite decide_False by lia.
  unfold Koch.screen_bgcolor, Koch.turtle_color.
  split_and!.
  - intros _ -> ->. exists seg.
    split_and!; [|done|by rewrite Hstr, length_replicate].
    unfold bind, Koch.emit, ret.
    destruct (decide (Koch.arg_level a > 8)); cbn beta iota zeta;
      rewrite Hrun; cbn beta iota zeta;
      by rewrite ?app_nil_r, <-?app_assoc.
  - intros ->. unfold bind, Koch.emit, ret, raise.
    destruct (decide (Koch.arg_level a > 8)); cbn beta iota zeta;
      by rewrite ?app_nil_r.
  - intros -> ->. unfold bind, Koch.emit, ret, raise.
    destruct (decide (Koch.arg_level a > 8)); cbn beta iota zeta;
      by rewrite ?app_nil_r, <-?app_assoc.
Qed.

End KochFacts.

Lemma koch_main_level_below_zero_witness :
  let a := @Koch.Args sample_canvas (-1) 300 0 "white" "blue" in
  Koch.arg_level a < 0 ∧
  Koch.main a [] = (Ok 1, [Koch.Say Koch.LevelBelowZero]).
Proof.
  intros a. split; [simpl; lia|].
  apply (@koch_main_level_below_zero sample_canvas a []). simpl; lia.
Defined.

Lemma koch_main_draws_witness :
  let a := @Koch.Args sample_canvas 9 300 0 "white" "blue" in
  let b := @Koch.Args sample_canvas 2 300 0 "whit" "blue" in
  let c := @Koch.Args sample_canvas 2 300 0 "white" "blu" in
  0 ≤ Koch.arg_level a ∧
  @num_finite sample_canvas (Koch.arg_size a) = true ∧
  @known_color sample_canvas (Koch.arg_bg a) = true ∧
  @known_color sample_canvas (Koch.arg_color a) = true ∧
  (∃ seg,
     Koch.main a [] =
       (Ok 0,
        ([] ++ [Koch.Say Koch.LevelVeryHigh])
          ++ [Koch.ScreenTitle 9; Koch.BgColor "white"; Koch.NewTurtle;
              Koch.Speed 0; Koch.Color "blue"; Koch.PenSize 2; Koch.PenUp;
              @Koch.Goto sample_canvas (-150) (-100); Koch.PenDown]
          ++ seg ++ [Koch.HideTurtle; Koch.Done]) ∧
     Koch.drawing seg ∧
     length (Koch.strokes seg) = (3 * 4 ^ 9)%nat) ∧
  0 ≤ Koch.arg_level b ∧
  @known_color sample_canvas (Koch.arg_bg b) = false ∧
  Koch.main b [] = (Raise TurtleGraphicsError, [Koch.ScreenTitle 2]) ∧
  0 ≤ Koch.arg_level c ∧
  @known_color sample_canvas (Koch.arg_bg c) = true ∧
  @known_color sample_canvas (Koch.arg_color c) = false ∧
  Koch.main c [] =
    (Raise TurtleGraphicsError,
     [Koch.ScreenTitle 2; Koch.BgColor "white"; Koch.NewTurtle;
      Koch.Speed 0]).
Proof.
  intros a b c.
  assert (0 ≤ Koch.arg_level a) as Ha by (simpl; lia).
  assert (0 ≤ Koch.arg_level b) as Hb by (simpl; lia).
  assert (0 ≤ Koch.arg_level c) as Hc by (simpl; lia).
  split; [exact Ha|]. split; [reflexivity|]. split; [reflexivity|].
  split; [reflexivity|]. split.
  { exact (proj1 (@koch_main_draws sample_canvas a [] Ha)
             eq_refl eq_refl eq_refl). }
  split; [exact Hb|]. split; [reflexivity|].
  split.
  { exact (proj1 (proj2 (@koch_main_draws sample_canvas b [] Hb)) eq_refl). }
  split; [exact Hc|]. split; [reflexivity|]. split; [reflexivity|].
  exact (proj2 (proj2 (@koch_main_draws sample_canvas c [] Hc))
           eq_refl eq_refl).
Defined.

(** ** The file sorter *)

Lemma string_length_app (s1 s2 : string) :
  String.length (s1 +:+ s2) = (String.length s1 + String.length s2)%nat.
Proof. induction s1 as [|c s1 IH]; simpl; [done|by rewrite IH]. Qed.

Lemma string_app_inv_tail (s1 s2 e : string) :
  s1 +:+ e = s2 +:+ e → s1 = s2.
Proof.
  revert s2. induction s1 as [|c s1 IH]; intros [|d s2] Heq; [done| | |].
  - apply (f_equal String.length) in Heq.
    rewrite !string_length_app in Heq. simpl in Heq. lia.
  - apply (f_equal String.length) in Heq.
    rewrite !string_length_app in Heq. simpl in Heq. lia.
  - simpl in Heq. injection Heq as -> Heq. f_equal. by apply IH.
Qed.

Lemma numbered_inj (stem ext : string) : Inj (=) (=) (Sorter.numbered stem ext).
Proof.
  intros j k Heq. unfold Sorter.numbered in Heq.
  apply (inj (String.app stem)), (inj (String.app "_")) in Heq.
  by apply string_app_inv_tail, (inj pretty) in Heq.
Qed.

(** The names with the counters [1] to [n] take [n] places of a
    directory that holds them all. *)
Lemma numbered_room (stem ext : string) (fs : gset string) (n : Z) :
  0 ≤ n →
  (∀ j, 1 ≤ j ≤ n → Sorter.numbered stem ext j ∈ fs) →
  (Z.to_nat n ≤ size fs)%nat.
Proof.
  intros Hn Hin.
  pose proof (numbered_inj stem ext) as Hinj.
  assert (NoDup (Sorter.numbered stem ext <$> seqZ 1 n)) as Hnodup
    by apply (NoDup_fmap_2 _), NoDup_seqZ.
  rewrite <-(length_seqZ 1 n),
    <-(length_fmap (Sorter.numbered stem ext)),
    <-(size_list_to_set (C := gset string)) by done.
  apply subseteq_size. intros name [j [-> Hj]]%elem_of_list_to_set%list_elem_of_fmap.
  apply elem_of_seqZ in Hj. apply Hin. lia.
Qed.

Lemma rename_while_spec (stem ext : string) (fs : gset string) (fuel : nat) :
  ∀ candidate counter,
  1 ≤ counter →
  (∀ j, 1 ≤ j < counter → Sorter.numbered stem ext j ∈ fs) →
  (size fs + 2 ≤ fuel + Z.to_nat counter)%nat →
  ∃ name,
    Sorter.rename_while fuel stem ext candidate counter fs = (Ok name, fs) ∧
    (name ∉ fs) ∧
    (((candidate ∉ fs) ∧ name = candidate) ∨
     (candidate ∈ fs ∧ ∃ k,
        counter ≤ k ∧ name = Sorter.numbered stem ext k ∧
        ∀ j, 1 ≤ j < k → Sorter.numbered stem ext j ∈ fs)).
Proof.
  induction fuel as [|fuel IH]; intros candidate counter Hc Hin Hfuel.
  - destruct (decide (candidate ∈ fs)) as [Htaken|Hfree].
    + pose proof (numbered_room stem ext fs (counter - 1)) as Hroom.
      assert (Z.to_nat (counter - 1) ≤ size fs)%nat
        by (apply Hroom; [lia|intros j Hj; apply Hin; lia]).
      lia.
    + exists candidate. split_and!; [|done|by left].
      cbn [Sorter.rename_while]. unfold bind, Sorter.path_exists.
      by rewrite bool_decide_eq_false_2.
  - destruct (decide (candidate ∈ fs)) as [Htaken|Hfree].
    + destruct (decide (Sorter.numbered stem ext counter ∈ fs))
        as [Hnext|Hnext].
      * destruct (IH (Sorter.numbered stem ext counter) (counter + 1))
          as (name & Hrun & Hfresh & [[? _]|(_ & k & Hk & -> & Hbelow)]);
          [lia| |lia|done|].
        { intros j Hj. destruct (decide (j = counter)) as [->|]; [done|].
          apply Hin. lia. }
        exists (Sorter.numbered stem ext k). split_and!; [|done|].
        { cbn [Sorter.rename_while]. unfold bind at 1, Sorter.path_exists at 1.
          by rewrite bool_decide_eq_true_2. }
        right. split; [done|]. exists k. split_and!; [lia|done..].
      * exists (Sorter.numbered stem ext counter). split_and!; [|done|].
        { cbn [Sorter.rename_while]. unfold bind at 1, Sorter.path_exists at 1.
          rewrite bool_decide_eq_true_2 by done.
          destruct fuel; cbn [Sorter.rename_while];
            unfold bind, Sorter.path_exists;
            by rewrite bool_decide_eq_false_2. }
        right. split; [done|]. exists counter. split_and!; [lia|done..].
    + exists candidate. split_and!; [|done|by left].
      cbn [Sorter.rename_while]. unfold bind, Sorter.path_exists.
      by rewrite bool_decide_eq_false_2.
Qed.

(** X24: [safe_dest_path] returns for every directory, and the name it
    returns does not exist there, so that a copy to it overwrites
    nothing.  The name of the source is kept when it is free; otherwise
    the result carries the least counter from 1 on whose name is free.
    The directory is left as it was. *)
Theorem safe_dest_path_fresh (stem ext : string) (fs : gset string) :
  ∃ name,
    Sorter.safe_dest_path stem ext fs = (Ok name, fs) ∧
    (name ∉ fs) ∧
    (((stem +:+ ext ∉ fs) ∧ name = stem +:+ ext) ∨
     (stem +:+ ext ∈ fs ∧ ∃ k,
        1 ≤ k ∧ name = Sorter.numbered stem ext k ∧
        ∀ j, 1 ≤ j < k → Sorter.numbered stem ext j ∈ fs)).
Proof.
  unfold Sorter.safe_dest_path. apply rename_while_spec; [lia| |lia].
  intros j Hj. lia.
Qed.
